(** * docker-regclient: the image-fetch pipeline of [main.go]

    A shallow embedding of [fetch_images], [fetch_images_older_than_n_latest]
    and the dispatch of the [images] command, together with the types of the
    [api] package they use.

    The registry is an external service.  A fixed registry state is a pair of
    functions giving the result of every [Tags] and [ImageDetails] call.

    [fetch_images] is modelled twice.  The step relation [step] follows its
    goroutines, channels and wait groups statement by statement; the function
    [fetch_images] gives the result of a run when the scheduling is resolved
    by an explicit [schedule].  Every run of the step relation returns what
    the function returns under some schedule ([runs_follow_a_schedule]), and
    every run in which each call of the registry returns does return
    ([run_returns]).  A call of [ImageDetails] can also panic; [calls] holds
    the calls as they end, and a run then returns or dies
    ([run_returns_or_dies]).  The reads of [<-throttle] only delay the calling
    goroutine: there is no clock in this development and they have no
    counterpart in it.

    The methods of package [api] are then embedded as they are written, over
    an HTTP client whose answers are given by the [world], with [Confirm] and
    the actions of the [repos], [images] and [delete] commands ([wire], [io]);
    [calls_through] reads the calls of the pipeline off these methods. *)

From Stdlib Require Import String Ascii ZArith Bool Arith Lia List DecimalString.
From Stdlib Require Import Permutation Sorted Wellfounded.
Import ListNotations.

Local Open Scope string_scope.
Local Open Scope list_scope.
Local Open Scope Z_scope.

(** ** Package [api] *)

Module api.

(** [time.Time], as the instant it denotes (seconds since the epoch; the
    layout parsed by [ImageDetails] has a resolution of one second). *)
Definition Time := Z.

(** [t.After(u)] and [t.Before(u)]. *)
Definition After (t u : Time) : bool := u <? t.
Definition Before (t u : Time) : bool := t <? u.

Record DockerImage : Type := {
  Name : string;
  Tag : string;
  ContentDigest : string;
  Created : Time
}.

(** A Go [(value, error)] pair as the callers of this program read it:
    [err == nil] is [Ok], anything else is [Err] with the error's text. *)
Inductive result (A : Type) : Type :=
| Ok (a : A)
| Err (e : string).
Arguments Ok {A} a.
Arguments Err {A} e.

(** The answers of a registry in a fixed state, every call returning its
    [(value, error)] pair.  The calls of [ImageDetails] that panic instead
    are the matter of [calls], further down. *)
Record DockerRegistry : Type := {
  Tags : string -> result (list string);
  ImageDetails : string -> result DockerImage
}.

End api.

Import api.

(** ** [ImgFilter] and [ByCreated] *)

Definition ImgFilter : Type := DockerImage -> bool.

Definition ByCreated : Type := list DockerImage.

Definition Len (s : ByCreated) : nat := length s.

Fixpoint set_index (s : ByCreated) (i : nat) (x : DockerImage) : ByCreated :=
  match s, i with
  | [], _ => []
  | _ :: t, O => x :: t
  | h :: t, S i' => h :: set_index t i' x
  end.

(** [s[i], s[j] = s[j], s[i]] *)
Definition Swap (s : ByCreated) (i j : nat) : ByCreated :=
  match nth_error s i, nth_error s j with
  | Some a, Some b => set_index (set_index s i b) j a
  | _, _ => s
  end.

(** [s[i].Created.After(s[j].Created)] *)
Definition Less (s : ByCreated) (i j : nat) : bool :=
  match nth_error s i, nth_error s j with
  | Some a, Some b => After (Created a) (Created b)
  | _, _ => false
  end.

(** ** [sort.Sort]

    Library code, driven only by [Len], [Less] and [Swap].  Its contract:
    the slice is rearranged so that no element is [Less] than one placed
    before it; the order of elements neither of which is [Less] than the
    other is not specified. *)
Definition ordered_by_Less (s : ByCreated) : Prop :=
  forall i j, (i < j)%nat -> (j < Len s)%nat -> Less s j i = false.

(** The library's insertion sort (the algorithm it runs on short slices):
    [for i := 1; i < n; i++ { for j := i; j > 0 && Less(j, j-1); j-- { Swap(j, j-1) } }].
    It keeps elements that are not [Less] than one another in the order it
    finds them. *)
Fixpoint sift (s : ByCreated) (j : nat) : ByCreated :=
  match j with
  | O => s
  | S j' => if Less s j j' then sift (Swap s j j') j' else s
  end.

Fixpoint insertion_loop (s : ByCreated) (i steps : nat) : ByCreated :=
  match steps with
  | O => s
  | S k => insertion_loop (sift s i) (S i) k
  end.

Definition sort_Sort (s : ByCreated) : ByCreated :=
  insertion_loop s 1 (Len s - 1)%nat.

(** ** What the goroutines of [fetch_images] do *)

Record repotags : Type := {
  repo : string;
  tags : list string
}.

(** A metadata goroutine once it has exited: its own copy of [tag], and the
    repository names it found in the range variable [currepotags], which its
    closure shares with the main loop, when it built the request and when it
    built the log line. *)
Record goroutine : Type := {
  seen_repo : string;
  logged_repo : string;
  own_tag : string
}.

(** [currepotags.repo + ":" + tag] *)
Definition image_key (g : goroutine) : string :=
  (seen_repo g ++ ":" ++ own_tag g)%string.

(** [log.Printf("Unable to get image (%s:%s): %s", currepotags.repo, tag, err)] *)
Definition log_line (g : goroutine) (e : string) : string :=
  ("Unable to get image (" ++ logged_repo g ++ ":" ++ own_tag g ++ "): " ++ e)%string.

(** What a finished metadata goroutine did. *)
Inductive effect : Type :=
| Sent (img : DockerImage)
| Logged (line : string).

(** [img, err := r.ImageDetails(...); if err == nil { imgchan <- img } else { log.Printf(...) }] *)
Definition fetch_goroutine (r : DockerRegistry) (g : goroutine) : effect :=
  match ImageDetails r (image_key g) with
  | Ok img => Sent img
  | Err e => Logged (log_line g e)
  end.

(** [curtags, err := r.Tags(currepo); if err == nil { tagschan <- &repotags{currepo, curtags} }]:
    what the goroutine of [currepo] sends; it does nothing else when the
    call fails. *)
Definition tag_goroutine (r : DockerRegistry) (currepo : string) : list repotags :=
  match Tags r currepo with
  | Ok curtags => [ {| repo := currepo; tags := curtags |} ]
  | Err _ => []
  end.

(** The filter loop of the collector: [continue Outer] at the first filter
    that rejects the image. *)
Fixpoint passes (filters : list ImgFilter) (img : DockerImage) : bool :=
  match filters with
  | [] => true
  | filter :: rest => if negb (filter img) then false else passes rest img
  end.

(** [for img := range imgchan { ...; imgs = append(imgs, img) }] *)
Fixpoint collect (filters : list ImgFilter) (imgchan : list DockerImage)
    (imgs : list DockerImage) : list DockerImage :=
  match imgchan with
  | [] => imgs
  | img :: more =>
      if passes filters img
      then collect filters more (imgs ++ [img])
      else collect filters more imgs
  end.

(** ** [fetch_images], step by step *)

(** [go func() { curtags, err := r.Tags(currepo); if err == nil { tagschan <- ... }; tagwait.Done() }()] *)
Inductive tagger : Type :=
| tagger_calls (currepo : string)
| tagger_sends (rt : repotags)
| tagger_exited.

(** [go func() { img, err := r.ImageDetails(currepotags.repo + ":" + tag); ...; imgwait.Done() }()];
    once past the call the goroutine holds the repository name it read. *)
Inductive fetcher : Type :=
| fetcher_calls (tag : string)
| fetcher_sends (seen tag : string) (img : DockerImage)
| fetcher_logs (seen tag : string) (e : string)
| fetcher_exited (g : goroutine).

(** [go func() { tagwait.Wait(); close(tagschan) }()] and its twin for [imgchan]. *)
Inductive closer : Type :=
| closer_absent
| closer_waits
| closer_closed.

(** Where the calling goroutine stands. *)
Inductive main_pc : Type :=
| in_repos (todo : list string)
| at_tagschan
| in_tags (todo : list string)
| at_imgchan
| returned.

Record state : Type := State {
  pc : main_pc;
  (** the values the range variable [currepotags] has taken, latest last *)
  arrived : list repotags;
  tagwait : nat;
  imgwait : nat;
  (** the goroutines of each stage, in spawn order *)
  taggers : list tagger;
  fetchers : list fetcher;
  tagschan : closer;
  imgchan : closer;
  imgs : list DockerImage;
  log : list string
}.

Definition initial (repos : list string) : state :=
  State (in_repos repos) [] 0 0 [] [] closer_absent closer_absent [] [].

Inductive step (r : DockerRegistry) (filters : list ImgFilter) : state -> state -> Prop :=
(* tagwait.Add(1); currepo := currepo; <-throttle; go func() {...}() *)
| step_go_tagger currepo todo a tw iw ts fs tc ic im lg :
    step r filters
      (State (in_repos (currepo :: todo)) a tw iw ts fs tc ic im lg)
      (State (in_repos todo) a (S tw) iw (ts ++ [tagger_calls currepo]) fs tc ic im lg)
(* go func() { tagwait.Wait(); close(tagschan) }() *)
| step_go_tags_closer a tw iw ts fs ic im lg :
    step r filters
      (State (in_repos []) a tw iw ts fs closer_absent ic im lg)
      (State at_tagschan a tw iw ts fs closer_waits ic im lg)
(* curtags, err := r.Tags(currepo), err == nil *)
| step_Tags_ok p currepo curtags a tw iw ts1 ts2 fs tc ic im lg :
    Tags r currepo = Ok curtags ->
    step r filters
      (State p a tw iw (ts1 ++ tagger_calls currepo :: ts2) fs tc ic im lg)
      (State p a tw iw
         (ts1 ++ tagger_sends {| repo := currepo; tags := curtags |} :: ts2)
         fs tc ic im lg)
(* curtags, err := r.Tags(currepo), err != nil; tagwait.Done() *)
| step_Tags_err p currepo e a tw iw ts1 ts2 fs tc ic im lg :
    Tags r currepo = Err e ->
    step r filters
      (State p a (S tw) iw (ts1 ++ tagger_calls currepo :: ts2) fs tc ic im lg)
      (State p a tw iw (ts1 ++ tagger_exited :: ts2) fs tc ic im lg)
(* tagschan <- &repotags{...} meets currepotags := <-tagschan; tagwait.Done() *)
| step_receive_tags rt a tw iw ts1 ts2 fs tc ic im lg :
    step r filters
      (State at_tagschan a (S tw) iw (ts1 ++ tagger_sends rt :: ts2) fs tc ic im lg)
      (State (in_tags (tags rt)) (a ++ [rt]) tw iw (ts1 ++ tagger_exited :: ts2)
         fs tc ic im lg)
(* tagwait.Wait() returns; close(tagschan) *)
| step_close_tagschan p a iw ts fs ic im lg :
    step r filters
      (State p a 0 iw ts fs closer_waits ic im lg)
      (State p a 0 iw ts fs closer_closed ic im lg)
(* imgwait.Add(1); tag := tag; <-throttle; go func() {...}() *)
| step_go_fetcher tag todo a tw iw ts fs tc ic im lg :
    step r filters
      (State (in_tags (tag :: todo)) a tw iw ts fs tc ic im lg)
      (State (in_tags todo) a tw (S iw) ts (fs ++ [fetcher_calls tag]) tc ic im lg)
(* the inner loop is over: back to the range over tagschan *)
| step_next_tags a tw iw ts fs tc ic im lg :
    step r filters
      (State (in_tags []) a tw iw ts fs tc ic im lg)
      (State at_tagschan a tw iw ts fs tc ic im lg)
(* tagschan is closed; go func() { imgwait.Wait(); close(imgchan) }() *)
| step_go_imgs_closer a tw iw ts fs im lg :
    step r filters
      (State at_tagschan a tw iw ts fs closer_closed closer_absent im lg)
      (State at_imgchan a tw iw ts fs closer_closed closer_waits im lg)
(* img, err := r.ImageDetails(currepotags.repo + ":" + tag), err == nil *)
| step_ImageDetails_ok p before cur tag img tw iw ts fs1 fs2 tc ic im lg :
    ImageDetails r (repo cur ++ ":" ++ tag) = Ok img ->
    step r filters
      (State p (before ++ [cur]) tw iw ts (fs1 ++ fetcher_calls tag :: fs2) tc ic im lg)
      (State p (before ++ [cur]) tw iw ts
         (fs1 ++ fetcher_sends (repo cur) tag img :: fs2) tc ic im lg)
(* img, err := r.ImageDetails(currepotags.repo + ":" + tag), err != nil *)
| step_ImageDetails_err p before cur tag e tw iw ts fs1 fs2 tc ic im lg :
    ImageDetails r (repo cur ++ ":" ++ tag) = Err e ->
    step r filters
      (State p (before ++ [cur]) tw iw ts (fs1 ++ fetcher_calls tag :: fs2) tc ic im lg)
      (State p (before ++ [cur]) tw iw ts
         (fs1 ++ fetcher_logs (repo cur) tag e :: fs2) tc ic im lg)
(* log.Printf("Unable to get image (%s:%s): %s", currepotags.repo, tag, err); imgwait.Done() *)
| step_log p before cur seen tag e tw iw ts fs1 fs2 tc ic im lg :
    let g := {| seen_repo := seen; logged_repo := repo cur; own_tag := tag |} in
    step r filters
      (State p (before ++ [cur]) tw (S iw) ts (fs1 ++ fetcher_logs seen tag e :: fs2)
         tc ic im lg)
      (State p (before ++ [cur]) tw iw ts (fs1 ++ fetcher_exited g :: fs2)
         tc ic im (lg ++ [log_line g e]))
(* imgchan <- img meets img := <-imgchan; the filter loop; imgwait.Done() *)
| step_collect a seen tag img tw iw ts fs1 fs2 tc ic im lg :
    let g := {| seen_repo := seen; logged_repo := seen; own_tag := tag |} in
    step r filters
      (State at_imgchan a tw (S iw) ts (fs1 ++ fetcher_sends seen tag img :: fs2)
         tc ic im lg)
      (State at_imgchan a tw iw ts (fs1 ++ fetcher_exited g :: fs2)
         tc ic (collect filters [img] im) lg)
(* imgwait.Wait() returns; close(imgchan) *)
| step_close_imgchan p a tw ts fs tc im lg :
    step r filters
      (State p a tw 0 ts fs tc closer_waits im lg)
      (State p a tw 0 ts fs tc closer_closed im lg)
(* imgchan is closed; sort.Sort(ByCreated(imgs)); return imgs *)
| step_return a tw iw ts fs tc im sorted lg :
    Permutation sorted im -> ordered_by_Less sorted ->
    step r filters
      (State at_imgchan a tw iw ts fs tc closer_closed im lg)
      (State returned a tw iw ts fs tc closer_closed sorted lg).

Inductive reaches (r : DockerRegistry) (filters : list ImgFilter) : state -> state -> Prop :=
| reaches_here st : reaches r filters st st
| reaches_step st st1 st' :
    step r filters st st1 -> reaches r filters st1 st' -> reaches r filters st st'.

(** A run of [fetch_images]: the slice returned and the lines logged. *)
Definition runs_to (r : DockerRegistry) (repos : list string) (filters : list ImgFilter)
    (res : list DockerImage * list string) : Prop :=
  exists st,
    reaches r filters (initial repos) st /\ pc st = returned /\ res = (imgs st, log st).

(** ** [fetch_images_older_than_n_latest] *)

(** A call either returns or dies in a runtime panic. *)
Inductive outcome (A : Type) : Type :=
| Returned (a : A)
| Panic (msg : string).
Arguments Returned {A} a.
Arguments Panic {A} msg.

(** [s[low:]] with the bounds check of the runtime. *)
Definition slice_from {A : Type} (s : list A) (low : Z) : option (list A) :=
  if (0 <=? low) && (low <=? Z.of_nat (length s))
  then Some (skipn (Z.to_nat low) s)
  else None.

(** The loop over [repos], every call of [fetch_images] being a run of its
    goroutines; the log lines of the calls accumulate in call order. *)
Inductive older_run (r : DockerRegistry) (filters : list ImgFilter) (n : Z)
  : list string -> list DockerImage -> list string
    -> outcome (list DockerImage * list string) -> Prop :=
| older_run_done allimgs lg :
    older_run r filters n [] allimgs lg (Returned (allimgs, lg))
| older_run_append currepo rest allimgs lg repoimgs lines tail o :
    runs_to r [currepo] filters (repoimgs, lines) ->
    (Z.of_nat (length repoimgs) >? n) = true ->
    slice_from repoimgs n = Some tail ->
    older_run r filters n rest (allimgs ++ tail) (lg ++ lines) o ->
    older_run r filters n (currepo :: rest) allimgs lg o
| older_run_panic currepo rest allimgs lg repoimgs lines :
    runs_to r [currepo] filters (repoimgs, lines) ->
    (Z.of_nat (length repoimgs) >? n) = true ->
    slice_from repoimgs n = None ->
    older_run r filters n (currepo :: rest) allimgs lg (Panic "slice bounds out of range")
| older_run_skip currepo rest allimgs lg repoimgs lines o :
    runs_to r [currepo] filters (repoimgs, lines) ->
    (Z.of_nat (length repoimgs) >? n) = false ->
    older_run r filters n rest allimgs (lg ++ lines) o ->
    older_run r filters n (currepo :: rest) allimgs lg o.

(** ** Calls of [ImageDetails] that do not return

    [ImageDetails] takes the answer of the registry apart with type
    assertions and index expressions that nothing guards
    ([jsoncontent.(map[string]interface{})], [toplevel["name"].(string)],
    [toplevel["history"].([]interface{})[0]],
    [r.Header["Docker-Content-Digest"][0]]): on an accepted answer of
    another shape the call panics.  [fetch_images] makes the call in a
    goroutine that recovers nothing, so the panic ends the process. *)

(** The calls of a registry in a fixed state, as they end. *)
Record calls : Type := {
  Tags_of : string -> result (list string);
  ImageDetails_of : string -> outcome (result DockerImage)
}.

(** The answers of the calls that return.  No goroutine gets an answer from
    a call that panics; the entry for such a call holds the message of the
    panic, and the runs that would read it are set aside by [survives]. *)
Definition returning (k : calls) : DockerRegistry :=
  {| Tags := Tags_of k;
     ImageDetails := fun key =>
       match ImageDetails_of k key with
       | Returned answer => answer
       | Panic msg => Err msg
       end |}.

(** The call a metadata goroutine has made, once it is past it. *)
Definition call_made (f : fetcher) : option string :=
  match f with
  | fetcher_calls _ => None
  | fetcher_sends seen tag _ => Some (seen ++ ":" ++ tag)%string
  | fetcher_logs seen tag _ => Some (seen ++ ":" ++ tag)%string
  | fetcher_exited g => Some (image_key g)
  end.

(** A state the process is alive in: every call made so far has returned. *)
Definition survives (k : calls) (st : state) : Prop :=
  forall f key,
    In f (fetchers st) -> call_made f = Some key ->
    exists answer, ImageDetails_of k key = Returned answer.

(** A goroutine makes its call, [r.ImageDetails(currepotags.repo + ":" + tag)],
    and the call panics. *)
Definition panics_at (k : calls) (st : state) (msg : string) : Prop :=
  exists before cur fs1 tag fs2,
    arrived st = before ++ [cur]
    /\ fetchers st = fs1 ++ fetcher_calls tag :: fs2
    /\ ImageDetails_of k (repo cur ++ ":" ++ tag) = Panic msg.

(** A run of [fetch_images] that returns. *)
Definition returns_in (k : calls) (repos : list string) (filters : list ImgFilter)
    (res : list DockerImage * list string) : Prop :=
  exists st,
    reaches (returning k) filters (initial repos) st /\ survives k st
    /\ pc st = returned /\ res = (imgs st, log st).

(** A run of [fetch_images] in which the process dies, and the state it
    dies in. *)
Definition dies_in (k : calls) (repos : list string) (filters : list ImgFilter)
    (st : state) (msg : string) : Prop :=
  reaches (returning k) filters (initial repos) st /\ survives k st /\ panics_at k st msg.

(** ** Schedules *)

Fixpoint remove_nth {A : Type} (i : nat) (l : list A) : list A :=
  match l, i with
  | [], _ => []
  | _ :: t, O => t
  | h :: t, S i' => h :: remove_nth i' t
  end.

(** The order in which pending goroutines finish: each pick names the next
    one to finish among those still pending; when the picks run out the rest
    finish in spawn order.  Every list of picks is a valid order. *)
Fixpoint arrive {A : Type} (picks : list nat) (pending : list A) : list A :=
  match picks, pending with
  | _, [] => []
  | [], _ => pending
  | p :: ps, x :: _ =>
      let i := Nat.modulo p (length pending) in
      nth i pending x :: arrive ps (remove_nth i pending)
  end.

Record schedule : Type := {
  (** order in which the tag-listing goroutines reach [tagschan <- ...] *)
  tags_done : list nat;
  (** for the k-th metadata goroutine, how many further values the range
      variable [currepotags] has taken when the goroutine reads it for the
      request *)
  read_lag : nat -> nat;
  (** ... and how many more when it reads it again for the log line *)
  log_lag : nat -> nat;
  (** order in which the metadata goroutines finish (send or log) *)
  fetch_done : list nat
}.

(** The schedule in which nothing overtakes anything. *)
Definition in_order : schedule :=
  {| tags_done := []; read_lag := fun _ => O; log_lag := fun _ => O;
     fetch_done := [] |}.

(** ** [fetch_images] under a schedule *)

(** What arrives on [tagschan] when the tag goroutines finish in the order
    [finished]. *)
Definition tag_discovery (r : DockerRegistry) (finished : list string) : list repotags :=
  flat_map (tag_goroutine r) finished.

(** What a read of the shared range variable returns [lag] iterations after
    the goroutine was spawned: the value of the iteration that spawned it,
    or one of the values that follow it on [tagschan]; once the loop is over
    the variable keeps its last value. *)
Definition late_read (lag : nat) (cur : repotags) (later : list repotags) : repotags :=
  nth lag (cur :: later) (last later cur).

Fixpoint spawn_tags (s : schedule) (k : nat) (cur : repotags) (later : list repotags)
    (ts : list string) : list goroutine :=
  match ts with
  | [] => []
  | tag :: rest =>
      {| seen_repo := repo (late_read (read_lag s k) cur later);
         logged_repo := repo (late_read (read_lag s k + log_lag s k) cur later);
         own_tag := tag |}
      :: spawn_tags s (S k) cur later rest
  end.

(** [for currepotags := range tagschan { for _, tag := range currepotags.tags { ... go func() ... } }] *)
Fixpoint spawn_fetches (s : schedule) (k : nat) (tagschan : list repotags) : list goroutine :=
  match tagschan with
  | [] => []
  | currepotags :: later =>
      (spawn_tags s k currepotags later (tags currepotags)
       ++ spawn_fetches s (k + length (tags currepotags)) later)%list
  end.

Fixpoint sent (es : list effect) : list DockerImage :=
  match es with
  | [] => []
  | Sent img :: rest => img :: sent rest
  | Logged _ :: rest => sent rest
  end.

Fixpoint logged (es : list effect) : list string :=
  match es with
  | [] => []
  | Sent _ :: rest => logged rest
  | Logged line :: rest => line :: logged rest
  end.

(** The metadata goroutines of a run, in spawn order. *)
Definition spawned (s : schedule) (r : DockerRegistry) (repos : list string) : list goroutine :=
  spawn_fetches s 0 (tag_discovery r (arrive (tags_done s) repos)).

(** Their effects, in the order in which they finished. *)
Definition effects (s : schedule) (r : DockerRegistry) (repos : list string) : list effect :=
  arrive (fetch_done s) (map (fetch_goroutine r) (spawned s r repos)).

(** The returned slice, and the lines written to the log.  The slice is
    sorted by insertion: ties come out in arrival order, and arrival orders
    are arbitrary, so that every sorted arrangement is returned under some
    schedule ([every_tie_order_returned]). *)
Definition fetch_images (s : schedule) (r : DockerRegistry) (repos : list string)
    (filters : list ImgFilter) : list DockerImage * list string :=
  let done := effects s r repos in
  let imgs := collect filters (sent done) [] in
  (sort_Sort imgs, logged done).

(** The loop over [repos]; the i-th call of [fetch_images] runs under the
    schedule [ss i]. *)
Fixpoint older_loop (ss : nat -> schedule) (i : nat) (r : DockerRegistry)
    (repos : list string) (filters : list ImgFilter) (n : Z)
    (allimgs : list DockerImage) (log : list string)
    : outcome (list DockerImage * list string) :=
  match repos with
  | [] => Returned (allimgs, log)
  | repo :: rest =>
      let (repoimgs, lines) := fetch_images (ss i) r [repo] filters in
      if Z.of_nat (length repoimgs) >? n then
        match slice_from repoimgs n with
        | Some tail =>
            older_loop ss (S i) r rest filters n (allimgs ++ tail) (log ++ lines)
        | None => Panic "slice bounds out of range"
        end
      else older_loop ss (S i) r rest filters n allimgs (log ++ lines)
  end.

Definition fetch_images_older_than_n_latest (ss : nat -> schedule) (r : DockerRegistry)
    (repos : list string) (filters : list ImgFilter) (n : Z)
    : outcome (list DockerImage * list string) :=
  older_loop ss 0 r repos filters n [] [].

(** ** The [images] command: which of the two is called

    [if exclude_latest := c.Int("exclude-latest"); exclude_latest > 0 { ... } else { ... }] *)
Definition images_fetch (ss : nat -> schedule) (s : schedule) (r : DockerRegistry)
    (repos : list string) (filters : list ImgFilter) (exclude_latest : Z)
    : outcome (list DockerImage * list string) :=
  if exclude_latest >? 0
  then fetch_images_older_than_n_latest ss r repos filters exclude_latest
  else Returned (fetch_images s r repos filters).

(** ** What the claims speak about *)

(** Sorted by [Created], most recent first. *)
Definition newest_first (l : list DockerImage) : Prop :=
  StronglySorted (fun a b => Created b <= Created a) l.

(** The sorted prefix during insertion sort, nearest neighbour first: the
    new element sinks past every neighbour it is [Less] than. *)
Fixpoint sink (x : DockerImage) (rpre : list DockerImage) : list DockerImage :=
  match rpre with
  | [] => [x]
  | y :: rpre' =>
      if After (Created x) (Created y) then y :: sink x rpre' else x :: y :: rpre'
  end.

Definition oldest_first (l : list DockerImage) : Prop :=
  StronglySorted (fun a b => Created a <= Created b) l.

(** What one repository contributes to the result of
    [fetch_images_older_than_n_latest], in the words of the specification:
    nothing when at most [n] images survive, otherwise what is left once the
    first [n] are dropped. *)
Definition remainder (n : Z) (repoimgs : list DockerImage) : list DockerImage :=
  if Z.of_nat (length repoimgs) >? n then skipn (Z.to_nat n) repoimgs else [].

(** The contributions of the repositories, in the order supplied; the
    pipeline runs once for each of them, on that repository alone. *)
Fixpoint remainders (ss : nat -> schedule) (i : nat) (r : DockerRegistry)
    (repos : list string) (filters : list ImgFilter) (n : Z) : list (list DockerImage) :=
  match repos with
  | [] => []
  | repo :: rest =>
      remainder n (fst (fetch_images (ss i) r [repo] filters))
      :: remainders ss (S i) r rest filters n
  end.

(** The log of the same calls. *)
Fixpoint call_logs (ss : nat -> schedule) (i : nat) (r : DockerRegistry)
    (repos : list string) (filters : list ImgFilter) : list string :=
  match repos with
  | [] => []
  | repo :: rest =>
      (snd (fetch_images (ss i) r [repo] filters) ++ call_logs ss (S i) r rest filters)%list
  end.

(** The result is the concatenation of the per-repository remainders. *)
Definition concatenates_remainders (ss : nat -> schedule) (r : DockerRegistry)
    (repos : list string) (filters : list ImgFilter) (n : Z) : Prop :=
  fetch_images_older_than_n_latest ss r repos filters n
  = Returned (concat (remainders ss 0 r repos filters n), call_logs ss 0 r repos filters).

(** A call that is refused: it does not return. *)
Definition rejected {A : Type} (o : outcome A) : Prop :=
  exists msg, o = Panic msg.

(** The metadata goroutines of a repository when each reads its own
    repository name. *)
Definition own_goroutines (currepo : string) (ts : list string) : list goroutine :=
  map (fun tag => {| seen_repo := currepo; logged_repo := currepo; own_tag := tag |}) ts.

(** Two result sequences that differ at most in the order of images created
    at the same instant. *)
Definition same_up_to_ties (l1 l2 : list DockerImage) : Prop :=
  Permutation l1 l2 /\ map Created l1 = map Created l2.

(** A schedule in which every metadata goroutine reads [currepotags] before
    the main loop moves on. *)
Definition punctual (s : schedule) : Prop :=
  forall k, read_lag s k = O /\ log_lag s k = O.

(** ** What holds in every state of a run *)

Definition tagger_live (t : tagger) : bool :=
  match t with tagger_exited => false | _ => true end.

Definition fetcher_live (f : fetcher) : bool :=
  match f with fetcher_exited _ => false | _ => true end.

(** What a tag goroutine will still send. *)
Definition tagger_future (r : DockerRegistry) (t : tagger) : list repotags :=
  match t with
  | tagger_calls currepo => tag_goroutine r currepo
  | tagger_sends rt => [rt]
  | tagger_exited => []
  end.

Definition repos_todo (p : main_pc) : list string :=
  match p with in_repos todo => todo | _ => [] end.

(** What an exited metadata goroutine did. *)
Definition fetcher_effect (r : DockerRegistry) (f : fetcher) : list effect :=
  match f with fetcher_exited g => [fetch_goroutine r g] | _ => [] end.

Definition exited_effects (r : DockerRegistry) (fs : list fetcher) : list effect :=
  flat_map (fetcher_effect r) fs.

(** The metadata goroutines that the tag lists received so far call for:
    the iteration that spawns each, and its tag. *)
Fixpoint jobs_from (i : nat) (a : list repotags) : list (nat * string) :=
  match a with
  | [] => []
  | rt :: rest => map (pair i) (tags rt) ++ jobs_from (S i) rest
  end.

Definition jobs_pending (p : main_pc) (n : nat) : list (nat * string) :=
  match p with in_tags todo => map (pair (n - 1)%nat) todo | _ => [] end.

(** [name] is the repository of the [j]-th value of [currepotags], read in
    iteration [i] or later. *)
Definition reads (a : list repotags) (i : nat) (name : string) (j : nat) : Prop :=
  (i <= j)%nat /\ exists rt, nth_error a j = Some rt /\ repo rt = name.

(** The two reads of a goroutine that has exited. *)
Definition exited_ok (a : list repotags) (job : nat * string) (g : goroutine) : Prop :=
  own_tag g = snd job
  /\ exists j j', reads a (fst job) (seen_repo g) j /\ reads a j (logged_repo g) j'.

Definition job_ok (r : DockerRegistry) (a : list repotags) (job : nat * string)
    (f : fetcher) : Prop :=
  match f with
  | fetcher_calls t => t = snd job
  | fetcher_sends seen t img =>
      t = snd job /\ (exists j, reads a (fst job) seen j)
      /\ ImageDetails r (seen ++ ":" ++ t)%string = Ok img
  | fetcher_logs seen t e =>
      t = snd job /\ (exists j, reads a (fst job) seen j)
      /\ ImageDetails r (seen ++ ":" ++ t)%string = Err e
  | fetcher_exited g => exited_ok a job g
  end.

(** The wait groups count the live goroutines, and each channel is closed
    only once its wait group is at zero and nothing more will be added. *)
Definition control_ok (st : state) : Prop :=
  tagwait st = length (filter tagger_live (taggers st))
  /\ imgwait st = length (filter fetcher_live (fetchers st))
  /\ match tagschan st with
     | closer_absent => exists todo, pc st = in_repos todo
     | closer_waits => forall todo, pc st <> in_repos todo
     | closer_closed => (forall todo, pc st <> in_repos todo) /\ tagwait st = O
     end
  /\ match imgchan st with
     | closer_absent => pc st <> at_imgchan /\ pc st <> returned
     | closer_waits => pc st = at_imgchan
     | closer_closed => (pc st = at_imgchan \/ pc st = returned) /\ imgwait st = O
     end
  /\ (pc st = at_imgchan \/ pc st = returned -> tagschan st = closer_closed)
  /\ (pc st = returned -> imgchan st = closer_closed).

(** Received, in flight and still to be asked for, the tag lists are those
    of the repositories whose listing succeeds. *)
Definition arrivals_ok (r : DockerRegistry) (repos : list string) (st : state) : Prop :=
  Permutation
    (arrived st ++ flat_map (tagger_future r) (taggers st)
     ++ tag_discovery r (repos_todo (pc st)))
    (tag_discovery r repos).

(** The metadata goroutines are those called for by the tag lists received,
    in that order, and each has read [currepotags] in its own iteration or
    a later one. *)
Definition jobs_ok (r : DockerRegistry) (st : state) : Prop :=
  exists started,
    Forall2 (job_ok r (arrived st)) started (fetchers st)
    /\ started ++ jobs_pending (pc st) (length (arrived st)) = jobs_from 0 (arrived st).

(** The slice and the log hold what the exited goroutines sent and logged. *)
Definition effects_ok (r : DockerRegistry) (filters : list ImgFilter) (st : state) : Prop :=
  Permutation (imgs st) (filter (passes filters) (sent (exited_effects r (fetchers st))))
  /\ Permutation (log st) (logged (exited_effects r (fetchers st)))
  /\ (pc st = returned -> newest_first (imgs st)).

Definition invariant (r : DockerRegistry) (repos : list string) (filters : list ImgFilter)
    (st : state) : Prop :=
  control_ok st /\ arrivals_ok r repos st /\ jobs_ok r st /\ effects_ok r filters st.

(** ** How far a run is from returning *)

(** Steps still to be taken on behalf of a tag list: the receive, three per
    tag (spawn, request, send or log), and the end of the inner loop. *)
Definition receive_weight (ts : list string) : nat := 2 + 3 * length ts.

Definition tagger_weight (r : DockerRegistry) (t : tagger) : nat :=
  match t with
  | tagger_calls currepo =>
      S (match Tags r currepo with Ok curtags => receive_weight curtags | Err _ => 0 end)
  | tagger_sends rt => receive_weight (tags rt)
  | tagger_exited => 0
  end.

Definition fetcher_weight (f : fetcher) : nat :=
  match f with
  | fetcher_calls _ => 2
  | fetcher_sends _ _ _ => 1
  | fetcher_logs _ _ _ => 1
  | fetcher_exited _ => 0
  end.

Definition closer_weight (c : closer) : nat :=
  match c with closer_closed => 0 | _ => 1 end.

Definition pc_weight (r : DockerRegistry) (p : main_pc) : nat :=
  match p with
  | in_repos todo =>
      list_sum (map (fun currepo => S (tagger_weight r (tagger_calls currepo))) todo) + 3
  | at_tagschan => 2
  | in_tags todo => 3 * length todo + 3
  | at_imgchan => 1
  | returned => 0
  end.

Definition steps_left (r : DockerRegistry) (st : state) : nat :=
  pc_weight r (pc st)
  + list_sum (map (tagger_weight r) (taggers st))
  + list_sum (map fetcher_weight (fetchers st))
  + closer_weight (tagschan st) + closer_weight (imgchan st).

(** ** The filters built by the [images] command *)

(** [strings.Contains(s, substr)] *)
Fixpoint Contains (s substr : string) : bool :=
  String.prefix substr s
  || match s with
     | EmptyString => false
     | String _ s' => Contains s' substr
     end.

(** [--older-than]: [img.Created.Before(t)] *)
Definition older_than (t : Time) : ImgFilter :=
  fun img => Before (Created img) t.

(** [--tag-contains]: [strings.Contains(img.Tag, contains)] *)
Definition tag_contains (contains : string) : ImgFilter :=
  fun img => Contains (Tag img) contains.

(** [--tag-exclude]: [!strings.Contains(img.Tag, exclude)] *)
Definition tag_exclude (exclude : string) : ImgFilter :=
  fun img => negb (Contains (Tag img) exclude).

(** The chain in the order the command appends to it; a flag left empty adds
    no filter.  [older] is the parsed date of [--older-than]. *)
Definition images_filters (older : option Time) (contains exclude : string)
    : list ImgFilter :=
  ((match older with Some t => [older_than t] | None => [] end)
   ++ (if String.eqb contains "" then [] else [tag_contains contains])
   ++ (if String.eqb exclude "" then [] else [tag_exclude exclude]))%list.

(** ** Registry states and schedules of the examples *)

Fixpoint lookup {A : Type} (key : string) (table : list (string * A)) : option A :=
  match table with
  | [] => None
  | (k, v) :: rest => if String.eqb key k then Some v else lookup key rest
  end.

(** A registry that knows the listed repositories and manifests and answers
    every other request with an error. *)
Definition registry_of (repositories : list (string * list string))
    (manifests : list (string * DockerImage)) : DockerRegistry :=
  {| Tags := fun name =>
       match lookup name repositories with
       | Some ts => Ok ts
       | None => Err "NAME_UNKNOWN - repository name not known to registry"
       end;
     ImageDetails := fun key =>
       match lookup key manifests with
       | Some img => Ok img
       | None => Err "MANIFEST_UNKNOWN - manifest unknown"
       end |}.

Definition image (name tag : string) (created : Time) : DockerImage :=
  {| Name := name; Tag := tag;
     ContentDigest := ("sha256:" ++ name ++ "-" ++ tag)%string;
     Created := created |}.

(** Two repositories with one tag each; [front:nightly] does not exist. *)
Definition two_repos : DockerRegistry :=
  registry_of
    [("back", ["nightly"]); ("front", ["stable"])]
    [("back:nightly", image "back" "nightly" 100);
     ("front:stable", image "front" "stable" 200)].

(** One repository, one of whose three listed tags has no manifest. *)
Definition broken_tag : DockerRegistry :=
  registry_of
    [("back", ["v1"; "v2"; "v3"])]
    [("back:v1", image "back" "v1" 100); ("back:v3", image "back" "v3" 300)].

(** Two images pushed within the same second. *)
Definition same_second : DockerRegistry :=
  registry_of
    [("back", ["blue"; "green"])]
    [("back:blue", image "back" "blue" 500); ("back:green", image "back" "green" 500)].

(** The registry of the README. *)
Definition readme : DockerRegistry :=
  registry_of
    [("webserver", ["devbuild-5"; "devbuild-4"; "rc3"; "devbuild-3"; "devbuild-2";
                    "devbuild-1"; "rc2"]);
     ("backend-server", ["dev-56"; "dev-55"; "dev-54"; "dev-53"])]
    [("webserver:devbuild-5", image "webserver" "devbuild-5" 70);
     ("webserver:devbuild-4", image "webserver" "devbuild-4" 60);
     ("webserver:rc3", image "webserver" "rc3" 50);
     ("webserver:devbuild-3", image "webserver" "devbuild-3" 40);
     ("webserver:devbuild-2", image "webserver" "devbuild-2" 30);
     ("webserver:devbuild-1", image "webserver" "devbuild-1" 20);
     ("webserver:rc2", image "webserver" "rc2" 10);
     ("backend-server:dev-56", image "backend-server" "dev-56" 66);
     ("backend-server:dev-55", image "backend-server" "dev-55" 55);
     ("backend-server:dev-54", image "backend-server" "dev-54" 44);
     ("backend-server:dev-53", image "backend-server" "dev-53" 33)].

(** Repository [small] with two images, repository [large] with five. *)
Definition uneven : DockerRegistry :=
  registry_of
    [("small", ["s1"; "s2"]); ("large", ["l1"; "l2"; "l3"; "l4"; "l5"])]
    [("small:s1", image "small" "s1" 15); ("small:s2", image "small" "s2" 25);
     ("large:l1", image "large" "l1" 10); ("large:l2", image "large" "l2" 20);
     ("large:l3", image "large" "l3" 30); ("large:l4", image "large" "l4" 40);
     ("large:l5", image "large" "l5" 50)].

(** The first metadata goroutine runs only after the main loop has received
    the next tag list. *)
Definition overtaken : schedule :=
  {| tags_done := [];
     read_lag := fun k => match k with O => 1%nat | _ => O end;
     log_lag := fun _ => O;
     fetch_done := [] |}.

(** The second metadata goroutine finishes before the first. *)
Definition second_first : schedule :=
  {| tags_done := []; read_lag := fun _ => O; log_lag := fun _ => O;
     fetch_done := [1%nat] |}.

(** [n] strokes: the tag of the [n]-th image on a shelf. *)
Fixpoint strokes (n : nat) : string :=
  match n with
  | O => EmptyString
  | S n' => String "i"%char (strokes n')
  end.

(** A registry whose one repository, [shelf], holds the images [imgs] and
    nothing else: every request for one of its tags succeeds. *)
Definition shelf (imgs : list DockerImage) : DockerRegistry :=
  registry_of
    [("shelf", map strokes (seq 1 (length imgs)))]
    (combine (map (fun n => ("shelf:" ++ strokes n)%string) (seq 1 (length imgs))) imgs).

(** The registry [broken_tag], but the request for [back:v2] is accepted and
    answered with a manifest that has no [history]: the call panics. *)
Definition unexpected_manifest : calls :=
  {| Tags_of := Tags broken_tag;
     ImageDetails_of := fun key =>
       if (key =? "back:v2")%string
       then Panic "interface conversion: interface {} is nil, not []interface {}"
       else Returned (ImageDetails broken_tag key) |}.

(** ** The registry client and the commands

    The methods of package [api] as they are written, over the HTTP client,
    and the parts of [main] around the pipeline.  Module [api] above holds
    what these methods answer while the registry does not change. *)

(** ** Library functions the program calls *)

(** [strings.HasSuffix(s, suffix)]:
    [len(s) >= len(suffix) && s[len(s)-len(suffix):] == suffix] *)
Definition HasSuffix (s suffix : string) : bool :=
  (String.length suffix <=? String.length s)%nat
  && String.eqb
       (substring (String.length s - String.length suffix) (String.length suffix) s)
       suffix.

(** [strings.Split(s, sep)] for a separator of one byte: the pieces of [s]
    between the occurrences of [sep]; one piece, [s] itself, when there is
    none. *)
Fixpoint Split (s : string) (sep : ascii) : list string :=
  match s with
  | EmptyString => [EmptyString]
  | String c s' =>
      if Ascii.eqb c sep then EmptyString :: Split s' sep
      else match Split s' sep with
           | piece :: pieces => String c piece :: pieces
           | [] => [String c EmptyString]
           end
  end.

(** The verb [%d]. *)
Definition decimal (n : Z) : string := NilZero.string_of_int (Z.to_int n).

(** The line feed, written ["\n"] in the source. *)
Definition LF : string := String "010"%char EmptyString.

(** What [encoding/json] stores in an [interface{}]. *)
#[warnings="-register-all"]
Inductive json : Type :=
| json_null
| json_bool (b : bool)
| json_number (literal : string)
| json_string (s : string)
| json_array (items : list json)
| json_object (members : list (string * json)).

(** The library functions that are taken as given. *)
Record library : Type := {
  (** [url.Parse], through [http.NewRequest]: the error for a URL it refuses *)
  url_Parse_error : string -> option string;
  (** [json.NewDecoder(body).Decode(&v)], [v] an [interface{}] *)
  json_Decode : string -> result json;
  (** [json.Unmarshal(data, &v)], [v] an [interface{}] *)
  json_Unmarshal : string -> result json;
  (** [Decode(&regerr)]: the [Code] and [Message] of each entry of [regerr.Errors] *)
  Decode_RegistryErrorResponse : string -> result (list (string * string));
  (** [Decode(&rl)]: [rl.Repositories] *)
  Decode_Repolist : string -> result (list string);
  (** [Decode(&tags)]: [tags.Tags] *)
  Decode_Taglist : string -> result (list string);
  (** [time.Parse(layout, value)] *)
  time_Parse : string -> string -> result Time;
  (** [t.Format(layout)] *)
  time_Format : Time -> string -> string;
  (** [strings.TrimSpace] *)
  TrimSpace : string -> string
}.

(** ** The world outside the program *)

Module http.

(** [http.Client{Timeout: ..., Transport: ...}]: the timeout in seconds, and
    whether the transport skips the verification of certificates. *)
Record Client : Type := {
  Timeout : Z;
  InsecureSkipVerify : bool
}.

(** A request: its method, its URL and the [Accept] field of its header,
    the only one the program sets. *)
Record Request : Type := {
  Method : string;
  URL : string;
  Accept : option string
}.

Record Response : Type := {
  StatusCode : Z;
  Body : string;
  Header : string -> list string
}.

End http.

Record world : Type := World {
  (** what [client.Do] returns for a request, given the client and the
      requests made before it *)
  network : http.Client -> list http.Request -> http.Request -> result http.Response;
  (** the requests made so far *)
  requests : list http.Request;
  (** what the reads of standard input will return, one item for each read *)
  stdin : list string;
  (** what was written to standard output, one item for each write *)
  stdout : list string;
  (** what the [log] package wrote *)
  stderr : list string
}.

(** How a call ends: it returns, it dies in a runtime panic, the process
    exits, or it is still going round a loop when [fuel] iterations are
    used up. *)
Inductive reply (A : Type) : Type :=
| Returns (a : A) (w : world)
| Panics (msg : string) (w : world)
| Exits (code : Z) (w : world)
| Running (w : world).
Arguments Returns {A} a w.
Arguments Panics {A} msg w.
Arguments Exits {A} code w.
Arguments Running {A} w.

Definition io (A : Type) : Type := world -> reply A.

Definition ret {A : Type} (a : A) : io A := fun w => Returns a w.

Definition bind {A B : Type} (m : io A) (k : A -> io B) : io B :=
  fun w =>
    match m w with
    | Returns a w' => k a w'
    | Panics msg w' => Panics msg w'
    | Exits code w' => Exits code w'
    | Running w' => Running w'
    end.

Declare Scope io_scope.
Delimit Scope io_scope with io.
Bind Scope io_scope with io.
Notation "x <- m ;; k" := (bind m (fun x => k))
  (at level 61, m at next level, right associativity) : io_scope.
Notation "m ;; k" := (bind m (fun _ => k))
  (at level 61, right associativity) : io_scope.
Local Open Scope io_scope.

(** The world in which a call ended. *)
Definition world_of {A : Type} (o : reply A) : world :=
  match o with
  | Returns _ w => w
  | Panics _ w => w
  | Exits _ w => w
  | Running w => w
  end.

Definition panic {A : Type} (msg : string) : io A := fun w => Panics msg w.

(** [fmt.Printf] and [fmt.Println], the text already formatted. *)
Definition Printf (text : string) : io unit :=
  fun w => Returns tt (World (network w) (requests w) (stdin w) (stdout w ++ [text]) (stderr w)).

Definition Println (text : string) : io unit := Printf (text ++ LF).

(** [log.Printf] *)
Definition log_Printf (text : string) : io unit :=
  fun w => Returns tt (World (network w) (requests w) (stdin w) (stdout w) (stderr w ++ [text])).

(** [log.Fatalf]: the message, then [os.Exit(1)]. *)
Definition log_Fatalf {A : Type} (text : string) : io A :=
  fun w => Exits 1 (World (network w) (requests w) (stdin w) (stdout w) (stderr w ++ [text])).

(** [reader.ReadString('\n')] on a new reader, the error dropped: the next
    item of standard input, the empty string once it is at its end. *)
Definition ReadString : io string :=
  fun w =>
    match stdin w with
    | [] => Returns "" w
    | ans :: rest => Returns ans (World (network w) (requests w) rest (stdout w) (stderr w))
    end.

(** [scanner.Scan()] and [scanner.Text()]: the next line, if there is one. *)
Definition Scan : io (option string) :=
  fun w =>
    match stdin w with
    | [] => Returns None w
    | text :: rest =>
        Returns (Some text) (World (network w) (requests w) rest (stdout w) (stderr w))
    end.

(** [client.Do(req)] *)
Definition Do (client : http.Client) (req : http.Request) : io (result http.Response) :=
  fun w =>
    Returns (network w client (requests w) req)
            (World (network w) (requests w ++ [req]) (stdin w) (stdout w) (stderr w)).

(** The dynamic type of what [encoding/json] stored, as the runtime names
    it; a key that a map does not hold gives the nil interface, and so does
    [null]. *)
Definition dynamic_type (v : option json) : string :=
  match v with
  | None => "nil"
  | Some json_null => "nil"
  | Some (json_bool _) => "bool"
  | Some (json_number _) => "float64"
  | Some (json_string _) => "string"
  | Some (json_array _) => "[]interface {}"
  | Some (json_object _) => "map[string]interface {}"
  end.

(** Type assertions and indexing, with the panics of the runtime. *)
Definition conversion_panic {A : Type} (v : option json) (wanted : string) : io A :=
  panic ("interface conversion: interface {} is " ++ dynamic_type v ++ ", not " ++ wanted).

Definition assert_map (v : option json) : io (list (string * json)) :=
  match v with
  | Some (json_object members) => ret members
  | _ => conversion_panic v "map[string]interface {}"
  end.

Definition assert_string (v : option json) : io string :=
  match v with
  | Some (json_string s) => ret s
  | _ => conversion_panic v "string"
  end.

Definition assert_slice (v : option json) : io (list json) :=
  match v with
  | Some (json_array items) => ret items
  | _ => conversion_panic v "[]interface {}"
  end.

Definition first_of {A : Type} (s : list A) : io A :=
  match s with
  | x :: _ => ret x
  | [] => panic "index out of range"
  end.

(** ** Package [api], over the HTTP client *)

Module wire.

Section Library.

Variable lib : library.

Record DockerRegistry : Type := {
  URL : string;
  client : http.Client
}.

Record RegistryErrorResponse : Type := {
  Errors : list (string * string)
}.

(** [for _, err := range re.Errors { s = fmt.Sprintf("%s%s - %s\n", s, err.Code, err.Message) }] *)
Definition Error (re : RegistryErrorResponse) : string :=
  fold_left (fun s err => (s ++ fst err ++ " - " ++ snd err ++ LF)%string) (Errors re) "".

(** [http.NewRequest(method, url, nil)] *)
Definition NewRequest (method url : string) : result http.Request :=
  match url_Parse_error lib url with
  | Some e => Err e
  | None => Ok {| http.Method := method; http.URL := url; http.Accept := None |}
  end.

(** [type parsefunc func(b *http.Response) error]; the value a parse
    function leaves in the variable it captures is returned with its
    error. *)
Definition parsefunc (A : Type) : Type := http.Response -> io (result A).

Definition do_api_request {A : Type} (r : DockerRegistry) (req : http.Request)
    (pfunc : parsefunc A) : io (result A) :=
  answer <- Do (client r) req ;;
  match answer with
  | Err e => ret (Err e)
  | Ok resp =>
      if negb (http.StatusCode resp =? 200) && negb (http.StatusCode resp =? 202) then
        match Decode_RegistryErrorResponse lib (http.Body resp) with
        | Err _ =>
            ret (Err ("ERROR: Unable to parse JSON for HTTP status code "
                      ++ decimal (http.StatusCode resp)))
        | Ok errors => ret (Err (Error {| Errors := errors |}))
        end
      else pfunc resp
  end.

Definition Repos (r : DockerRegistry) : io (result (list string)) :=
  match NewRequest "GET" (URL r ++ "_catalog") with
  | Err e => ret (Err e)
  | Ok req =>
      do_api_request r req (fun resp => ret (Decode_Repolist lib (http.Body resp)))
  end.

Definition Tags (r : DockerRegistry) (repo : string) : io (result (list string)) :=
  match NewRequest "GET" (URL r ++ repo ++ "/tags/list") with
  | Err e => ret (Err e)
  | Ok req =>
      do_api_request r req (fun resp => ret (Decode_Taglist lib (http.Body resp)))
  end.

(** The head of [ImageDetails]: [parts := strings.Split(image, ":")] and
    the three cases on [len(parts)]. *)
Definition repo_and_tag (image : string) : result (string * string) :=
  match Split image ":"%char with
  | [repo; tag] => Ok (repo, tag)
  | [repo] => Ok (repo, "latest")
  | _ => Err "Image must be in the form 'repository:tag'"
  end.

(** The parse function of the first request: [Name], [Tag] and [Created]
    of the manifest.  [json.Unmarshal] leaves [jsoncontent] as it was when
    it fails. *)
Definition manifest_of : parsefunc (string * string * Time) :=
  fun resp =>
    match json_Decode lib (http.Body resp) with
    | Err e => ret (Err e)
    | Ok jsoncontent =>
        toplevel <- assert_map (Some jsoncontent) ;;
        name <- assert_string (lookup "name" toplevel) ;;
        tag <- assert_string (lookup "tag" toplevel) ;;
        layers <- assert_slice (lookup "history" toplevel) ;;
        layer <- first_of layers ;;
        entry <- assert_map (Some layer) ;;
        history <- assert_string (lookup "v1Compatibility" entry) ;;
        let jsoncontent :=
          match json_Unmarshal lib history with
          | Ok v => v
          | Err _ => jsoncontent
          end in
        firstlayer <- assert_map (Some jsoncontent) ;;
        timestring <- assert_string (lookup "created" firstlayer) ;;
        match time_Parse lib "2006-01-02T15:04:05Z" timestring with
        | Err e => ret (Err e)
        | Ok created => ret (Ok (name, tag, created))
        end
    end.

(** The parse function of the second request:
    [manifest.ContentDigest = r.Header["Docker-Content-Digest"][0]] *)
Definition digest_of : parsefunc string :=
  fun resp =>
    digest <- first_of (http.Header resp "Docker-Content-Digest") ;;
    ret (Ok digest).

(** When the second request fails the source returns the manifest beside
    the error; its callers read the error first and drop the manifest. *)
Definition ImageDetails (r : DockerRegistry) (image : string) : io (result DockerImage) :=
  match repo_and_tag image with
  | Err e => ret (Err e)
  | Ok (repo, tag) =>
      match NewRequest "GET" (URL r ++ repo ++ "/manifests/" ++ tag) with
      | Err e => ret (Err e)
      | Ok req =>
          first <- do_api_request r req manifest_of ;;
          match first with
          | Err e => ret (Err e)
          | Ok (name, tag, created) =>
              let req :=
                {| http.Method := http.Method req; http.URL := http.URL req;
                   http.Accept := Some "application/vnd.docker.distribution.manifest.v2+json" |} in
              second <- do_api_request r req digest_of ;;
              match second with
              | Err e => ret (Err e)
              | Ok digest =>
                  ret (Ok {| Name := name; Tag := tag; ContentDigest := digest;
                             Created := created |})
              end
          end
      end
  end.

Definition DeleteImage (r : DockerRegistry) (img : DockerImage) : io (result unit) :=
  match NewRequest "DELETE" (URL r ++ Name img ++ "/manifests/" ++ ContentDigest img) with
  | Err e => ret (Err e)
  | Ok req => do_api_request r req (fun _ => ret (Ok tt))
  end.

Definition NewDockerRegistry (url : string) (verify_ssl : bool) : io (result DockerRegistry) :=
  let url := if HasSuffix url "/" then (url ++ "v2/")%string else (url ++ "/v2/")%string in
  let r := {| URL := url;
              client := {| http.Timeout := 5; http.InsecureSkipVerify := negb verify_ssl |} |} in
  match NewRequest "GET" url with
  | Err e => ret (Err e)
  | Ok req =>
      answer <- Do (client r) req ;;
      match answer with
      | Err e => ret (Err e)
      | Ok _ =>
          log_Printf ("SUCCESS: established connection to " ++ url) ;;
          ret (Ok r)
      end
  end.

End Library.

End wire.

(** ** The commands of [main] *)

Module cli.

(** [*cli.Context]: the values of the flags, by name. *)
Record Context : Type := {
  GlobalString : string -> string;
  GlobalBool : string -> bool;
  String : string -> string;
  Bool : string -> bool
}.

End cli.

Section Commands.

Variable lib : library.

Definition init_registry (c : cli.Context) : io wire.DockerRegistry :=
  if (cli.GlobalString c "url" =? "")%string then
    log_Fatalf "You must specify a registry (eg --url https://my.registry.com:5000)"
  else
    answer <- wire.NewDockerRegistry lib (cli.GlobalString c "url")
                (cli.GlobalBool c "verify-tls") ;;
    match answer with
    | Err e =>
        log_Fatalf ("Unable to connect to Docker registry at " ++ cli.String c "url"
                    ++ ": " ++ e)
    | Ok r => ret r
    end.

(** [Confirm], for at most [fuel] rounds of its loop.  The prompt is the
    format of [fmt.Printf]; the one the program passes holds no verb. *)
Fixpoint Confirm (fuel : nat) (prompt : string) : io bool :=
  match fuel with
  | O => fun w => Running w
  | S fuel' =>
      Printf prompt ;;
      ans <- ReadString ;;
      if (TrimSpace lib ans =? "y")%string then ret true
      else if (TrimSpace lib ans =? "n")%string then ret false
      else Confirm fuel' prompt
  end.

(** The [repos] command:
    [for _, repo := range repos { tags, _ := r.Tags(repo); fmt.Printf("%s (%d tags)\n", repo, len(tags)) }] *)
Fixpoint print_repos (r : wire.DockerRegistry) (repos : list string) : io unit :=
  match repos with
  | [] => ret tt
  | repo :: rest =>
      answer <- wire.Tags lib r repo ;;
      let tags := match answer with Ok tags => tags | Err _ => [] end in
      Printf (repo ++ " (" ++ decimal (Z.of_nat (length tags)) ++ " tags)" ++ LF) ;;
      print_repos r rest
  end.

(** An [Action] returns [nil] or [cli.NewExitError(text, 1)]. *)
Definition repos_Action (c : cli.Context) : io (result unit) :=
  r <- init_registry c ;;
  answer <- wire.Repos lib r ;;
  match answer with
  | Err e => ret (Err e)
  | Ok repos => print_repos r repos ;; ret (Ok tt)
  end.

(** The [images] command once the pipeline has returned [imgs]:
    [fmt.Printf("%s %s %s:%s\n", img.Created.Format("2006-01-02 15:04:05"), img.ContentDigest[:16], img.Name, img.Tag)] *)
Definition image_line (img : DockerImage) : io string :=
  if (String.length (ContentDigest img) <? 16)%nat
  then panic "slice bounds out of range"
  else ret (time_Format lib (Created img) "2006-01-02 15:04:05" ++ " "
            ++ substring 0 16 (ContentDigest img) ++ " "
            ++ Name img ++ ":" ++ Tag img ++ LF)%string.

Fixpoint print_images (imgs : list DockerImage) : io unit :=
  match imgs with
  | [] => ret tt
  | img :: rest =>
      line <- image_line img ;;
      Printf line ;;
      print_images rest
  end.

Fixpoint delete_images (r : wire.DockerRegistry) (imgs : list DockerImage) : io unit :=
  match imgs with
  | [] => ret tt
  | img :: rest =>
      Printf ("Deleting (" ++ Name img ++ ":" ++ Tag img ++ "): ") ;;
      err <- wire.DeleteImage lib r img ;;
      match err with
      | Ok _ => Printf ("SUCCESS" ++ LF)
      | Err e => Println e
      end ;;
      delete_images r rest
  end.

(** From [if len(imgs) == 0 { return nil }] to the end of the action. *)
Definition images_Action_rest (fuel : nat) (c : cli.Context) (r : wire.DockerRegistry)
    (imgs : list DockerImage) : io (result unit) :=
  if (length imgs =? 0)%nat then ret (Ok tt)
  else
    print_images imgs ;;
    if cli.Bool c "delete" then
      yes <- Confirm fuel ("Do you really want to delete these "
                           ++ decimal (Z.of_nat (length imgs)) ++ " images? (y/n): ") ;;
      if negb yes then ret (Ok tt)
      else delete_images r imgs ;; ret (Ok tt)
    else ret (Ok tt).

(** The [delete] command: [for scanner.Scan() { ... }].  The recursion is on
    what is left of standard input. *)
Fixpoint delete_lines (r : wire.DockerRegistry) (left : list string) : io unit :=
  match left with
  | [] => ret tt
  | _ :: left' =>
      line <- Scan ;;
      match line with
      | None => ret tt
      | Some imagetext =>
          answer <- wire.ImageDetails lib r imagetext ;;
          match answer with
          | Err _ =>
              Printf ("Unable to retrieve details for " ++ imagetext ++ LF) ;;
              delete_lines r left'
          | Ok img =>
              Printf ("Deleting " ++ Name img ++ ":" ++ Tag img ++ LF) ;;
              err <- wire.DeleteImage lib r img ;;
              match err with
              | Ok _ => ret tt
              | Err e => Println e
              end ;;
              delete_lines r left'
          end
      end
  end.

Definition delete_Action (c : cli.Context) : io (result unit) :=
  r <- init_registry c ;;
  (fun w => delete_lines r (stdin w) w) ;;
  ret (Ok tt).

End Commands.

(** ** What the properties of the client and the commands speak about *)

(** The world once the requests [added] were made and nothing else has
    happened. *)
Definition after_requests (w : world) (added : list http.Request) : world :=
  World (network w) (requests w ++ added) (stdin w) (stdout w) (stderr w).

(** A call that touches nothing: it returns or panics in the world it was
    made in. *)
Definition quiet {A : Type} (m : io A) : Prop :=
  forall w, (exists a, m w = Returns a w) \/ (exists msg, m w = Panics msg w).

(** The world once [lines] were written to standard output and nothing else
    has happened. *)
Definition after_output (w : world) (lines : list string) : world :=
  World (network w) (requests w) (stdin w) (stdout w ++ lines) (stderr w).

(** An image whose digest the [images] command can cut to its first 16
    bytes. *)
Definition printable (img : DockerImage) : Prop :=
  (16 <= String.length (ContentDigest img))%nat.

(** An accepted answer: [resp.StatusCode] is 200 or 202. *)
Definition accepted (resp : http.Response) : Prop :=
  http.StatusCode resp = 200 \/ http.StatusCode resp = 202.

(** What the parse function of the first request reads in a body: the
    manifest is an object with the strings [name] and [tag], the first entry
    of its [history] holds the string [v1Compatibility], and the object read
    from that string (the manifest itself when the string is no JSON) holds
    the time [created]. *)
Definition describes (lib : library) (body name tag : string) (created : Time) : Prop :=
  exists toplevel entry layers history firstlayer timestring,
    json_Decode lib body = Ok (json_object toplevel)
    /\ lookup "name" toplevel = Some (json_string name)
    /\ lookup "tag" toplevel = Some (json_string tag)
    /\ lookup "history" toplevel = Some (json_array (json_object entry :: layers))
    /\ lookup "v1Compatibility" entry = Some (json_string history)
    /\ match json_Unmarshal lib history with
       | Ok v => v
       | Err _ => json_object toplevel
       end = json_object firstlayer
    /\ lookup "created" firstlayer = Some (json_string timestring)
    /\ time_Parse lib "2006-01-02T15:04:05Z" timestring = Ok created.

(** A registry that does not change: its answer to a request does not depend
    on the requests made before. *)
Definition steady (w : world) : Prop :=
  forall client before before' req,
    network w client before req = network w client before' req.

(** The value a call returned, if it returned. *)
Definition value_of {A : Type} (o : reply A) : option A :=
  match o with
  | Returns a _ => Some a
  | _ => None
  end.

(** The requests that ask for a deletion. *)
Definition is_DELETE (req : http.Request) : bool := (http.Method req =? "DELETE")%string.

(** An answer to [Confirm] that its [switch] passes over. *)
Definition passed_over (lib : library) (ans : string) : Prop :=
  TrimSpace lib ans <> "y" /\ TrimSpace lib ans <> "n".

(** The request [DeleteImage] makes for an image, when its URL is one
    [http.NewRequest] takes. *)
Definition delete_requests (lib : library) (r : wire.DockerRegistry)
    (imgs : list DockerImage) : list http.Request :=
  flat_map
    (fun img =>
       match wire.NewRequest lib "DELETE"
               (wire.URL r ++ Name img ++ "/manifests/" ++ ContentDigest img) with
       | Ok req => [req]
       | Err _ => []
       end)
    imgs.


(** ** A library and a registry for the examples *)

Definition is_blank (c : ascii) : bool :=
  (c =? " ")%char || ((9 <=? nat_of_ascii c) && (nat_of_ascii c <=? 13))%nat.

Fixpoint trim_left (s : string) : string :=
  match s with
  | String c s' => if is_blank c then trim_left s' else s
  | EmptyString => EmptyString
  end.

Fixpoint trim_right (s : string) : string :=
  match s with
  | EmptyString => EmptyString
  | String c s' =>
      match trim_right s' with
      | EmptyString => if is_blank c then EmptyString else String c EmptyString
      | kept => String c kept
      end
  end.

(** Bodies are named, not spelled out: [manifest] stands for the manifest of
    [back:v1], whose first layer is [layer], and [schema2] for a manifest
    without [history]. *)
Definition example_library : library :=
  {| url_Parse_error := fun _ => None;
     json_Decode := fun body =>
       if (body =? "manifest")%string then
         Ok (json_object
               [("name", json_string "back"); ("tag", json_string "v1");
                ("history", json_array [json_object [("v1Compatibility", json_string "layer")]])])
       else if (body =? "schema2")%string then
         Ok (json_object [("name", json_string "back"); ("tag", json_string "v1")])
       else Err "invalid character";
     json_Unmarshal := fun data =>
       if (data =? "layer")%string then
         Ok (json_object [("created", json_string "2016-06-15T10:22:05Z")])
       else Err "invalid character";
     Decode_RegistryErrorResponse := fun body =>
       if (body =? "unknown")%string then Ok [("MANIFEST_UNKNOWN", "manifest unknown")]
       else Err "invalid character";
     Decode_Repolist := fun body =>
       if (body =? "catalog")%string then Ok ["back"; "gone"] else Err "invalid character";
     Decode_Taglist := fun body =>
       if (body =? "tags")%string then Ok ["v1"; "v2"; "v3"] else Err "invalid character";
     time_Parse := fun layout value =>
       if (value =? "2016-06-15T10:22:05Z")%string then Ok 1465986125
       else Err "cannot parse";
     time_Format := fun t layout => decimal t;
     TrimSpace := fun s => trim_right (trim_left s) |}.

Definition example_answer (status : Z) (body : string) (digests : list string)
    : result http.Response :=
  Ok {| http.StatusCode := status; http.Body := body;
        http.Header := fun name =>
          if (name =? "Docker-Content-Digest")%string then digests else [] |}.

(** A registry at [http://registry/v2/] with the repository [back]: its tag
    [v1] has a manifest, its tag [v2] has none, and the manifest of its tag
    [v3] has no [history]; it accepts every deletion. *)
Definition example_network (client : http.Client) (before : list http.Request)
    (req : http.Request) : result http.Response :=
  if (http.Method req =? "DELETE")%string then example_answer 202 "" []
  else if (http.URL req =? "http://registry/v2/")%string then example_answer 200 "" []
  else if (http.URL req =? "http://registry/v2/_catalog")%string
  then example_answer 200 "catalog" []
  else if (http.URL req =? "http://registry/v2/back/tags/list")%string
  then example_answer 200 "tags" []
  else if (http.URL req =? "http://registry/v2/back/manifests/v1")%string
  then example_answer 200 "manifest" ["sha256:0123456789abcdef"]
  else if (http.URL req =? "http://registry/v2/back/manifests/v3")%string
  then example_answer 200 "schema2" ["sha256:0123456789abcdef"]
  else example_answer 404 "unknown" [].

Definition example_world (input : list string) : world :=
  World example_network [] input [] [].

Definition example_registry : wire.DockerRegistry :=
  {| wire.URL := "http://registry/v2/";
     wire.client := {| http.Timeout := 5; http.InsecureSkipVerify := true |} |}.

Definition example_context (delete : bool) : cli.Context :=
  {| cli.GlobalString := fun name => if (name =? "url")%string then "http://registry" else "";
     cli.GlobalBool := fun _ => false;
     cli.String := fun _ => "";
     cli.Bool := fun name => if (name =? "delete")%string then delete else false |}.

Local Close Scope io_scope.

(** * Proofs *)

(** ** Index operations *)

Lemma set_index_app (pre l : list DockerImage) (i : nat) (x : DockerImage) :
  set_index (pre ++ l) (length pre + i) x = pre ++ set_index l i x.
Proof.
  induction pre as [|p pre IH]; simpl; [reflexivity|].
  now rewrite IH.
Qed.

Lemma nth_error_after (pre l : list DockerImage) (i : nat) :
  nth_error (pre ++ l) (length pre + i) = nth_error l i.
Proof.
  induction pre as [|p pre IH]; simpl; auto.
Qed.

Lemma Swap_neighbours (pre rest : list DockerImage) (x y : DockerImage) :
  Swap (pre ++ y :: x :: rest) (S (length pre)) (length pre) = pre ++ x :: y :: rest.
Proof.
  unfold Swap.
  replace (S (length pre)) with (length pre + 1)%nat by lia.
  replace (nth_error (pre ++ y :: x :: rest) (length pre))
    with (nth_error (pre ++ y :: x :: rest) (length pre + 0)) by (f_equal; lia).
  rewrite !nth_error_after. simpl.
  rewrite set_index_app. simpl.
  replace (length pre) with (length pre + 0)%nat at 1 by lia.
  now rewrite set_index_app.
Qed.

Lemma Less_neighbours (pre rest : list DockerImage) (x y : DockerImage) :
  Less (pre ++ y :: x :: rest) (S (length pre)) (length pre)
  = After (Created x) (Created y).
Proof.
  unfold Less.
  replace (S (length pre)) with (length pre + 1)%nat by lia.
  replace (nth_error (pre ++ y :: x :: rest) (length pre))
    with (nth_error (pre ++ y :: x :: rest) (length pre + 0)) by (f_equal; lia).
  now rewrite !nth_error_after.
Qed.

(** ** The insertion sort, read on lists *)

Lemma sink_length (x : DockerImage) (rpre : list DockerImage) :
  length (sink x rpre) = S (length rpre).
Proof.
  induction rpre as [|y rpre IH]; simpl; [reflexivity|].
  destruct (After _ _); simpl; [now rewrite IH | reflexivity].
Qed.

Lemma sift_sink (rpre : list DockerImage) :
  forall (x : DockerImage) (rest : list DockerImage),
    sift (rev rpre ++ x :: rest) (length rpre) = rev (sink x rpre) ++ rest.
Proof.
  induction rpre as [|y rpre IH]; intros x rest; [reflexivity|].
  cbn [rev length sift sink].
  rewrite <- (length_rev rpre).
  rewrite <- app_assoc. cbn [app].
  rewrite Less_neighbours, Swap_neighbours.
  destruct (After (Created x) (Created y)).
  - rewrite length_rev, IH. cbn [rev]. now rewrite <- app_assoc.
  - cbn [rev]. now rewrite <- !app_assoc.
Qed.

Lemma insertion_loop_fold (rest : list DockerImage) :
  forall rpre : list DockerImage,
    insertion_loop (rev rpre ++ rest) (length rpre) (length rest)
    = rev (fold_left (fun acc x => sink x acc) rest rpre).
Proof.
  induction rest as [|x rest IH]; intros rpre; cbn [insertion_loop length fold_left].
  - now rewrite app_nil_r.
  - rewrite sift_sink, <- (sink_length x rpre). apply IH.
Qed.

Lemma sort_Sort_fold (s : ByCreated) :
  sort_Sort s = rev (fold_left (fun acc x => sink x acc) s []).
Proof.
  destruct s as [|x t]; [reflexivity|].
  unfold sort_Sort, Len. cbn [length fold_left sink].
  replace (S (length t) - 1)%nat with (length t) by lia.
  exact (insertion_loop_fold t [x]).
Qed.

Lemma sink_Permutation (x : DockerImage) (rpre : list DockerImage) :
  Permutation (sink x rpre) (x :: rpre).
Proof.
  induction rpre as [|y rpre IH]; simpl; [apply Permutation_refl|].
  destruct (After _ _); [|apply Permutation_refl].
  rewrite IH. apply perm_swap.
Qed.

Lemma sink_oldest_first (x : DockerImage) (rpre : list DockerImage) :
  oldest_first rpre -> oldest_first (sink x rpre).
Proof.
  unfold oldest_first.
  induction rpre as [|y rpre IH]; intros Hs; simpl.
  - repeat constructor.
  - apply StronglySorted_inv in Hs as [Hs Hy].
    destruct (After (Created x) (Created y)) eqn:E; unfold After in E.
    + constructor; [now apply IH|].
      apply (Permutation_Forall (Permutation_sym (sink_Permutation x rpre))).
      constructor; [apply Z.ltb_lt in E; lia | exact Hy].
    + apply Z.ltb_ge in E.
      constructor; [now constructor|].
      constructor; [exact E|].
      eapply Forall_impl; [|exact Hy]. simpl. intros; lia.
Qed.

Lemma fold_sink_Permutation (s rpre : list DockerImage) :
  Permutation (fold_left (fun acc x => sink x acc) s rpre) (rev s ++ rpre).
Proof.
  revert rpre. induction s as [|x s IH]; intros rpre; simpl; [apply Permutation_refl|].
  rewrite IH, <- app_assoc. simpl.
  apply Permutation_app_head, sink_Permutation.
Qed.

Lemma fold_sink_oldest_first (s rpre : list DockerImage) :
  oldest_first rpre -> oldest_first (fold_left (fun acc x => sink x acc) s rpre).
Proof.
  revert rpre. induction s as [|x s IH]; intros rpre Hs; simpl; [exact Hs|].
  now apply IH, sink_oldest_first.
Qed.

Lemma StronglySorted_app_one {A : Type} (R : A -> A -> Prop) (l : list A) (x : A) :
  StronglySorted R l -> Forall (fun a => R a x) l -> StronglySorted R (l ++ [x]).
Proof.
  induction 1 as [|a l Hs IH Ha]; intros Hx; simpl.
  - repeat constructor.
  - apply Forall_cons_iff in Hx as [Hax Hx].
    constructor; [now apply IH|].
    apply Forall_app; split; [exact Ha | now constructor].
Qed.

Lemma rev_oldest_first (l : list DockerImage) :
  oldest_first l -> newest_first (rev l).
Proof.
  unfold oldest_first, newest_first.
  induction 1 as [|a l Hs IH Ha]; simpl; [constructor|].
  apply StronglySorted_app_one; [exact IH|].
  now apply Forall_rev.
Qed.

(** [sort.Sort(ByCreated(imgs))] rearranges [imgs] ... *)
Lemma sort_Sort_Permutation (s : ByCreated) : Permutation (sort_Sort s) s.
Proof.
  rewrite sort_Sort_fold, <- Permutation_rev, fold_sink_Permutation, app_nil_r.
  apply Permutation_sym, Permutation_rev.
Qed.

(** ... most recent first. *)
Lemma sort_Sort_newest_first (s : ByCreated) : newest_first (sort_Sort s).
Proof.
  rewrite sort_Sort_fold.
  apply rev_oldest_first, fold_sink_oldest_first. constructor.
Qed.

Lemma sort_Sort_length (s : ByCreated) : length (sort_Sort s) = length s.
Proof. apply Permutation_length, sort_Sort_Permutation. Qed.

Lemma sort_Sort_In (s : ByCreated) (img : DockerImage) :
  In img (sort_Sort s) <-> In img s.
Proof.
  split; apply Permutation_in;
    [apply sort_Sort_Permutation | apply Permutation_sym, sort_Sort_Permutation].
Qed.

(** A slice that is already in order is left as it is: the sort never moves
    an element past one created at the same instant or later. *)
Lemma sink_in_place (x : DockerImage) (rpre : list DockerImage) :
  Forall (fun y => Created x <= Created y) rpre -> sink x rpre = x :: rpre.
Proof.
  destruct rpre as [|y rpre]; [reflexivity|].
  intros H. apply Forall_inv in H. simpl.
  unfold After. now destruct (Z.ltb_spec (Created y) (Created x)); [lia|].
Qed.

Lemma fold_sink_in_place (s : list DockerImage) :
  forall rpre : list DockerImage,
    newest_first s ->
    Forall (fun x => Forall (fun y => Created x <= Created y) rpre) s ->
    fold_left (fun acc x => sink x acc) s rpre = rev s ++ rpre.
Proof.
  induction s as [|x s IH]; intros rpre Hs Hp; [reflexivity|].
  apply StronglySorted_inv in Hs as [Hs Hx].
  apply Forall_cons_iff in Hp as [Hxp Hp].
  cbn [fold_left rev]. rewrite sink_in_place by exact Hxp.
  rewrite IH; [now rewrite <- app_assoc | exact Hs |].
  rewrite Forall_forall in Hx, Hp |- *.
  intros z Hz. constructor; [now apply Hx | now apply Hp].
Qed.

Lemma sort_Sort_fixes_sorted (s : ByCreated) :
  newest_first s -> sort_Sort s = s.
Proof.
  intros Hs. rewrite sort_Sort_fold, fold_sink_in_place; auto.
  - now rewrite app_nil_r, rev_involutive.
  - apply Forall_forall. intros; constructor.
Qed.

(** ** Finishing orders *)

Lemma remove_nth_Permutation {A : Type} (l : list A) :
  forall (i : nat) (d : A),
    (i < length l)%nat -> Permutation (nth i l d :: remove_nth i l) l.
Proof.
  induction l as [|h t IH]; intros i d Hi; simpl in Hi; [lia|].
  destruct i as [|i]; simpl; [apply Permutation_refl|].
  rewrite perm_swap. apply perm_skip, IH. lia.
Qed.

Lemma arrive_Permutation {A : Type} (picks : list nat) :
  forall pending : list A, Permutation (arrive picks pending) pending.
Proof.
  induction picks as [|p ps IH]; intros [|x pending]; cbn [arrive];
    try apply Permutation_refl.
  set (l := x :: pending).
  assert (Hi : (Nat.modulo p (length l) < length l)%nat)
    by (apply Nat.mod_upper_bound; discriminate).
  rewrite IH. now apply remove_nth_Permutation.
Qed.

Lemma remove_nth_middle {A : Type} (l1 l2 : list A) (x : A) :
  remove_nth (length l1) (l1 ++ x :: l2) = l1 ++ l2.
Proof.
  induction l1 as [|h t IH]; simpl; [reflexivity | now rewrite IH].
Qed.

(** Every order of the pending goroutines is the finishing order of some
    list of picks. *)
Lemma arrive_reaches {A : Type} (order : list A) :
  forall pending : list A,
    Permutation pending order -> exists picks, arrive picks pending = order.
Proof.
  induction order as [|x order IH]; intros pending Hp.
  - apply Permutation_sym, Permutation_nil in Hp. subst. now exists [].
  - assert (Hin : In x pending)
      by (eapply Permutation_in; [apply Permutation_sym, Hp | now left]).
    apply in_split in Hin as (l1 & l2 & ->).
    apply Permutation_sym, Permutation_cons_app_inv, Permutation_sym in Hp.
    destruct (IH _ Hp) as [ps Hps].
    exists (length l1 :: ps).
    destruct (l1 ++ x :: l2) as [|x0 rest] eqn:E;
      [now destruct l1; discriminate E|].
    cbn [arrive]. rewrite <- E.
    rewrite Nat.mod_small by (rewrite length_app; simpl; lia).
    rewrite remove_nth_middle, Hps.
    now rewrite nth_middle.
Qed.

(** ** The collector *)

Lemma passes_forallb (filters : list ImgFilter) (img : DockerImage) :
  passes filters img = forallb (fun filter => filter img) filters.
Proof.
  induction filters as [|f fs IH]; simpl; [reflexivity|].
  now destruct (f img).
Qed.

Lemma passes_true (filters : list ImgFilter) (img : DockerImage) :
  passes filters img = true <-> forall filter, In filter filters -> filter img = true.
Proof.
  rewrite passes_forallb. apply forallb_forall.
Qed.

Lemma collect_filter (filters : list ImgFilter) (imgchan : list DockerImage) :
  forall imgs : list DockerImage,
    collect filters imgchan imgs = imgs ++ filter (passes filters) imgchan.
Proof.
  induction imgchan as [|img more IH]; intros imgs; simpl.
  - now rewrite app_nil_r.
  - destruct (passes filters img); rewrite IH; [now rewrite <- app_assoc | reflexivity].
Qed.

Lemma passes_Permutation (f1 f2 : list ImgFilter) (img : DockerImage) :
  Permutation f1 f2 -> passes f1 img = passes f2 img.
Proof.
  induction 1 as [|f l l' _ IH|f g l|l l' l'' _ IH1 _ IH2]; simpl.
  - reflexivity.
  - now rewrite IH.
  - now destruct (f img), (g img).
  - congruence.
Qed.

(** ** The stages *)

Lemma sent_filter_Permutation (filters : list ImgFilter) (l l' : list effect) :
  Permutation l l' ->
  Permutation (filter (passes filters) (sent l)) (filter (passes filters) (sent l')).
Proof.
  induction 1 as [|e l l' _ IH|e e' l|l l' l'' _ IH1 _ IH2]; simpl.
  - apply Permutation_refl.
  - destruct e as [img|line]; simpl; [|exact IH].
    destruct (passes filters img); [now apply perm_skip | exact IH].
  - destruct e as [img|line], e' as [img'|line']; simpl; try apply Permutation_refl.
    destruct (passes filters img), (passes filters img');
      try apply Permutation_refl. apply perm_swap.
  - now rewrite IH1.
Qed.

Lemma logged_Permutation (l l' : list effect) :
  Permutation l l' -> Permutation (logged l) (logged l').
Proof.
  induction 1 as [|e l l' _ IH|e e' l|l l' l'' _ IH1 _ IH2]; simpl.
  - apply Permutation_refl.
  - destruct e; [exact IH | now apply perm_skip].
  - destruct e, e'; try apply Permutation_refl. apply perm_swap.
  - now rewrite IH1.
Qed.

Lemma In_sent (es : list effect) (img : DockerImage) :
  In img (sent es) <-> In (Sent img) es.
Proof.
  induction es as [|[i|line] es IH]; simpl; [tauto| |].
  - rewrite IH. split; intros [H|H]; auto; left; congruence.
  - rewrite IH. split; [auto|]. intros [H|H]; [discriminate | exact H].
Qed.

Lemma In_logged (es : list effect) (line : string) :
  In line (logged es) <-> In (Logged line) es.
Proof.
  induction es as [|[i|l] es IH]; simpl; [tauto| |].
  - rewrite IH. split; [auto|]. intros [H|H]; [discriminate | exact H].
  - rewrite IH. split; intros [H|H]; auto; left; congruence.
Qed.

(** The returned slice holds the images that were sent and pass the filters,
    most recent first; the log holds the lines of the goroutines that failed. *)
Lemma fetch_images_returns (s : schedule) (r : DockerRegistry) (repos : list string)
    (filters : list ImgFilter) :
  Permutation (fst (fetch_images s r repos filters))
    (filter (passes filters) (sent (map (fetch_goroutine r) (spawned s r repos)))).
Proof.
  unfold fetch_images, effects. cbn [fst].
  rewrite sort_Sort_Permutation, collect_filter. cbn [app].
  apply sent_filter_Permutation, arrive_Permutation.
Qed.

Lemma fetch_images_logs (s : schedule) (r : DockerRegistry) (repos : list string)
    (filters : list ImgFilter) :
  Permutation (snd (fetch_images s r repos filters))
    (logged (map (fetch_goroutine r) (spawned s r repos))).
Proof.
  unfold fetch_images, effects. cbn [snd].
  apply logged_Permutation, arrive_Permutation.
Qed.

Lemma fetch_images_newest_first (s : schedule) (r : DockerRegistry)
    (repos : list string) (filters : list ImgFilter) :
  newest_first (fst (fetch_images s r repos filters)).
Proof. apply sort_Sort_newest_first. Qed.

(** ** Finishing orders and goroutine bodies *)

Lemma remove_nth_map {A B : Type} (f : A -> B) (l : list A) :
  forall i : nat, remove_nth i (map f l) = map f (remove_nth i l).
Proof.
  induction l as [|h t IH]; intros [|i]; simpl; try reflexivity.
  now rewrite IH.
Qed.

Lemma arrive_map {A B : Type} (f : A -> B) (picks : list nat) :
  forall pending : list A, arrive picks (map f pending) = map f (arrive picks pending).
Proof.
  induction picks as [|p ps IH]; intros [|x pending]; try reflexivity.
  cbn [arrive map].
  change (f x :: map f pending) with (map f (x :: pending)).
  now rewrite length_map, map_nth, remove_nth_map, IH.
Qed.

Lemma arrive_single {A : Type} (picks : list nat) (x : A) :
  arrive picks [x] = [x].
Proof.
  destruct picks as [|p ps]; [reflexivity|].
  cbn [arrive length]. rewrite Nat.mod_1_r. simpl. now destruct ps.
Qed.

Lemma late_read_alone (lag : nat) (cur : repotags) :
  late_read lag cur [] = cur.
Proof.
  unfold late_read. destruct lag as [|[|lag]]; reflexivity.
Qed.

Lemma late_read_at_once (cur : repotags) (later : list repotags) :
  late_read 0 cur later = cur.
Proof. reflexivity. Qed.

(** ** One repository at a time: every goroutine reads its own repository *)

Lemma spawn_tags_alone (s : schedule) (cur : repotags) (ts : list string) :
  forall k : nat, spawn_tags s k cur [] ts = own_goroutines (repo cur) ts.
Proof.
  induction ts as [|tag ts IH]; intros k; simpl; [reflexivity|].
  now rewrite !late_read_alone, IH.
Qed.

Lemma spawned_single (s : schedule) (r : DockerRegistry) (currepo : string) :
  spawned s r [currepo]
  = match Tags r currepo with
    | Ok curtags => own_goroutines currepo curtags
    | Err _ => []
    end.
Proof.
  unfold spawned. rewrite arrive_single.
  unfold tag_discovery, tag_goroutine. cbn [flat_map].
  destruct (Tags r currepo) as [curtags|e]; [|reflexivity].
  cbn [app spawn_fetches tags]. now rewrite spawn_tags_alone, app_nil_r.
Qed.

(** ** Punctual schedules: every goroutine reads its own repository *)

Lemma spawn_tags_punctual (s : schedule) (cur : repotags) (later : list repotags)
    (ts : list string) :
  punctual s ->
  forall k : nat, spawn_tags s k cur later ts = own_goroutines (repo cur) ts.
Proof.
  intros Hs. induction ts as [|tag ts IH]; intros k; simpl; [reflexivity|].
  destruct (Hs k) as [-> ->]. cbn [Nat.add]. now rewrite late_read_at_once, IH.
Qed.

Lemma spawn_fetches_punctual (s : schedule) (tagschan : list repotags) :
  punctual s ->
  forall k : nat,
    spawn_fetches s k tagschan
    = flat_map (fun rt => own_goroutines (repo rt) (tags rt)) tagschan.
Proof.
  intros Hs. induction tagschan as [|rt later IH]; intros k; simpl; [reflexivity|].
  now rewrite spawn_tags_punctual, IH.
Qed.

Lemma spawned_punctual (s1 s2 : schedule) (r : DockerRegistry) (repos : list string) :
  punctual s1 -> punctual s2 ->
  Permutation (spawned s1 r repos) (spawned s2 r repos).
Proof.
  intros H1 H2. unfold spawned.
  rewrite !spawn_fetches_punctual by assumption.
  apply Permutation_flat_map. unfold tag_discovery.
  apply Permutation_flat_map.
  rewrite !arrive_Permutation. apply Permutation_refl.
Qed.

(** ** Sorted sequences *)

Lemma sorted_Z_unique (l1 : list Z) :
  forall l2 : list Z,
    StronglySorted (fun a b => b <= a) l1 ->
    StronglySorted (fun a b => b <= a) l2 ->
    Permutation l1 l2 -> l1 = l2.
Proof.
  induction l1 as [|x l1 IH]; intros l2 H1 H2 Hp.
  - now apply Permutation_nil in Hp.
  - destruct l2 as [|y l2];
      [now apply Permutation_sym, Permutation_nil in Hp|].
    apply StronglySorted_inv in H1 as [H1 Hx].
    apply StronglySorted_inv in H2 as [H2 Hy].
    assert (x = y) as <-.
    { assert (Hxin : In x (y :: l2)) by (eapply Permutation_in; [exact Hp | now left]).
      assert (Hyin : In y (x :: l1))
        by (eapply Permutation_in; [apply Permutation_sym, Hp | now left]).
      rewrite Forall_forall in Hx, Hy.
      destruct Hxin as [->|Hxin]; [reflexivity|].
      destruct Hyin as [->|Hyin]; [reflexivity|].
      specialize (Hx _ Hyin). specialize (Hy _ Hxin). lia. }
    f_equal. apply IH; try assumption.
    now apply Permutation_cons_inv in Hp.
Qed.

Lemma newest_first_map (l : list DockerImage) :
  newest_first l -> StronglySorted (fun a b => b <= a) (map Created l).
Proof.
  induction 1 as [|a l Hs IH Ha]; simpl; constructor; [exact IH|].
  now apply Forall_map.
Qed.

(** Two sorted arrangements of the same images show the same sequence of
    timestamps: they differ only inside groups of equal timestamps. *)
Lemma sorted_same_up_to_ties (l1 l2 : list DockerImage) :
  newest_first l1 -> newest_first l2 -> Permutation l1 l2 -> same_up_to_ties l1 l2.
Proof.
  intros H1 H2 Hp. split; [exact Hp|].
  apply sorted_Z_unique; try now apply newest_first_map.
  now apply Permutation_map.
Qed.

Lemma newest_first_nth (l : list DockerImage) :
  newest_first l ->
  forall i j a b, (i < j)%nat ->
    nth_error l i = Some a -> nth_error l j = Some b -> Created b <= Created a.
Proof.
  induction 1 as [|x l Hs IH Hx]; intros i j a b Hij Hi Hj.
  - now destruct i.
  - destruct j as [|j]; [lia|]. simpl in Hj.
    destruct i as [|i]; simpl in Hi.
    + injection Hi as <-. rewrite Forall_forall in Hx.
      apply Hx. eapply nth_error_In, Hj.
    + eapply IH; [|exact Hi|exact Hj]. lia.
Qed.

Lemma newest_first_ordered_by_Less (l : list DockerImage) :
  newest_first l -> ordered_by_Less l.
Proof.
  intros Hs i j Hij Hj. unfold Less, Len in *.
  destruct (nth_error l j) as [b|] eqn:Ej; [|reflexivity].
  destruct (nth_error l i) as [a|] eqn:Ei; [|reflexivity].
  unfold After. apply Z.ltb_ge.
  exact (newest_first_nth l Hs i j a b Hij Ei Ej).
Qed.

Lemma ordered_by_Less_newest_first (l : list DockerImage) :
  ordered_by_Less l -> newest_first l.
Proof.
  unfold ordered_by_Less, newest_first, Less, Len.
  induction l as [|x l IH]; intros H; constructor.
  - apply IH. intros i j Hij Hj.
    apply (H (S i) (S j)); cbn [length]; lia.
  - apply Forall_forall. intros b Hb.
    apply In_nth_error in Hb as [j Hj].
    assert (Hlt : (j < length l)%nat) by (apply nth_error_Some; congruence).
    specialize (H O (S j) ltac:(lia) ltac:(cbn [length]; lia)).
    cbn [nth_error] in H. rewrite Hj in H.
    unfold After in H. now apply Z.ltb_ge in H.
Qed.

Lemma newest_first_skipn (k : nat) (l : list DockerImage) :
  newest_first l -> newest_first (skipn k l).
Proof.
  revert l. induction k as [|k IH]; intros l Hs; [exact Hs|].
  destruct l as [|x l]; [constructor|].
  apply StronglySorted_inv in Hs as [Hs _]. now apply IH.
Qed.

Lemma remainder_newest_first (n : Z) (l : list DockerImage) :
  newest_first l -> newest_first (remainder n l).
Proof.
  intros Hs. unfold remainder.
  destruct (Z.of_nat (length l) >? n); [now apply newest_first_skipn | constructor].
Qed.

(** ** The loop of [fetch_images_older_than_n_latest] *)

Lemma slice_from_in_range {A : Type} (s : list A) (n : Z) :
  0 <= n -> n < Z.of_nat (length s) -> slice_from s n = Some (skipn (Z.to_nat n) s).
Proof.
  intros H0 Hn. unfold slice_from.
  destruct (Z.leb_spec 0 n); [|lia].
  destruct (Z.leb_spec n (Z.of_nat (length s))); [reflexivity | lia].
Qed.

Lemma slice_from_negative {A : Type} (s : list A) (n : Z) :
  n < 0 -> slice_from s n = None.
Proof.
  intros Hn. unfold slice_from.
  destruct (Z.leb_spec 0 n); [lia | reflexivity].
Qed.

Lemma guard_negative {A : Type} (s : list A) (n : Z) :
  n < 0 -> (Z.of_nat (length s) >? n) = true.
Proof.
  intros Hn. apply Z.gtb_lt. lia.
Qed.

Lemma older_loop_returns (ss : nat -> schedule) (r : DockerRegistry)
    (filters : list ImgFilter) (n : Z) (repos : list string) :
  0 <= n ->
  forall (i : nat) (allimgs : list DockerImage) (log : list string),
    older_loop ss i r repos filters n allimgs log
    = Returned (allimgs ++ concat (remainders ss i r repos filters n),
                log ++ call_logs ss i r repos filters).
Proof.
  intros H0. induction repos as [|currepo rest IH]; intros i allimgs log.
  - simpl. now rewrite !app_nil_r.
  - cbn [older_loop remainders call_logs concat].
    destruct (fetch_images (ss i) r [currepo] filters) as [repoimgs lines] eqn:E.
    cbn [fst snd]. unfold remainder.
    destruct (Z.of_nat (length repoimgs) >? n) eqn:G.
    + apply Z.gtb_lt in G. rewrite slice_from_in_range by lia.
      now rewrite IH, <- !app_assoc.
    + now rewrite IH, <- app_assoc.
Qed.

Lemma older_loop_panics (ss : nat -> schedule) (r : DockerRegistry)
    (filters : list ImgFilter) (n : Z) (currepo : string) (rest : list string)
    (i : nat) (allimgs : list DockerImage) (log : list string) :
  n < 0 ->
  older_loop ss i r (currepo :: rest) filters n allimgs log
  = Panic "slice bounds out of range".
Proof.
  intros Hn. cbn [older_loop].
  destruct (fetch_images (ss i) r [currepo] filters) as [repoimgs lines].
  now rewrite guard_negative, slice_from_negative.
Qed.

Lemma remainders_length (ss : nat -> schedule) (r : DockerRegistry)
    (filters : list ImgFilter) (n : Z) (repos : list string) :
  forall i : nat, length (remainders ss i r repos filters n) = length repos.
Proof.
  induction repos as [|currepo rest IH]; intros i; simpl; [reflexivity|].
  now rewrite IH.
Qed.

Lemma remainders_nth_error (ss : nat -> schedule) (r : DockerRegistry)
    (filters : list ImgFilter) (n : Z) (repos : list string) :
  forall (i k : nat) (currepo : string),
    nth_error repos k = Some currepo ->
    nth_error (remainders ss i r repos filters n) k
    = Some (remainder n (fst (fetch_images (ss (i + k)%nat) r [currepo] filters))).
Proof.
  induction repos as [|repo0 rest IH]; intros i k currepo Hk.
  - now destruct k.
  - destruct k as [|k]; simpl in Hk |- *.
    + injection Hk as ->. now rewrite Nat.add_0_r.
    + rewrite (IH (S i) k currepo Hk).
      now replace (i + S k)%nat with (S i + k)%nat by lia.
Qed.

Lemma remainders_newest_first (ss : nat -> schedule) (r : DockerRegistry)
    (filters : list ImgFilter) (n : Z) (repos : list string) :
  forall i : nat, Forall newest_first (remainders ss i r repos filters n).
Proof.
  induction repos as [|currepo rest IH]; intros i; simpl; constructor.
  - apply remainder_newest_first, fetch_images_newest_first.
  - apply IH.
Qed.

Lemma remainder_nothing (n : Z) (repoimgs : list DockerImage) :
  Z.of_nat (length repoimgs) <= n -> remainder n repoimgs = [].
Proof.
  intros H. unfold remainder.
  destruct (Z.gtb_spec (Z.of_nat (length repoimgs)) n); [lia | reflexivity].
Qed.

Lemma remainder_drops (n : Z) (repoimgs : list DockerImage) :
  n < Z.of_nat (length repoimgs) -> remainder n repoimgs = skipn (Z.to_nat n) repoimgs.
Proof.
  intros H. unfold remainder.
  destruct (Z.gtb_spec (Z.of_nat (length repoimgs)) n); [reflexivity | lia].
Qed.

Lemma remainder_zero (repoimgs : list DockerImage) : remainder 0 repoimgs = repoimgs.
Proof.
  unfold remainder. destruct repoimgs; reflexivity.
Qed.

(** ** Discovery and the log *)

Lemma tag_discovery_In (r : DockerRegistry) (finished : list string) (rt : repotags) :
  In rt (tag_discovery r finished)
  <-> In (repo rt) finished /\ Tags r (repo rt) = Ok (tags rt).
Proof.
  unfold tag_discovery. rewrite in_flat_map. unfold tag_goroutine. split.
  - intros (currepo & Hin & Hrt).
    destruct (Tags r currepo) as [curtags|e] eqn:E; [|contradiction].
    destruct Hrt as [<-|[]]. simpl. auto.
  - intros [Hin Ht]. exists (repo rt). split; [exact Hin|].
    rewrite Ht. left. now destruct rt.
Qed.

(** A repository whose tag listing fails is absent from [tagschan]; the
    others arrive whatever happened to it. *)
Lemma tagschan_In (s : schedule) (r : DockerRegistry) (repos : list string)
    (rt : repotags) :
  In rt (tag_discovery r (arrive (tags_done s) repos))
  <-> In (repo rt) repos /\ Tags r (repo rt) = Ok (tags rt).
Proof.
  rewrite tag_discovery_In. split; intros [Hin Ht]; split; auto.
  - eapply Permutation_in; [apply arrive_Permutation | exact Hin].
  - eapply Permutation_in; [apply Permutation_sym, arrive_Permutation | exact Hin].
Qed.

(** Every line of the log comes from a metadata request that failed. *)
Lemma log_lines_origin (s : schedule) (r : DockerRegistry) (repos : list string)
    (filters : list ImgFilter) (line : string) :
  In line (snd (fetch_images s r repos filters)) ->
  exists g e,
    In g (spawned s r repos) /\ ImageDetails r (image_key g) = Err e
    /\ line = log_line g e.
Proof.
  intros Hin.
  apply (Permutation_in _ (fetch_images_logs s r repos filters)) in Hin.
  apply In_logged, in_map_iff in Hin as (g & Hg & Hin).
  unfold fetch_goroutine in Hg.
  destruct (ImageDetails r (image_key g)) as [img|e] eqn:E; [discriminate|].
  injection Hg as <-. now exists g, e.
Qed.

Lemma failure_logged (s : schedule) (r : DockerRegistry) (repos : list string)
    (filters : list ImgFilter) (g : goroutine) (e : string) :
  In g (spawned s r repos) -> ImageDetails r (image_key g) = Err e ->
  In (log_line g e) (snd (fetch_images s r repos filters)).
Proof.
  intros Hg He.
  apply (Permutation_in _ (Permutation_sym (fetch_images_logs s r repos filters))).
  apply In_logged, in_map_iff. exists g. split; [|exact Hg].
  unfold fetch_goroutine. now rewrite He.
Qed.

Lemma success_returned (s : schedule) (r : DockerRegistry) (repos : list string)
    (filters : list ImgFilter) (img : DockerImage) :
  In img (fst (fetch_images s r repos filters))
  <-> (exists g, In g (spawned s r repos) /\ ImageDetails r (image_key g) = Ok img)
      /\ passes filters img = true.
Proof.
  assert (Hs : In img (filter (passes filters)
                         (sent (map (fetch_goroutine r) (spawned s r repos))))
               <-> In img (fst (fetch_images s r repos filters))).
  { pose proof (fetch_images_returns s r repos filters) as Hp.
    split; apply Permutation_in; [apply Permutation_sym|]; exact Hp. }
  rewrite <- Hs, filter_In, In_sent, in_map_iff.
  unfold fetch_goroutine. split.
  - intros [(g & Hg & Hin) Hf]. split; [|exact Hf]. exists g. split; [exact Hin|].
    destruct (ImageDetails r (image_key g)) as [i|e]; [|discriminate].
    now injection Hg as ->.
  - intros [(g & Hin & Hg) Hf]. split; [|exact Hf]. exists g. now rewrite Hg.
Qed.

(** ** Counting the requests *)

Lemma sent_logged_length (es : list effect) :
  (length (sent es) + length (logged es))%nat = length es.
Proof.
  induction es as [|[img|line] es IH]; simpl; lia.
Qed.

Lemma fetch_images_count (s : schedule) (r : DockerRegistry) (repos : list string)
    (filters : list ImgFilter) :
  (length (fst (fetch_images s r repos filters))
   + length (snd (fetch_images s r repos filters))
   <= length (spawned s r repos))%nat.
Proof.
  rewrite (Permutation_length (fetch_images_returns s r repos filters)).
  rewrite (Permutation_length (fetch_images_logs s r repos filters)).
  pose proof (filter_length_le (passes filters)
                (sent (map (fetch_goroutine r) (spawned s r repos)))) as Hf.
  pose proof (sent_logged_length (map (fetch_goroutine r) (spawned s r repos))) as Hl.
  rewrite length_map in Hl. lia.
Qed.

(** A repository whose tag listing fails leaves no trace at all. *)
Lemma tag_failure_silent (s : schedule) (r : DockerRegistry) (currepo : string)
    (filters : list ImgFilter) (e : string) :
  Tags r currepo = Err e -> fetch_images s r [currepo] filters = ([], []).
Proof.
  intros He. unfold fetch_images, effects.
  rewrite spawned_single, He. cbn [map].
  now destruct (fetch_done s).
Qed.

(** The goroutines spawned depend on the schedule only through the order of
    [tagschan] and the reads of [currepotags]. *)
Lemma spawn_tags_ext (s s' : schedule) (cur : repotags) (later : list repotags)
    (ts : list string) :
  (forall k, read_lag s k = read_lag s' k) ->
  (forall k, log_lag s k = log_lag s' k) ->
  forall k : nat, spawn_tags s k cur later ts = spawn_tags s' k cur later ts.
Proof.
  intros Hr Hl. induction ts as [|tag ts IH]; intros k; simpl; [reflexivity|].
  now rewrite Hr, Hl, IH.
Qed.

Lemma spawn_fetches_ext (s s' : schedule) (tagschan : list repotags) :
  (forall k, read_lag s k = read_lag s' k) ->
  (forall k, log_lag s k = log_lag s' k) ->
  forall k : nat, spawn_fetches s k tagschan = spawn_fetches s' k tagschan.
Proof.
  intros Hr Hl. induction tagschan as [|rt later IH]; intros k; simpl; [reflexivity|].
  now rewrite IH, (spawn_tags_ext s s' rt later (tags rt) Hr Hl).
Qed.

Lemma spawned_ext (s s' : schedule) (r : DockerRegistry) (repos : list string) :
  tags_done s = tags_done s' ->
  (forall k, read_lag s k = read_lag s' k) ->
  (forall k, log_lag s k = log_lag s' k) ->
  spawned s r repos = spawned s' r repos.
Proof.
  intros Ht Hr Hl. unfold spawned. rewrite Ht. now apply spawn_fetches_ext.
Qed.

(** ** Runs against an unchanged registry *)

(** Punctual runs return the same images, in the same order up to ties. *)
Lemma punctual_runs_agree (s1 s2 : schedule) (r : DockerRegistry) (repos : list string)
    (filters : list ImgFilter) :
  punctual s1 -> punctual s2 ->
  same_up_to_ties (fst (fetch_images s1 r repos filters))
                  (fst (fetch_images s2 r repos filters)).
Proof.
  intros H1 H2.
  apply sorted_same_up_to_ties; try apply fetch_images_newest_first.
  rewrite !fetch_images_returns.
  apply sent_filter_Permutation, Permutation_map.
  now apply spawned_punctual.
Qed.

(** So do all runs on a single repository, which is how
    [fetch_images_older_than_n_latest] calls the pipeline. *)
Lemma single_repo_runs_agree (s1 s2 : schedule) (r : DockerRegistry) (currepo : string)
    (filters : list ImgFilter) :
  same_up_to_ties (fst (fetch_images s1 r [currepo] filters))
                  (fst (fetch_images s2 r [currepo] filters)).
Proof.
  apply sorted_same_up_to_ties; try apply fetch_images_newest_first.
  rewrite !fetch_images_returns, !spawned_single.
  apply Permutation_refl.
Qed.

(** Every sorted arrangement of the collected images is returned by some
    finishing order: the tie order is not determined. *)
Lemma every_tie_order_returned (s : schedule) (r : DockerRegistry) (repos : list string)
    (out : list DockerImage) :
  newest_first out ->
  Permutation out (fst (fetch_images s r repos [])) ->
  exists picks,
    fst (fetch_images {| tags_done := tags_done s; read_lag := read_lag s;
                         log_lag := log_lag s; fetch_done := picks |} r repos [])
    = out.
Proof.
  intros Hs Hp.
  rewrite fetch_images_returns in Hp. cbn [passes] in Hp.
  set (es := map (fetch_goroutine r) (spawned s r repos)) in *.
  assert (Hes : exists order, Permutation es order /\ sent order = out).
  { clear Hs. revert out Hp. induction es as [|[img|line] es IH]; intros out Hp.
    - simpl in Hp. apply Permutation_sym, Permutation_nil in Hp. now exists [].
    - simpl in Hp.
      assert (Hin : In img out)
        by (eapply Permutation_in; [apply Permutation_sym, Hp | now left]).
      apply in_split in Hin as (o1 & o2 & ->).
      apply Permutation_sym, Permutation_cons_app_inv, Permutation_sym in Hp.
      destruct (IH _ Hp) as (order & Ho & Hsent).
      assert (Hsplit : exists e1 e2, order = e1 ++ e2 /\ sent e1 = o1 /\ sent e2 = o2).
      { clear - Hsent. revert o1 Hsent.
        induction order as [|[i|l] order IHo]; intros o1 Hsent.
        - exists [], []. destruct o1; [auto | discriminate].
        - simpl in Hsent. destruct o1 as [|a o1].
          + exists [], (Sent i :: order). auto.
          + injection Hsent as -> Hsent.
            destruct (IHo _ Hsent) as (e1 & e2 & -> & <- & <-).
            now exists (Sent a :: e1), e2.
        - simpl in Hsent. destruct (IHo _ Hsent) as (e1 & e2 & -> & <- & <-).
          now exists (Logged l :: e1), e2. }
      destruct Hsplit as (e1 & e2 & -> & <- & <-).
      exists (e1 ++ Sent img :: e2). split; [now apply Permutation_cons_app|].
      clear. induction e1 as [|[i|l] e1 IHe]; simpl; congruence.
    - simpl in Hp. destruct (IH _ Hp) as (order & Ho & Hsent).
      exists (Logged line :: order). split; [now apply perm_skip | exact Hsent]. }
  destruct Hes as (order & Ho & Hsent).
  destruct (arrive_reaches order es Ho) as [picks Hpicks].
  exists picks. unfold fetch_images, effects. cbn [fst fetch_done].
  rewrite (spawned_ext _ s r repos) by reflexivity. fold es.
  rewrite Hpicks, Hsent, collect_filter. cbn [app passes].
  replace (filter (fun _ => true) out) with out
    by (clear; induction out; simpl; congruence).
  now apply sort_Sort_fixes_sorted.
Qed.

(** ** The goroutines, step by step *)

(** *** Every step keeps the invariant *)

Ltac count_live :=
  rewrite ?filter_app, ?length_app in *;
  cbn [filter tagger_live fetcher_live length] in *.

Ltac control_case :=
  repeat match goal with
         | H : exists _, _ |- _ => destruct H
         | H : _ /\ _ |- _ => destruct H
         | H : _ \/ _ |- _ => destruct H
         | H : forall todo, in_repos ?x <> in_repos todo |- _ =>
             exfalso; exact (H x eq_refl)
         | |- _ /\ _ => split
         end;
  try lia;
  try (intros; discriminate);
  try (intros [|]; discriminate);
  try (intros; congruence);
  try discriminate;
  try congruence;
  eauto.

Lemma control_step (r : DockerRegistry) (filters : list ImgFilter) (st st' : state) :
  control_ok st -> step r filters st st' -> control_ok st'.
Proof.
  intros (Htw & Hiw & Htc & Hic & Hp1 & Hp2) Hs.
  destruct Hs; unfold control_ok;
    cbn [pc tagwait imgwait taggers fetchers tagschan imgchan] in *;
    count_live;
    try destruct tc; try destruct ic; control_case.
Qed.

Lemma arrivals_step (r : DockerRegistry) (repos : list string) (filters : list ImgFilter)
    (st st' : state) :
  arrivals_ok r repos st -> step r filters st st' -> arrivals_ok r repos st'.
Proof.
  unfold arrivals_ok. intros H Hs.
  destruct Hs; cbn [pc arrived taggers repos_todo] in *;
    rewrite ?flat_map_app in *;
    cbn [flat_map tagger_future tag_discovery app] in *;
    rewrite ?app_nil_r in *;
    try exact H.
  - unfold tag_discovery in H. cbn [flat_map] in H.
    now rewrite <- app_assoc.
  - unfold tag_goroutine in H.
    match goal with E : Tags _ _ = _ |- _ => now rewrite E in H end.
  - unfold tag_goroutine in H.
    match goal with E : Tags _ _ = _ |- _ => now rewrite E in H end.
  - rewrite <- H, <- !app_assoc. apply Permutation_app_head. cbn [app].
    apply Permutation_middle.
Qed.

Lemma jobs_from_app (a : list repotags) (rt : repotags) :
  forall i : nat,
    jobs_from i (a ++ [rt]) = jobs_from i a ++ map (pair (i + length a)%nat) (tags rt).
Proof.
  induction a as [|x a IH]; intros i; cbn [jobs_from app length].
  - now rewrite Nat.add_0_r, app_nil_r.
  - rewrite IH, <- app_assoc.
    now replace (S i + length a)%nat with (i + S (length a))%nat by lia.
Qed.

Lemma jobs_from_bound (a : list repotags) :
  forall (i : nat) (job : nat * string),
    In job (jobs_from i a) -> (i <= fst job < i + length a)%nat.
Proof.
  induction a as [|x a IH]; intros i job Hin; [contradiction|].
  cbn [jobs_from length] in *. apply in_app_or in Hin as [Hin|Hin].
  - apply in_map_iff in Hin as (tag & <- & _). simpl. lia.
  - apply IH in Hin. lia.
Qed.

Lemma reads_grow (a b : list repotags) (i j : nat) (name : string) :
  reads a i name j -> reads (a ++ b) i name j.
Proof.
  intros (Hij & rt & Hj & Hn). split; [exact Hij|]. exists rt. split; [|exact Hn].
  rewrite nth_error_app1; [exact Hj|]. apply nth_error_Some. congruence.
Qed.

Lemma reads_latest (before : list repotags) (cur : repotags) (i : nat) :
  (i <= length before)%nat -> reads (before ++ [cur]) i (repo cur) (length before).
Proof.
  intros Hi. split; [exact Hi|]. exists cur. split; [|reflexivity].
  rewrite nth_error_app2 by lia. now rewrite Nat.sub_diag.
Qed.

Lemma reads_bound (a : list repotags) (i j : nat) (name : string) :
  reads a i name j -> (j < length a)%nat.
Proof.
  intros (_ & rt & Hj & _). apply nth_error_Some. congruence.
Qed.

Lemma job_ok_grow (r : DockerRegistry) (a b : list repotags) (job : nat * string)
    (f : fetcher) :
  job_ok r a job f -> job_ok r (a ++ b) job f.
Proof.
  destruct f as [t|seen t img|seen t e|g]; cbn [job_ok]; unfold exited_ok.
  - auto.
  - intros (Ht & (j & Hj) & Hd). repeat split; try assumption.
    exists j. now apply reads_grow.
  - intros (Ht & (j & Hj) & Hd). repeat split; try assumption.
    exists j. now apply reads_grow.
  - intros (Ht & j & j' & Hj & Hj'). split; [exact Ht|].
    exists j, j'. split; now apply reads_grow.
Qed.

(** One goroutine of the pool moves on. *)
Lemma Forall2_move {A B : Type} (P : A -> B -> Prop) (xs : list A) (l1 l2 : list B)
    (f f' : B) :
  Forall2 P xs (l1 ++ f :: l2) ->
  (forall x, In x xs -> P x f -> P x f') ->
  Forall2 P xs (l1 ++ f' :: l2).
Proof.
  intros H Hf. apply Forall2_app_inv_r in H as (xs1 & xs2 & H1 & H2 & ->).
  inversion H2 as [|x f0 xs2' l2' Hx H2']; subst.
  apply Forall2_app; [exact H1|]. constructor; [|exact H2'].
  apply Hf; [|exact Hx]. apply in_or_app. right. now left.
Qed.

Lemma jobs_step (r : DockerRegistry) (filters : list ImgFilter) (st st' : state) :
  jobs_ok r st -> step r filters st st' -> jobs_ok r st'.
Proof.
  unfold jobs_ok. intros (started & Hf & Hj) Hs.
  assert (Hb : forall job, In job started ->
                 (fst job < length (arrived st))%nat).
  { intros job Hin.
    assert (Hin' : In job (jobs_from 0 (arrived st)))
      by (rewrite <- Hj; apply in_or_app; now left).
    apply jobs_from_bound in Hin'. lia. }
  destruct Hs; cbn [pc arrived fetchers jobs_pending] in *;
    try (exists started; split; [exact Hf | exact Hj]).
  - (* a tag list arrives *)
    exists started. split.
    + eapply Forall2_impl; [|exact Hf]. intros job f. apply job_ok_grow.
    + rewrite jobs_from_app, <- Hj, app_nil_r, length_app. cbn [length].
      now replace (length a + 1 - 1)%nat with (0 + length a)%nat by lia.
  - (* a metadata goroutine is spawned *)
    exists (started ++ [((length a - 1)%nat, tag)]). split.
    + apply Forall2_app; [exact Hf|]. now repeat constructor.
    + now rewrite <- app_assoc.
  - (* ImageDetails succeeds *)
    exists started. split; [|exact Hj].
    eapply Forall2_move; [exact Hf|]. intros job Hin Hjob. cbn [job_ok] in *.
    split; [exact Hjob|]. split; [|assumption].
    exists (length before). apply reads_latest.
    specialize (Hb job Hin). rewrite length_app in Hb. cbn [length] in Hb. lia.
  - (* ImageDetails fails *)
    exists started. split; [|exact Hj].
    eapply Forall2_move; [exact Hf|]. intros job Hin Hjob. cbn [job_ok] in *.
    split; [exact Hjob|]. split; [|assumption].
    exists (length before). apply reads_latest.
    specialize (Hb job Hin). rewrite length_app in Hb. cbn [length] in Hb. lia.
  - (* the failure is logged *)
    exists started. split; [|exact Hj].
    eapply Forall2_move; [exact Hf|]. intros job Hin Hjob. cbn [job_ok] in *.
    destruct Hjob as (Ht & (j & Hr) & _). subst g. unfold exited_ok. cbn. split; [exact Ht|].
    exists j, (length before). split; [exact Hr|].
    apply reads_latest. apply reads_bound in Hr.
    rewrite length_app in Hr. cbn [length] in Hr. lia.
  - (* the image is received *)
    exists started. split; [|exact Hj].
    eapply Forall2_move; [exact Hf|]. intros job Hin Hjob. cbn [job_ok] in *.
    destruct Hjob as (Ht & (j & Hr) & _). subst g. unfold exited_ok. cbn. split; [exact Ht|].
    exists j, j. split; [exact Hr|].
    destruct Hr as (_ & Hrt). split; [lia | exact Hrt].
Qed.

Lemma sent_app (l1 l2 : list effect) : sent (l1 ++ l2) = sent l1 ++ sent l2.
Proof.
  induction l1 as [|[img|line] l1 IH]; simpl; congruence.
Qed.

Lemma logged_app (l1 l2 : list effect) : logged (l1 ++ l2) = logged l1 ++ logged l2.
Proof.
  induction l1 as [|[img|line] l1 IH]; simpl; congruence.
Qed.

Lemma Forall2_at {A B : Type} (P : A -> B -> Prop) (xs : list A) (l1 l2 : list B) (f : B) :
  Forall2 P xs (l1 ++ f :: l2) -> exists x, P x f.
Proof.
  intros H. apply Forall2_app_inv_r in H as (xs1 & xs2 & _ & H2 & _).
  inversion H2; subst; eauto.
Qed.

Lemma effects_step (r : DockerRegistry) (filters : list ImgFilter) (st st' : state) :
  jobs_ok r st -> effects_ok r filters st -> step r filters st st' ->
  effects_ok r filters st'.
Proof.
  unfold effects_ok, exited_effects. intros (started & Hf & _) (Hi & Hl & Hr) Hs.
  destruct Hs; cbn [pc arrived fetchers imgs log] in *;
    rewrite ?flat_map_app in *; cbn [flat_map fetcher_effect app] in *;
    rewrite ?app_nil_r in *;
    try (split; [exact Hi | split; [exact Hl | first [exact Hr | discriminate]]]).
  - (* the failure is logged *)
    apply Forall2_at in Hf as (job & _ & _ & He).
    assert (Hg : fetch_goroutine r g = Logged (log_line g e))
      by (subst g; unfold fetch_goroutine, image_key; cbn [seen_repo own_tag]; now rewrite He).
    rewrite Hg, !sent_app, !logged_app in *. cbn [sent logged] in *.
    split; [exact Hi|]. split; [|exact Hr].
    rewrite <- Permutation_cons_append, Hl. apply Permutation_middle.
  - (* the image is received *)
    apply Forall2_at in Hf as (job & _ & _ & He).
    assert (Hg : fetch_goroutine r g = Sent img)
      by (subst g; unfold fetch_goroutine, image_key; cbn [seen_repo own_tag]; now rewrite He).
    rewrite Hg, !sent_app, !logged_app in *. cbn [sent logged] in *.
    split; [|split; [exact Hl | discriminate]].
    rewrite !filter_app in *. cbn [filter collect].
    destruct (passes filters img); [|exact Hi].
    rewrite <- Permutation_cons_append, Hi. apply Permutation_middle.
  - (* the slice is sorted *)
    split; [now rewrite <- Hi|]. split; [exact Hl|].
    intros _. now apply ordered_by_Less_newest_first.
Qed.

Lemma invariant_initial (r : DockerRegistry) (repos : list string)
    (filters : list ImgFilter) :
  invariant r repos filters (initial repos).
Proof.
  unfold invariant, control_ok, arrivals_ok, jobs_ok, effects_ok, initial. cbn.
  repeat split; try discriminate; eauto.
  all: try (intros [|]; discriminate).
  all: try (now rewrite app_nil_r).
  all: try (exists []; split; [constructor | reflexivity]).
Qed.

Lemma invariant_step (r : DockerRegistry) (repos : list string) (filters : list ImgFilter)
    (st st' : state) :
  invariant r repos filters st -> step r filters st st' -> invariant r repos filters st'.
Proof.
  intros (Hc & Ha & Hj & He) Hs. split; [|split; [|split]].
  - eapply control_step; eassumption.
  - eapply arrivals_step; eassumption.
  - eapply jobs_step; eassumption.
  - eapply effects_step; eassumption.
Qed.

Lemma invariant_kept (r : DockerRegistry) (repos : list string)
    (filters : list ImgFilter) (st st' : state) :
  reaches r filters st st' -> invariant r repos filters st -> invariant r repos filters st'.
Proof.
  induction 1 as [st|st st1 st' Hs _ IH]; intros Hi; [exact Hi|].
  apply IH. eapply invariant_step; eassumption.
Qed.

Lemma invariant_reaches (r : DockerRegistry) (repos : list string)
    (filters : list ImgFilter) (st : state) :
  reaches r filters (initial repos) st -> invariant r repos filters st.
Proof.
  intros H. eapply invariant_kept; [exact H | apply invariant_initial].
Qed.

(** *** From a finished run to a schedule *)

(** The order in which the tag goroutines reached [tagschan]. *)
Lemma tags_done_exists (r : DockerRegistry) (a : list repotags) :
  forall repos : list string,
    Permutation a (tag_discovery r repos) ->
    exists picks, tag_discovery r (arrive picks repos) = a.
Proof.
  assert (H : forall repos, Permutation a (tag_discovery r repos) ->
                exists order, Permutation repos order /\ tag_discovery r order = a).
  { induction a as [|rt a IH]; intros repos Hp.
    - exists repos. split; [apply Permutation_refl|].
      now apply Permutation_nil in Hp.
    - assert (Hin : In rt (tag_discovery r repos))
        by (eapply Permutation_in; [exact Hp | now left]).
      unfold tag_discovery in Hin. apply in_flat_map in Hin as (currepo & Hin & Hrt).
      apply in_split in Hin as (l1 & l2 & ->).
      assert (Hg : tag_goroutine r currepo = [rt]).
      { unfold tag_goroutine in *. destruct (Tags r currepo); [|contradiction].
        destruct Hrt as [<-|[]]. reflexivity. }
      unfold tag_discovery in Hp. rewrite flat_map_app in Hp. cbn [flat_map] in Hp.
      rewrite Hg in Hp. cbn [app] in Hp.
      apply Permutation_cons_app_inv in Hp. rewrite <- flat_map_app in Hp.
      destruct (IH _ Hp) as (order & Ho & Hd).
      exists (currepo :: order). split.
      + rewrite <- Ho. apply Permutation_sym, Permutation_middle.
      + unfold tag_discovery in *. cbn [flat_map]. now rewrite Hg, Hd. }
  intros repos Hp. destruct (H repos Hp) as (order & Ho & Hd).
  destruct (arrive_reaches order repos Ho) as [picks Hpicks].
  exists picks. now rewrite Hpicks.
Qed.

Lemma late_read_reads (before later : list repotags) (cur : repotags) (i j : nat)
    (name : string) :
  length before = i ->
  reads (before ++ cur :: later) i name j ->
  repo (late_read (j - i) cur later) = name.
Proof.
  intros Hi (Hij & rt & Hj & Hn). unfold late_read.
  rewrite nth_error_app2 in Hj by lia. rewrite Hi in Hj.
  now rewrite (nth_error_nth _ _ _ Hj).
Qed.

(** The reads of the goroutines of one tag list. *)
Lemma spawn_tags_lags (before later : list repotags) (cur : repotags) (ts : list string) :
  forall (k : nat) (gs : list goroutine),
    Forall2 (exited_ok (before ++ cur :: later)) (map (pair (length before)) ts) gs ->
    exists rl ll : nat -> nat,
      forall s,
        (forall m, (k <= m < k + length ts)%nat ->
                   read_lag s m = rl m /\ log_lag s m = ll m) ->
        spawn_tags s k cur later ts = gs.
Proof.
  induction ts as [|tag ts IH]; intros k gs H; cbn [map] in H.
  - inversion H; subst. now exists (fun _ => O), (fun _ => O).
  - inversion H as [|job g jobs gs' Hg H']; subst.
    destruct (IH (S k) gs' H') as (rl & ll & Hrest).
    destruct Hg as (Ht & j & j' & Hj & Hj'). cbn [fst snd] in *.
    exists (fun m => if Nat.eqb m k then (j - length before)%nat else rl m),
           (fun m => if Nat.eqb m k then (j' - j)%nat else ll m).
    intros s Hs. cbn [spawn_tags length] in *. f_equal.
    + destruct (Hs k ltac:(lia)) as [-> ->]. rewrite Nat.eqb_refl.
      assert (Hij : (length before <= j)%nat) by apply Hj.
      assert (Hjj : (j <= j')%nat) by apply Hj'.
      replace (j - length before + (j' - j))%nat with (j' - length before)%nat by lia.
      rewrite (late_read_reads before later cur (length before) j (seen_repo g)
                 eq_refl Hj).
      rewrite (late_read_reads before later cur (length before) j' (logged_repo g)
                 eq_refl).
      * destruct g; cbn in *. now subst.
      * destruct Hj' as (_ & Hrt). split; [lia | exact Hrt].
    + apply Hrest. intros m Hm. destruct (Hs m ltac:(lia)) as [-> ->].
      now replace (Nat.eqb m k) with false by (symmetry; apply Nat.eqb_neq; lia).
Qed.

(** The reads of all metadata goroutines. *)
Lemma spawn_fetches_lags (tagschan : list repotags) :
  forall (before : list repotags) (k : nat) (gs : list goroutine),
    Forall2 (exited_ok (before ++ tagschan)) (jobs_from (length before) tagschan) gs ->
    exists rl ll : nat -> nat,
      forall s,
        (forall m, (k <= m < k + length gs)%nat ->
                   read_lag s m = rl m /\ log_lag s m = ll m) ->
        spawn_fetches s k tagschan = gs.
Proof.
  induction tagschan as [|cur later IH]; intros before k gs H; cbn [jobs_from] in H.
  - inversion H; subst. now exists (fun _ => O), (fun _ => O).
  - apply Forall2_app_inv_l in H as (gs1 & gs2 & H1 & H2 & ->).
    assert (Hlen : length gs1 = length (tags cur))
      by (apply Forall2_length in H1; now rewrite length_map in H1).
    destruct (spawn_tags_lags before later cur (tags cur) k gs1 H1)
      as (rl1 & ll1 & Hs1).
    specialize (IH (before ++ [cur]) (k + length (tags cur))%nat gs2).
    rewrite <- app_assoc, length_app in IH. cbn [app length] in IH.
    replace (length before + 1)%nat with (S (length before)) in IH by lia.
    destruct (IH H2) as (rl2 & ll2 & Hs2).
    exists (fun m => if Nat.ltb m (k + length (tags cur)) then rl1 m else rl2 m),
           (fun m => if Nat.ltb m (k + length (tags cur)) then ll1 m else ll2 m).
    intros s Hs. rewrite length_app, Hlen in Hs. cbn [spawn_fetches]. f_equal.
    + apply Hs1. intros m Hm. destruct (Hs m ltac:(lia)) as [-> ->].
      now replace (Nat.ltb m (k + length (tags cur))) with true
        by (symmetry; apply Nat.ltb_lt; lia).
    + apply Hs2. intros m Hm. destruct (Hs m ltac:(lia)) as [-> ->].
      now replace (Nat.ltb m (k + length (tags cur))) with false
        by (symmetry; apply Nat.ltb_ge; lia).
Qed.

(** The order in which the metadata goroutines finished. *)
Lemma effects_split (es : list effect) :
  Permutation es (map Logged (logged es) ++ map Sent (sent es)).
Proof.
  induction es as [|[img|line] es IH]; cbn [logged sent map app].
  - apply Permutation_refl.
  - rewrite IH at 1. apply Permutation_middle.
  - now apply perm_skip.
Qed.

Lemma filter_split {A : Type} (p : A -> bool) (l : list A) :
  Permutation l (filter p l ++ filter (fun x => negb (p x)) l).
Proof.
  induction l as [|x l IH]; cbn [filter app]; [apply Permutation_refl|].
  destruct (p x); cbn [negb app].
  - now apply perm_skip.
  - rewrite IH at 1. apply Permutation_middle.
Qed.

Lemma sent_map_Sent (l : list DockerImage) : sent (map Sent l) = l.
Proof. induction l; simpl; congruence. Qed.

Lemma sent_map_Logged (l : list string) : sent (map Logged l) = [].
Proof. induction l; simpl; congruence. Qed.

Lemma logged_map_Sent (l : list DockerImage) : logged (map Sent l) = [].
Proof. induction l; simpl; congruence. Qed.

Lemma logged_map_Logged (l : list string) : logged (map Logged l) = l.
Proof. induction l; simpl; congruence. Qed.

Lemma fetch_done_exists (filters : list ImgFilter) (es : list effect)
    (im : list DockerImage) (lg : list string) :
  Permutation im (filter (passes filters) (sent es)) ->
  Permutation lg (logged es) ->
  exists picks,
    collect filters (sent (arrive picks es)) [] = im
    /\ logged (arrive picks es) = lg.
Proof.
  intros Hi Hl.
  set (rejected := filter (fun img => negb (passes filters img)) (sent es)).
  set (order := map Logged lg ++ map Sent im ++ map Sent rejected).
  assert (Ho : Permutation es order).
  { rewrite (effects_split es) at 1. unfold order.
    apply Permutation_app; [now apply Permutation_map, Permutation_sym|].
    rewrite <- map_app. apply Permutation_map.
    rewrite (filter_split (passes filters) (sent es)) at 1.
    apply Permutation_app_tail, Permutation_sym, Hi. }
  destruct (arrive_reaches order es Ho) as [picks Hp].
  exists picks. rewrite Hp. unfold order.
  rewrite !sent_app, !logged_app, !sent_map_Sent, sent_map_Logged,
    !logged_map_Sent, logged_map_Logged, !app_nil_r, collect_filter.
  cbn [app]. split; [|reflexivity].
  rewrite filter_app.
  assert (Hall : forall l, Forall (fun img => passes filters img = true) l ->
                           filter (passes filters) l = l).
  { induction 1 as [|x l Hx _ IH]; cbn [filter]; [reflexivity|].
    now rewrite Hx, IH. }
  assert (Hnone : forall l, Forall (fun img => passes filters img = false) l ->
                            filter (passes filters) l = []).
  { induction 1 as [|x l Hx _ IH]; cbn [filter]; [reflexivity|].
    now rewrite Hx, IH. }
  rewrite Hall, Hnone; [apply app_nil_r | |].
  - apply Forall_forall. intros img Hin. unfold rejected in Hin.
    apply filter_In in Hin as [_ Hin]. now apply negb_true_iff.
  - apply Forall_forall. intros img Hin.
    apply (Permutation_in _ Hi) in Hin. now apply filter_In in Hin.
Qed.

Lemma all_taggers_exited (r : DockerRegistry) (ts : list tagger) :
  length (filter tagger_live ts) = O -> flat_map (tagger_future r) ts = [].
Proof.
  induction ts as [|[currepo|rt|] ts IH]; cbn; try discriminate; auto.
Qed.

Lemma all_fetchers_exited (fs : list fetcher) :
  length (filter fetcher_live fs) = O -> exists gs, fs = map fetcher_exited gs.
Proof.
  induction fs as [|[t|seen t img|seen t e|g] fs IH]; cbn; try discriminate.
  - now exists [].
  - intros H. destruct (IH H) as [gs ->]. now exists (g :: gs).
Qed.

Lemma exited_effects_map (r : DockerRegistry) (gs : list goroutine) :
  exited_effects r (map fetcher_exited gs) = map (fetch_goroutine r) gs.
Proof.
  unfold exited_effects. induction gs as [|g gs IH]; cbn; congruence.
Qed.

Lemma Forall2_exited (r : DockerRegistry) (a : list repotags) (jobs : list (nat * string))
    (gs : list goroutine) :
  Forall2 (job_ok r a) jobs (map fetcher_exited gs) -> Forall2 (exited_ok a) jobs gs.
Proof.
  revert jobs. induction gs as [|g gs IH]; intros jobs H; inversion H; subst;
    constructor; auto.
Qed.

(** Every run of the goroutines returns what [fetch_images] returns under
    some schedule. *)
Theorem runs_follow_a_schedule (r : DockerRegistry) (repos : list string)
    (filters : list ImgFilter) (res : list DockerImage * list string) :
  runs_to r repos filters res -> exists s, fetch_images s r repos filters = res.
Proof.
  intros (st & Hreach & Hpc & ->).
  destruct (invariant_reaches r repos filters st Hreach)
    as ((Htw & Hiw & Htc & Hic & Hp1 & Hp2) & Ha & (started & Hf & Hj) & (Hi & Hl & Hr)).
  rewrite (Hp2 Hpc) in Hic. destruct Hic as [_ Hic].
  rewrite (Hp1 (or_intror Hpc)) in Htc. destruct Htc as [_ Htc].
  rewrite Htw in Htc. rewrite Hiw in Hic.
  unfold arrivals_ok in Ha.
  rewrite (all_taggers_exited r _ Htc), Hpc in Ha. cbn in Ha. rewrite app_nil_r in Ha.
  destruct (all_fetchers_exited _ Hic) as [gs Hgs].
  rewrite Hgs in Hf, Hi, Hl. rewrite exited_effects_map in Hi, Hl.
  rewrite Hpc in Hj. cbn [jobs_pending] in Hj. rewrite app_nil_r in Hj. subst started.
  apply Forall2_exited in Hf.
  destruct (tags_done_exists r (arrived st) repos Ha) as [picks1 Hp].
  destruct (spawn_fetches_lags (arrived st) [] 0 gs Hf) as (rl & ll & Hs).
  destruct (fetch_done_exists filters (map (fetch_goroutine r) gs)
              (imgs st) (log st) Hi Hl) as (picks2 & Hc & Hlog).
  exists {| tags_done := picks1; read_lag := rl; log_lag := ll; fetch_done := picks2 |}.
  unfold fetch_images, effects, spawned. cbn [tags_done fetch_done].
  rewrite Hp, Hs by (intros; split; reflexivity).
  rewrite Hc, Hlog. f_equal.
  apply sort_Sort_fixes_sorted, Hr, Hpc.
Qed.

(** *** The run cannot get stuck and cannot go on for ever *)

Lemma step_decreases (r : DockerRegistry) (filters : list ImgFilter) (st st' : state) :
  step r filters st st' -> (steps_left r st' < steps_left r st)%nat.
Proof.
  intros Hs. destruct Hs; unfold steps_left;
    cbn [pc taggers fetchers tagschan imgchan pc_weight closer_weight];
    rewrite ?map_app, ?list_sum_app;
    unfold list_sum;
    cbn [map fold_right tagger_weight fetcher_weight length tags];
    try match goal with
        | H : Tags _ _ = _ |- _ => rewrite H
        end;
    unfold receive_weight; try lia.
Qed.

Lemma steps_well_founded (r : DockerRegistry) (filters : list ImgFilter) :
  well_founded (fun st' st => step r filters st st').
Proof.
  apply (well_founded_lt_compat _ (steps_left r)).
  intros st' st. apply step_decreases.
Qed.

Lemma tagger_choice (ts : list tagger) :
  (exists ts1 rt ts2, ts = ts1 ++ tagger_sends rt :: ts2)
  \/ (exists ts1 currepo ts2, ts = ts1 ++ tagger_calls currepo :: ts2)
  \/ length (filter tagger_live ts) = O.
Proof.
  induction ts as [|t ts IH].
  - now right; right.
  - destruct t as [currepo|rt|].
    + right; left. now exists [], currepo, ts.
    + left. now exists [], rt, ts.
    + destruct IH as [(ts1 & rt & ts2 & ->)|[(ts1 & currepo & ts2 & ->)|H]].
      * left. now exists (tagger_exited :: ts1), rt, ts2.
      * right; left. now exists (tagger_exited :: ts1), currepo, ts2.
      * now right; right.
Qed.

Lemma fetcher_choice (fs : list fetcher) :
  (exists fs1 f fs2, fs = fs1 ++ f :: fs2 /\ fetcher_live f = true)
  \/ length (filter fetcher_live fs) = O.
Proof.
  induction fs as [|f fs IH].
  - now right.
  - destruct (fetcher_live f) eqn:E.
    + left. now exists [], f, fs.
    + destruct IH as [(fs1 & f' & fs2 & -> & H)|H].
      * left. now exists (f :: fs1), f', fs2.
      * right. cbn [filter]. now rewrite E.
Qed.

Lemma live_in_the_middle {A : Type} (live : A -> bool) (l1 l2 : list A) (x : A) :
  live x = true ->
  length (filter live (l1 ++ x :: l2))
  = S (length (filter live l1) + length (filter live l2)).
Proof.
  intros H. rewrite filter_app, length_app. cbn [filter]. rewrite H. cbn [length]. lia.
Qed.

Lemma jobs_need_arrivals (r : DockerRegistry) (st : state) :
  jobs_ok r st -> fetchers st <> [] ->
  exists before cur, arrived st = before ++ [cur].
Proof.
  intros (started & Hf & Hj) Hne.
  destruct (arrived st) as [|rt a] eqn:E.
  - cbn in Hj. apply app_eq_nil in Hj as [-> _]. inversion Hf. congruence.
  - destruct (exists_last (l := rt :: a)) as (before & cur & ->); [discriminate|].
    now exists before, cur.
Qed.

(** A run that has not returned can take a step. *)
Lemma progress (r : DockerRegistry) (repos : list string) (filters : list ImgFilter)
    (st : state) :
  invariant r repos filters st -> pc st <> returned ->
  exists st', step r filters st st'.
Proof.
  intros ((Htw & Hiw & Htc & Hic & _ & _) & _ & Hj & _) Hpc.
  pose proof (jobs_need_arrivals r st Hj) as Harr.
  destruct st as [p a tw iw ts fs tc ic im lg].
  cbn [pc tagwait imgwait taggers fetchers tagschan imgchan arrived] in *.
  destruct p as [[|currepo todo]| |[|tag todo]| |].
  - (* the repositories are all dispatched *)
    destruct tc; [eexists; constructor | |];
      [exfalso; exact (Htc [] eq_refl) | exfalso; exact (proj1 Htc [] eq_refl)].
  - eexists. constructor.
  - (* waiting on tagschan *)
    destruct (tagger_choice ts) as [(ts1 & rt & ts2 & ->)|[(ts1 & currepo & ts2 & ->)|H]].
    + rewrite (live_in_the_middle tagger_live) in Htw by reflexivity. subst tw.
      eexists. apply step_receive_tags.
    + rewrite (live_in_the_middle tagger_live) in Htw by reflexivity. subst tw.
      destruct (Tags r currepo) as [curtags|e] eqn:E; eexists.
      * apply step_Tags_ok. exact E.
      * eapply step_Tags_err. exact E.
    + rewrite H in Htw. subst tw. destruct tc.
      * destruct Htc as [todo Htc]. discriminate Htc.
      * eexists. apply step_close_tagschan.
      * destruct ic; [eexists; apply step_go_imgs_closer | discriminate Hic |].
        destruct Hic as [[Hic|Hic] _]; discriminate Hic.
  - eexists. apply step_next_tags.
  - eexists. apply step_go_fetcher.
  - (* waiting on imgchan *)
    destruct (fetcher_choice fs) as [(fs1 & f & fs2 & -> & Hlive)|H].
    + rewrite (live_in_the_middle fetcher_live) in Hiw by exact Hlive. subst iw.
      destruct Harr as (before & cur & ->); [now destruct fs1|].
      destruct f as [tag|seen tag img|seen tag e|g]; [| | |discriminate Hlive].
      * destruct (ImageDetails r (repo cur ++ ":" ++ tag)) as [img|e] eqn:E; eexists.
        -- apply step_ImageDetails_ok. exact E.
        -- eapply step_ImageDetails_err. exact E.
      * eexists. apply step_collect.
      * eexists. apply step_log.
    + rewrite H in Hiw. subst iw. destruct ic.
      * now destruct Hic.
      * eexists. apply step_close_imgchan.
      * eexists. apply (step_return r filters a tw 0 ts fs tc im (sort_Sort im) lg).
        -- apply sort_Sort_Permutation.
        -- apply newest_first_ordered_by_Less, sort_Sort_newest_first.
  - now contradiction Hpc.
Qed.

Lemma reaches_then_step (r : DockerRegistry) (filters : list ImgFilter)
    (st st1 st' : state) :
  reaches r filters st st1 -> step r filters st1 st' -> reaches r filters st st'.
Proof.
  induction 1 as [st|st st0 st1 Hs _ IH]; intros Hlast.
  - eapply reaches_step; [exact Hlast | apply reaches_here].
  - eapply reaches_step; [exact Hs | now apply IH].
Qed.

(** From every state of a run the call goes on to return. *)
Theorem run_returns (r : DockerRegistry) (repos : list string) (filters : list ImgFilter)
    (st : state) :
  reaches r filters (initial repos) st ->
  exists st', reaches r filters st st' /\ pc st' = returned.
Proof.
  induction (steps_well_founded r filters st) as [st _ IH]. intros Hreach.
  destruct (pc st) eqn:Hpc;
    try (destruct (progress r repos filters st (invariant_reaches _ _ _ _ Hreach))
           as [st1 Hs]; [congruence|];
         destruct (IH st1 Hs (reaches_then_step _ _ _ _ _ Hreach Hs))
           as (st' & Hr & Hret);
         exists st'; split; [eapply reaches_step; eassumption | exact Hret]).
  exists st. split; [constructor | exact Hpc].
Qed.

(** Once the call has returned nothing moves any more. *)
Lemma returned_is_final (r : DockerRegistry) (repos : list string)
    (filters : list ImgFilter) (st st' : state) :
  reaches r filters (initial repos) st -> pc st = returned ->
  ~ step r filters st st'.
Proof.
  intros Hreach Hpc Hs.
  destruct (invariant_reaches r repos filters st Hreach)
    as ((Htw & Hiw & Htc & Hic & Hp1 & Hp2) & _).
  pose proof (Hp2 Hpc) as Hc2. pose proof (Hp1 (or_intror Hpc)) as Hc1.
  rewrite Hc2 in Hic. destruct Hic as [_ Hic].
  rewrite Hc1 in Htc. destruct Htc as [_ Htc].
  rewrite Htw in Htc. rewrite Hiw in Hic.
  destruct Hs; cbn [pc taggers fetchers tagschan imgchan] in *; try discriminate;
    rewrite ?filter_app, ?length_app in *;
    cbn [filter tagger_live fetcher_live length] in *; lia.
Qed.

Theorem fetch_images_runs (r : DockerRegistry) (repos : list string)
    (filters : list ImgFilter) :
  exists res, runs_to r repos filters res.
Proof.
  destruct (run_returns r repos filters (initial repos)) as (st & Hr & Hpc);
    [constructor|].
  exists (imgs st, log st), st. auto.
Qed.

Lemma older_loop_ext (ss ss' : nat -> schedule) (r : DockerRegistry)
    (filters : list ImgFilter) (n : Z) (repos : list string) :
  forall (i : nat) (allimgs : list DockerImage) (log : list string),
    (forall k, (i <= k)%nat -> ss k = ss' k) ->
    older_loop ss i r repos filters n allimgs log
    = older_loop ss' i r repos filters n allimgs log.
Proof.
  induction repos as [|currepo rest IH]; intros i allimgs log Hss; [reflexivity|].
  cbn [older_loop]. rewrite <- (Hss i (Nat.le_refl i)).
  destruct (fetch_images (ss i) r [currepo] filters) as [repoimgs lines].
  destruct (Z.of_nat (length repoimgs) >? n).
  - destruct (slice_from repoimgs n); [|reflexivity].
    apply IH. intros k Hk. apply Hss. lia.
  - apply IH. intros k Hk. apply Hss. lia.
Qed.

(** Every run of the loop is the loop under some schedules. *)
Lemma older_run_follows_schedules (r : DockerRegistry) (filters : list ImgFilter) (n : Z)
    (repos : list string) (allimgs : list DockerImage) (log : list string)
    (o : outcome (list DockerImage * list string)) :
  older_run r filters n repos allimgs log o ->
  forall i : nat, exists ss, older_loop ss i r repos filters n allimgs log = o.
Proof.
  induction 1 as [allimgs log
                 |currepo rest allimgs log repoimgs lines tail o Hrun Hg Hsl _ IH
                 |currepo rest allimgs log repoimgs lines Hrun Hg Hsl
                 |currepo rest allimgs log repoimgs lines o Hrun Hg _ IH];
    intros i.
  - now exists (fun _ => in_order).
  - destruct (runs_follow_a_schedule _ _ _ _ Hrun) as [s Hs].
    destruct (IH (S i)) as [ss Hss].
    exists (fun k => if Nat.eqb k i then s else ss k).
    cbn [older_loop]. rewrite Nat.eqb_refl, Hs, Hg, Hsl, <- Hss.
    apply older_loop_ext. intros k Hk.
    now replace (Nat.eqb k i) with false by (symmetry; apply Nat.eqb_neq; lia).
  - destruct (runs_follow_a_schedule _ _ _ _ Hrun) as [s Hs].
    exists (fun _ => s). cbn [older_loop]. now rewrite Hs, Hg, Hsl.
  - destruct (runs_follow_a_schedule _ _ _ _ Hrun) as [s Hs].
    destruct (IH (S i)) as [ss Hss].
    exists (fun k => if Nat.eqb k i then s else ss k).
    cbn [older_loop]. rewrite Nat.eqb_refl, Hs, Hg, <- Hss.
    apply older_loop_ext. intros k Hk.
    now replace (Nat.eqb k i) with false by (symmetry; apply Nat.eqb_neq; lia).
Qed.

(** The loop always ends, in a result or in a panic. *)
Lemma older_run_ends (r : DockerRegistry) (filters : list ImgFilter) (n : Z)
    (repos : list string) :
  forall (allimgs : list DockerImage) (log : list string),
    exists o, older_run r filters n repos allimgs log o.
Proof.
  induction repos as [|currepo rest IH]; intros allimgs log.
  - eexists. constructor.
  - destruct (fetch_images_runs r [currepo] filters) as [[repoimgs lines] Hrun].
    destruct (Z.of_nat (length repoimgs) >? n) eqn:Hg.
    + destruct (slice_from repoimgs n) as [tail|] eqn:Hsl.
      * destruct (IH (allimgs ++ tail) (log ++ lines)) as [o Ho].
        exists o. eapply older_run_append; eassumption.
      * eexists. eapply older_run_panic; eassumption.
    + destruct (IH allimgs (log ++ lines)) as [o Ho].
      exists o. eapply older_run_skip; eassumption.
Qed.

(** *** Runs, step by step *)

Ltac run_main rule := eapply reaches_step; [apply rule|]; cbn [tags].
Ltac run_Tags n :=
  eapply reaches_step;
  [first [eapply step_Tags_ok with (ts1 := n); reflexivity
         | eapply step_Tags_err with (ts1 := n); reflexivity]|];
  cbn [app].
Ltac run_receive n :=
  eapply reaches_step; [eapply step_receive_tags with (ts1 := n)|]; cbn [app tags].
Ltac run_ImageDetails b n :=
  eapply reaches_step;
  [first [eapply step_ImageDetails_ok with (before := b) (fs1 := n); reflexivity
         | eapply step_ImageDetails_err with (before := b) (fs1 := n); reflexivity]|];
  cbn [app repo].
Ltac run_log b n :=
  eapply reaches_step; [eapply step_log with (before := b) (fs1 := n)|];
  cbn [app repo log_line logged_repo own_tag].
Ltac run_return :=
  eapply reaches_step;
  [eapply step_return with (sorted := sort_Sort _);
   [apply sort_Sort_Permutation
   | apply newest_first_ordered_by_Less, sort_Sort_newest_first]|].
Ltac run_collect n :=
  eapply reaches_step; [eapply step_collect with (fs1 := n)|];
  cbn [app collect passes].

Lemma two_repos_run_in_order :
  runs_to two_repos ["back"; "front"] []
    ([image "front" "stable" 200; image "back" "nightly" 100], []).
Proof.
  eexists. split; [|split].
  - unfold initial.
    do 2 run_main step_go_tagger. run_main step_go_tags_closer.
    run_Tags (@nil tagger).
    run_Tags [tagger_sends {| repo := "back"; tags := ["nightly"] |}].
    run_receive (@nil tagger).
    run_main step_go_fetcher.
    run_ImageDetails (@nil repotags) (@nil fetcher).
    run_main step_next_tags.
    run_receive [tagger_exited].
    run_main step_go_fetcher.
    run_ImageDetails [ {| repo := "back"; tags := ["nightly"] |} ]
      [fetcher_sends "back" "nightly" (image "back" "nightly" 100)].
    run_main step_next_tags.
    run_main step_close_tagschan. run_main step_go_imgs_closer.
    run_collect (@nil fetcher).
    run_collect [fetcher_exited {| seen_repo := "back"; logged_repo := "back";
                                     own_tag := "nightly" |}].
    run_main step_close_imgchan. run_return.
    apply reaches_here.
  - reflexivity.
  - reflexivity.
Qed.

(** The goroutine of tag [nightly] is scheduled only after the main loop has
    received the tag list of [front]. *)
Lemma two_repos_run_overtaken :
  runs_to two_repos ["back"; "front"] []
    ([image "front" "stable" 200],
     ["Unable to get image (front:nightly): MANIFEST_UNKNOWN - manifest unknown"]).
Proof.
  eexists. split; [|split].
  - unfold initial.
    do 2 run_main step_go_tagger. run_main step_go_tags_closer.
    run_Tags (@nil tagger).
    run_Tags [tagger_sends {| repo := "back"; tags := ["nightly"] |}].
    run_receive (@nil tagger).
    run_main step_go_fetcher.
    run_main step_next_tags.
    run_receive [tagger_exited].
    run_ImageDetails [ {| repo := "back"; tags := ["nightly"] |} ] (@nil fetcher).
    run_main step_go_fetcher.
    run_ImageDetails [ {| repo := "back"; tags := ["nightly"] |} ]
      [fetcher_logs "front" "nightly" "MANIFEST_UNKNOWN - manifest unknown"].
    run_log [ {| repo := "back"; tags := ["nightly"] |} ] (@nil fetcher).
    run_main step_next_tags.
    run_main step_close_tagschan. run_main step_go_imgs_closer.
    run_collect [fetcher_exited {| seen_repo := "front"; logged_repo := "front";
                                     own_tag := "nightly" |}].
    run_main step_close_imgchan. run_return.
    apply reaches_here.
  - reflexivity.
  - reflexivity.
Qed.

Lemma same_second_run_in_order :
  runs_to same_second ["back"] []
    ([image "back" "blue" 500; image "back" "green" 500], []).
Proof.
  eexists. split; [|split].
  - unfold initial.
    run_main step_go_tagger. run_main step_go_tags_closer.
    run_Tags (@nil tagger). run_receive (@nil tagger).
    do 2 run_main step_go_fetcher. run_main step_next_tags.
    run_ImageDetails (@nil repotags) (@nil fetcher).
    run_ImageDetails (@nil repotags) [fetcher_sends "back" "blue" (image "back" "blue" 500)].
    run_main step_close_tagschan. run_main step_go_imgs_closer.
    run_collect (@nil fetcher).
    run_collect [fetcher_exited {| seen_repo := "back"; logged_repo := "back";
                                     own_tag := "blue" |}].
    run_main step_close_imgchan. run_return.
    apply reaches_here.
  - reflexivity.
  - reflexivity.
Qed.

Lemma same_second_run_second_first :
  runs_to same_second ["back"] []
    ([image "back" "green" 500; image "back" "blue" 500], []).
Proof.
  eexists. split; [|split].
  - unfold initial.
    run_main step_go_tagger. run_main step_go_tags_closer.
    run_Tags (@nil tagger). run_receive (@nil tagger).
    do 2 run_main step_go_fetcher. run_main step_next_tags.
    run_ImageDetails (@nil repotags) (@nil fetcher).
    run_ImageDetails (@nil repotags) [fetcher_sends "back" "blue" (image "back" "blue" 500)].
    run_main step_close_tagschan. run_main step_go_imgs_closer.
    run_collect [fetcher_sends "back" "blue" (image "back" "blue" 500)].
    run_collect (@nil fetcher).
    run_main step_close_imgchan. run_return.
    apply reaches_here.
  - reflexivity.
  - reflexivity.
Qed.

Lemma unknown_repository_run :
  runs_to two_repos ["gone"; "back"] [] ([image "back" "nightly" 100], []).
Proof.
  eexists. split; [|split].
  - unfold initial.
    do 2 run_main step_go_tagger. run_main step_go_tags_closer.
    run_Tags (@nil tagger).
    run_Tags [tagger_exited].
    run_receive [tagger_exited].
    run_main step_go_fetcher. run_main step_next_tags.
    run_ImageDetails (@nil repotags) (@nil fetcher).
    run_main step_close_tagschan. run_main step_go_imgs_closer.
    run_collect (@nil fetcher).
    run_main step_close_imgchan. run_return.
    apply reaches_here.
  - reflexivity.
  - reflexivity.
Qed.

(** The run depends on the filters only through what they accept. *)
Lemma step_same_filters (r : DockerRegistry) (f1 f2 : list ImgFilter) (st st' : state) :
  (forall img, passes f1 img = passes f2 img) ->
  step r f1 st st' -> step r f2 st st'.
Proof.
  intros Hp Hs. destruct Hs; try (econstructor; eassumption).
  cbn [collect]. rewrite Hp. apply (step_collect r f2).
Qed.

Lemma runs_same_filters (r : DockerRegistry) (repos : list string)
    (f1 f2 : list ImgFilter) (res : list DockerImage * list string) :
  (forall img, passes f1 img = passes f2 img) ->
  runs_to r repos f1 res -> runs_to r repos f2 res.
Proof.
  intros Hp (st & Hr & Hpc & ->). exists st. split; [|auto].
  clear Hpc. induction Hr as [st|st st1 st' Hs _ IH]; [constructor|].
  eapply reaches_step; [|exact IH]. eapply step_same_filters; eassumption.
Qed.

(** When [tagschan] is closed every tag goroutine has exited, and the tag
    lists received are those of the repositories whose listing succeeded. *)
Lemma discovery_complete (r : DockerRegistry) (repos : list string)
    (filters : list ImgFilter) (st : state) :
  reaches r filters (initial repos) st -> tagschan st = closer_closed ->
  Forall (fun t => t = tagger_exited) (taggers st)
  /\ Permutation (arrived st) (tag_discovery r repos).
Proof.
  intros Hreach Hclosed.
  destruct (invariant_reaches r repos filters st Hreach)
    as ((Htw & _ & Htc & _) & Ha & _).
  rewrite Hclosed in Htc. destruct Htc as [Hpc Htc]. rewrite Htw in Htc.
  split.
  - clear - Htc. induction (taggers st) as [|[currepo|rt|] ts IH]; cbn in *;
      try discriminate; constructor; auto.
  - unfold arrivals_ok in Ha. rewrite (all_taggers_exited r _ Htc) in Ha.
    destruct (pc st); cbn in Ha; rewrite ?app_nil_r in Ha; try exact Ha.
    now contradiction (Hpc todo).
Qed.

(** ** What every run returns *)

Lemma run_newest_first (r : DockerRegistry) (repos : list string)
    (filters : list ImgFilter) (res : list DockerImage * list string) :
  runs_to r repos filters res -> newest_first (fst res).
Proof.
  intros Hrun. destruct (runs_follow_a_schedule _ _ _ _ Hrun) as [s <-].
  apply fetch_images_newest_first.
Qed.

Lemma run_images_fetched (r : DockerRegistry) (repos : list string)
    (filters : list ImgFilter) (res : list DockerImage * list string)
    (img : DockerImage) :
  runs_to r repos filters res -> In img (fst res) ->
  passes filters img = true /\ exists g, ImageDetails r (image_key g) = Ok img.
Proof.
  intros Hrun Hin. destruct (runs_follow_a_schedule _ _ _ _ Hrun) as [s <-].
  apply success_returned in Hin as [(g & _ & Hg) Hp]. eauto.
Qed.

Lemma run_log_lines (r : DockerRegistry) (repos : list string)
    (filters : list ImgFilter) (res : list DockerImage * list string)
    (line : string) :
  runs_to r repos filters res -> In line (snd res) ->
  exists g e, ImageDetails r (image_key g) = Err e /\ line = log_line g e.
Proof.
  intros Hrun Hin. destruct (runs_follow_a_schedule _ _ _ _ Hrun) as [s <-].
  apply log_lines_origin in Hin as (g & e & _ & Hg & Hl). eauto.
Qed.

(** Two runs on a single repository return the same images, in the same
    order up to ties. *)
Lemma single_repo_runs_same (r : DockerRegistry) (currepo : string)
    (filters : list ImgFilter) (res1 res2 : list DockerImage * list string) :
  runs_to r [currepo] filters res1 -> runs_to r [currepo] filters res2 ->
  same_up_to_ties (fst res1) (fst res2).
Proof.
  intros H1 H2.
  destruct (runs_follow_a_schedule _ _ _ _ H1) as [s1 <-].
  destruct (runs_follow_a_schedule _ _ _ _ H2) as [s2 <-].
  apply single_repo_runs_agree.
Qed.

Lemma older_run_returns (r : DockerRegistry) (filters : list ImgFilter) (n : Z)
    (repos : list string) (o : outcome (list DockerImage * list string)) :
  0 <= n -> older_run r filters n repos [] [] o ->
  exists ss,
    o = Returned (concat (remainders ss 0 r repos filters n),
                  call_logs ss 0 r repos filters).
Proof.
  intros H0 Hrun.
  destruct (older_run_follows_schedules _ _ _ _ _ _ _ Hrun 0%nat) as [ss <-].
  exists ss. now rewrite older_loop_returns.
Qed.

Lemma older_run_panics (r : DockerRegistry) (filters : list ImgFilter) (n : Z)
    (currepo : string) (rest : list string)
    (o : outcome (list DockerImage * list string)) :
  n < 0 -> older_run r filters n (currepo :: rest) [] [] o ->
  o = Panic "slice bounds out of range".
Proof.
  intros Hn Hrun.
  destruct (older_run_follows_schedules _ _ _ _ _ _ _ Hrun 0%nat) as [ss <-].
  now apply older_loop_panics.
Qed.

(** The state in which a run returned: every goroutine has exited, the tag
    lists received are those of the repositories listed, and the goroutines
    are those the tag lists call for. *)
Lemma returned_state (r : DockerRegistry) (repos : list string) (filters : list ImgFilter)
    (st : state) :
  reaches r filters (initial repos) st -> pc st = returned ->
  exists gs,
    fetchers st = map fetcher_exited gs
    /\ Permutation (arrived st) (tag_discovery r repos)
    /\ Forall2 (exited_ok (arrived st)) (jobs_from 0 (arrived st)) gs
    /\ Permutation (imgs st)
         (filter (passes filters) (sent (map (fetch_goroutine r) gs)))
    /\ Permutation (log st) (logged (map (fetch_goroutine r) gs)).
Proof.
  intros Hr Hp.
  destruct (invariant_reaches _ _ _ _ Hr) as [Hc [_ [Hj He]]].
  destruct Hc as [_ [Hiw [_ [Hic [Htc Hret]]]]].
  specialize (Hret Hp). rewrite Hret in Hic. destruct Hic as [_ Hz].
  rewrite Hz in Hiw. symmetry in Hiw.
  destruct (all_fetchers_exited _ Hiw) as [gs Hgs].
  destruct (discovery_complete _ _ _ _ Hr (Htc (or_intror Hp))) as [_ Hperm].
  destruct Hj as [started [Hf Hs]].
  rewrite Hp in Hs. cbn [jobs_pending] in Hs. rewrite app_nil_r in Hs. subst started.
  rewrite Hgs in Hf. apply Forall2_exited in Hf.
  destruct He as [Hi [Hl _]]. rewrite Hgs, exited_effects_map in Hi, Hl.
  exists gs. auto.
Qed.

(** ** Calls that panic *)

Lemma survives_initial (k : calls) (repos : list string) : survives k (initial repos).
Proof. intros f key []. Qed.

Lemma survives_same (k : calls) (st st' : state) :
  fetchers st' = fetchers st -> survives k st -> survives k st'.
Proof. unfold survives. intros ->. auto. Qed.

(** A goroutine that is past its call stays so, with the call it made. *)
Lemma survives_moved (k : calls) (fs1 fs2 : list fetcher) (f f' : fetcher) :
  call_made f' = call_made f ->
  (forall x key, In x (fs1 ++ f :: fs2) -> call_made x = Some key ->
                 exists answer, ImageDetails_of k key = Returned answer) ->
  forall x key, In x (fs1 ++ f' :: fs2) -> call_made x = Some key ->
                exists answer, ImageDetails_of k key = Returned answer.
Proof.
  intros E H x key Hin Hk. rewrite in_app_iff in Hin. cbn [In] in Hin.
  destruct Hin as [Hin | [<- | Hin]].
  - apply (H x); [rewrite in_app_iff; now left | exact Hk].
  - apply (H f); [rewrite in_app_iff; right; now left | congruence].
  - apply (H x); [rewrite in_app_iff; right; now right | exact Hk].
Qed.

Lemma survives_called (k : calls) (fs1 fs2 : list fetcher) (tag key : string) (f' : fetcher) :
  call_made f' = Some key ->
  (exists answer, ImageDetails_of k key = Returned answer) ->
  (forall x key, In x (fs1 ++ fetcher_calls tag :: fs2) -> call_made x = Some key ->
                 exists answer, ImageDetails_of k key = Returned answer) ->
  forall x key, In x (fs1 ++ f' :: fs2) -> call_made x = Some key ->
                exists answer, ImageDetails_of k key = Returned answer.
Proof.
  intros E Ha H x key' Hin Hk. rewrite in_app_iff in Hin. cbn [In] in Hin.
  destruct Hin as [Hin | [<- | Hin]].
  - apply (H x); [rewrite in_app_iff; now left | exact Hk].
  - rewrite E in Hk. injection Hk as <-. exact Ha.
  - apply (H x); [rewrite in_app_iff; right; now right | exact Hk].
Qed.

(** A step of a living process leaves it alive, unless the step is a call
    that panics. *)
Lemma step_survives (k : calls) (filters : list ImgFilter) (st st' : state) :
  step (returning k) filters st st' -> survives k st ->
  survives k st' \/ exists msg, panics_at k st msg.
Proof.
  intros Hstep Hs. destruct Hstep; unfold survives in *; cbn [fetchers] in *;
    try (left; exact Hs).
  - (* go fetcher *)
    left. intros f key Hin Hk. rewrite in_app_iff in Hin. destruct Hin as [Hin | [<- | []]].
    + now apply (Hs f).
    + discriminate.
  - (* the call returned an image *)
    destruct (ImageDetails_of k (repo cur ++ ":" ++ tag)) as [answer|msg] eqn:E.
    + left. apply (survives_called k fs1 fs2 tag (repo cur ++ ":" ++ tag));
        [reflexivity | now exists answer | exact Hs].
    + right. exists msg, before, cur, fs1, tag, fs2. cbn [arrived fetchers]. auto.
  - (* the call returned an error *)
    destruct (ImageDetails_of k (repo cur ++ ":" ++ tag)) as [answer|msg] eqn:E.
    + left. apply (survives_called k fs1 fs2 tag (repo cur ++ ":" ++ tag));
        [reflexivity | now exists answer | exact Hs].
    + right. exists msg, before, cur, fs1, tag, fs2. cbn [arrived fetchers]. auto.
  - (* log *)
    left. apply (survives_moved k fs1 fs2 (fetcher_logs seen tag e)); [reflexivity | exact Hs].
  - (* collect *)
    left. apply (survives_moved k fs1 fs2 (fetcher_sends seen tag img));
      [reflexivity | exact Hs].
Qed.

(** The states a living process went through were states it was alive in. *)
Lemma step_survived (k : calls) (filters : list ImgFilter) (st st' : state) :
  step (returning k) filters st st' -> survives k st' -> survives k st.
Proof.
  intros Hstep Hs. destruct Hstep; unfold survives in *; cbn [fetchers] in *;
    try exact Hs.
  - intros f key Hin Hk. apply (Hs f); [rewrite in_app_iff; now left | exact Hk].
  - intros f key Hin Hk. rewrite in_app_iff in Hin. cbn [In] in Hin.
    destruct Hin as [Hin | [<- | Hin]]; [| discriminate |];
      (apply (Hs f); [rewrite in_app_iff; cbn [In]; tauto | exact Hk]).
  - intros f key Hin Hk. rewrite in_app_iff in Hin. cbn [In] in Hin.
    destruct Hin as [Hin | [<- | Hin]]; [| discriminate |];
      (apply (Hs f); [rewrite in_app_iff; cbn [In]; tauto | exact Hk]).
  - apply (survives_moved k fs1 fs2 (fetcher_exited g)); [reflexivity | exact Hs].
  - apply (survives_moved k fs1 fs2 (fetcher_exited g)); [reflexivity | exact Hs].
Qed.

Lemma reaches_survived (k : calls) (filters : list ImgFilter) (st st' : state) :
  reaches (returning k) filters st st' -> survives k st' -> survives k st.
Proof.
  induction 1 as [|st st1 st' Hstep _ IH]; [auto|].
  intros Hs. eapply step_survived; eauto.
Qed.

Lemma reaches_trans (r : DockerRegistry) (filters : list ImgFilter) (st st1 st' : state) :
  reaches r filters st st1 -> reaches r filters st1 st' -> reaches r filters st st'.
Proof.
  induction 1 as [|a b c Hstep _ IH]; [auto|].
  intros H. eapply reaches_step; eauto.
Qed.

(** Every run of a living process ends: [fetch_images] returns, or a call
    panics. *)
Lemma run_returns_or_dies (k : calls) (repos : list string) (filters : list ImgFilter)
    (st : state) :
  reaches (returning k) filters (initial repos) st -> survives k st ->
  exists st',
    reaches (returning k) filters st st' /\ survives k st'
    /\ (pc st' = returned \/ exists msg, panics_at k st' msg).
Proof.
  induction (steps_well_founded (returning k) filters st) as [st _ IH].
  intros Hr Hs.
  destruct (pc st) eqn:Hpc;
    try (destruct (progress (returning k) repos filters st (invariant_reaches _ _ _ _ Hr))
           as [st1 Hstep]; [congruence|];
         destruct (step_survives k filters st st1 Hstep Hs) as [Hs1 | Hp];
         [destruct (IH st1 Hstep (reaches_then_step _ _ _ _ _ Hr Hstep) Hs1)
            as [st' [Hr' [Hs' He]]];
          exists st'; split; [eapply reaches_step; eauto | auto]
         | exists st; split; [apply reaches_here | auto]]).
  exists st. split; [apply reaches_here | auto].
Qed.

Lemma Forall2_In_l {A B : Type} (R : A -> B -> Prop) (l1 : list A) (l2 : list B) (x : A) :
  Forall2 R l1 l2 -> In x l1 -> exists y, In y l2 /\ R x y.
Proof.
  induction 1 as [|x' y l1 l2 HR _ IH]; [contradiction|].
  intros [<- | H].
  - exists y. split; [now left | exact HR].
  - destruct (IH H) as [y' [Hy HR']]. exists y'. split; [now right | exact HR'].
Qed.

(** With one repository, no run returns once the call for one of its tags
    panics: the call is made before [imgchan] is closed. *)
Lemma a_panicking_tag_is_called (k : calls) (currepo : string) (curtags : list string)
    (tag msg : string) (filters : list ImgFilter) (st : state) :
  Tags_of k currepo = Ok curtags -> In tag curtags ->
  ImageDetails_of k (currepo ++ ":" ++ tag) = Panic msg ->
  reaches (returning k) filters (initial [currepo]) st -> pc st = returned ->
  ~ survives k st.
Proof.
  intros Ht Hin Hp Hr Hpc Hs.
  destruct (returned_state _ _ _ _ Hr Hpc) as [gs [Hfs [Ha [Hf _]]]].
  assert (Ea : arrived st = [ {| repo := currepo; tags := curtags |} ]).
  { unfold tag_discovery, tag_goroutine in Ha. cbn [flat_map returning Tags] in Ha.
    rewrite Ht in Ha. cbn in Ha. apply Permutation_sym in Ha.
    now apply Permutation_length_1_inv in Ha. }
  rewrite Ea in Hf. cbn [jobs_from tags] in Hf. rewrite app_nil_r in Hf.
  destruct (Forall2_In_l _ _ _ (O, tag) Hf) as [g [Hg [Htag [j [j' [[_ [rt [Ej Er]]] _]]]]]].
  { apply in_map_iff. now exists tag. }
  cbn [snd] in Htag.
  assert (Hrt : rt = {| repo := currepo; tags := curtags |}).
  { destruct j as [|j]; cbn in Ej; [congruence | now destruct j]. }
  subst rt. cbn [repo] in Er.
  destruct (Hs (fetcher_exited g) (image_key g)) as [answer E].
  - rewrite Hfs. apply in_map_iff. now exists g.
  - reflexivity.
  - unfold image_key in E. rewrite <- Er, Htag in E. congruence.
Qed.

(** The lines in the log of a living process are those of calls that
    returned an error. *)
Lemma log_of_the_living (k : calls) (repos : list string) (filters : list ImgFilter)
    (st : state) (line : string) :
  reaches (returning k) filters (initial repos) st -> survives k st ->
  In line (log st) ->
  exists g e,
    ImageDetails_of k (image_key g) = Returned (Err e) /\ line = log_line g e.
Proof.
  intros Hr Hs Hin.
  destruct (invariant_reaches _ _ _ _ Hr) as [_ [_ [_ [_ [Hl _]]]]].
  apply (Permutation_in _ Hl) in Hin. apply In_logged in Hin.
  unfold exited_effects in Hin. apply in_flat_map in Hin. destruct Hin as [f [Hf Hin]].
  destruct f as [| | |g]; try contradiction. destruct Hin as [Hin | []].
  unfold fetch_goroutine in Hin. cbn [returning ImageDetails] in Hin.
  destruct (Hs _ _ Hf eq_refl) as [answer E]. rewrite E in Hin.
  destruct answer as [img|e]; [discriminate|].
  injection Hin as <-. now exists g, e.
Qed.

(** ** A registry that holds just the images returned *)

Lemma strokes_length (n : nat) : String.length (strokes n) = n.
Proof. induction n as [|n IH]; cbn; [reflexivity | now rewrite IH]. Qed.

Lemma shelf_key_inj (n m : nat) :
  ("shelf:" ++ strokes n)%string = ("shelf:" ++ strokes m)%string -> n = m.
Proof.
  intros E. cbn in E. injection E as E.
  rewrite <- (strokes_length n), <- (strokes_length m). now rewrite E.
Qed.

Lemma lookup_shelf (imgs : list DockerImage) :
  forall (i : nat) (seen : list (string * DockerImage)),
    (forall n, In ("shelf:" ++ strokes n)%string (map fst seen) -> (n < i)%nat) ->
    map (fun n => lookup ("shelf:" ++ strokes n)%string
                    (seen ++ combine (map (fun n => ("shelf:" ++ strokes n)%string)
                                        (seq i (length imgs))) imgs))
        (seq i (length imgs))
    = map Some imgs.
Proof.
  induction imgs as [|img imgs IH]; intros i seen Hseen; [reflexivity|].
  cbn [length seq map combine]. f_equal.
  - clear IH. induction seen as [|[key v] seen IHs].
    + cbn. now rewrite String.eqb_refl.
    + cbn [app lookup]. destruct (String.eqb_spec ("shelf:" ++ strokes i) key) as [E|E].
      * exfalso. specialize (Hseen i). cbn [map fst In] in Hseen.
        assert (i < i)%nat by (apply Hseen; left; now rewrite E). lia.
      * apply IHs. intros n Hn. apply Hseen. now right.
  - specialize (IH (S i) (seen ++ [(("shelf:" ++ strokes i)%string, img)])).
    rewrite <- app_assoc in IH. cbn [app] in IH. apply IH.
    intros n Hn. rewrite map_app, in_app_iff in Hn. destruct Hn as [Hn | [Hn | []]].
    + specialize (Hseen n Hn). lia.
    + cbn [fst] in Hn. apply shelf_key_inj in Hn. lia.
Qed.

Lemma map_found {A : Type} (g : A -> option DockerImage) (f h : A -> effect)
    (l : list A) :
  (forall x, f x = match g x with Some img => Sent img | None => h x end) ->
  forall imgs, map g l = map Some imgs -> map f l = map Sent imgs.
Proof.
  intros Hf. induction l as [|x l IH]; intros [|img imgs] E; try discriminate.
  - reflexivity.
  - cbn [map] in *. injection E as Ex E. rewrite Hf, Ex. f_equal. now apply IH.
Qed.

Lemma shelf_goroutines (imgs : list DockerImage) :
  map (fetch_goroutine (shelf imgs))
    (own_goroutines "shelf" (map strokes (seq 1 (length imgs))))
  = map Sent imgs.
Proof.
  unfold own_goroutines. rewrite !map_map.
  apply (map_found
           (fun n => lookup ("shelf:" ++ strokes n)%string
                       (combine (map (fun n => ("shelf:" ++ strokes n)%string)
                                   (seq 1 (length imgs))) imgs))
           _
           (fun n => Logged (log_line {| seen_repo := "shelf"; logged_repo := "shelf";
                                         own_tag := strokes n |}
                                      "MANIFEST_UNKNOWN - manifest unknown"))).
  - intros n. unfold fetch_goroutine, shelf, registry_of.
    cbn [ImageDetails image_key seen_repo own_tag].
    destruct (lookup _ _); reflexivity.
  - apply (lookup_shelf imgs 1 []). intros n [].
Qed.

Lemma sent_Sent (imgs : list DockerImage) : sent (map Sent imgs) = imgs.
Proof. induction imgs as [|img imgs IH]; cbn; [reflexivity | now rewrite IH]. Qed.

Lemma logged_Sent (imgs : list DockerImage) : logged (map Sent imgs) = [].
Proof. induction imgs as [|img imgs IH]; cbn; [reflexivity | exact IH]. Qed.

Lemma filter_all {A : Type} (f : A -> bool) (l : list A) :
  (forall x, In x l -> f x = true) -> filter f l = l.
Proof.
  induction l as [|x l IH]; intros H; [reflexivity|].
  cbn [filter]. rewrite (H x) by now left. f_equal. apply IH. intros y Hy. apply H. now right.
Qed.

(** The shelf returns what is on it: no request fails, nothing is logged. *)
Lemma shelf_returns (imgs : list DockerImage) (filters : list ImgFilter) :
  newest_first imgs -> (forall img, In img imgs -> passes filters img = true) ->
  fetch_images in_order (shelf imgs) ["shelf"] filters = (imgs, [])
  /\ forall g,
       In g (spawned in_order (shelf imgs) ["shelf"]) ->
       exists img, ImageDetails (shelf imgs) (image_key g) = Ok img.
Proof.
  intros Hs Hp.
  assert (Esp : spawned in_order (shelf imgs) ["shelf"]
                = own_goroutines "shelf" (map strokes (seq 1 (length imgs)))).
  { rewrite spawned_single. reflexivity. }
  assert (Eg := shelf_goroutines imgs).
  split.
  - unfold fetch_images, effects. rewrite Esp, Eg.
    change (arrive (fetch_done in_order) (map Sent imgs)) with (arrive [] (map Sent imgs)).
    assert (Ea : arrive [] (map Sent imgs) = map Sent imgs) by (now destruct (map Sent imgs)).
    rewrite Ea, sent_Sent, logged_Sent, collect_filter. cbn [app].
    rewrite (filter_all _ _ Hp). now rewrite (sort_Sort_fixes_sorted _ Hs).
  - intros g Hg. rewrite Esp in Hg.
    assert (Hin : In (fetch_goroutine (shelf imgs) g) (map Sent imgs)).
    { rewrite <- Eg. now apply in_map. }
    apply in_map_iff in Hin. destruct Hin as [img [E _]].
    unfold fetch_goroutine in E. destruct (ImageDetails (shelf imgs) (image_key g));
      [eauto | discriminate].
Qed.

Lemma reaches_last (r : DockerRegistry) (filters : list ImgFilter) (st st' : state) :
  reaches r filters st st' ->
  st = st' \/ exists st1, reaches r filters st st1 /\ step r filters st1 st'.
Proof.
  induction 1 as [|a b c Hstep Hr IH]; [now left|]. right.
  destruct IH as [<- | [st1 [Hr1 Hs1]]].
  - exists a. split; [apply reaches_here | exact Hstep].
  - exists st1. split; [eapply reaches_step; eauto | exact Hs1].
Qed.

(** The shelf has a run that returns what is on it, with nothing logged. *)
Lemma shelf_run (held : list DockerImage) (filters : list ImgFilter) :
  newest_first held -> (forall img, In img held -> passes filters img = true) ->
  runs_to (shelf held) ["shelf"] filters (held, []).
Proof.
  intros Hs Hp.
  destruct (fetch_images_runs (shelf held) ["shelf"] filters) as [res Hrun].
  assert (Hres : Permutation (fst res) held /\ snd res = []).
  { destruct (runs_follow_a_schedule _ _ _ _ Hrun) as [s <-].
    pose proof (fetch_images_returns s (shelf held) ["shelf"] filters) as H1.
    pose proof (fetch_images_logs s (shelf held) ["shelf"] filters) as H2.
    assert (Esp : spawned s (shelf held) ["shelf"]
                  = own_goroutines "shelf" (map strokes (seq 1 (length held))))
      by (rewrite spawned_single; reflexivity).
    rewrite Esp, shelf_goroutines in H1, H2.
    rewrite sent_Sent, (filter_all _ _ Hp) in H1. rewrite logged_Sent in H2.
    split; [exact H1 | now apply Permutation_nil, Permutation_sym]. }
  destruct Hres as [Hperm Hlog].
  destruct Hrun as [st [Hr [Hpc E]]]. subst res. cbn [fst snd] in *.
  destruct (reaches_last _ _ _ _ Hr) as [<- | [st1 [Hr1 Hstep]]]; [discriminate|].
  assert (Hn : pc st1 <> returned).
  { intros Hp1. exact (returned_is_final _ _ _ _ _ Hr1 Hp1 Hstep). }
  destruct Hstep; cbn [pc imgs log] in *; try congruence.
  exists (State returned a tw iw ts fs tc closer_closed held lg).
  split; [|split; [reflexivity | now rewrite Hlog]].
  eapply reaches_trans; [exact Hr1|].
  eapply reaches_step; [|apply reaches_here].
  apply step_return; [|now apply newest_first_ordered_by_Less].
  eapply Permutation_trans; [apply Permutation_sym, Hperm | assumption].
Qed.

Lemma never_panics_survives (k : calls) (st : state) :
  (forall key msg, ImageDetails_of k key <> Panic msg) -> survives k st.
Proof.
  intros Hn f key _ _. destruct (ImageDetails_of k key) as [answer|msg] eqn:E;
    [now exists answer | now elim (Hn key msg)].
Qed.

(** A run on [unexpected_manifest]: the image of [back:v1] is collected,
    then the goroutine of [v2] makes its call. *)
Lemma unexpected_manifest_run :
  exists st,
    dies_in unexpected_manifest ["back"] [] st
      "interface conversion: interface {} is nil, not []interface {}"
    /\ imgs st = [image "back" "v1" 100] /\ log st = [].
Proof.
  eexists. split; [split; [|split]|split].
  - unfold initial.
    run_main step_go_tagger. run_main step_go_tags_closer.
    run_Tags (@nil tagger). run_receive (@nil tagger).
    do 3 run_main step_go_fetcher. run_main step_next_tags.
    run_main step_close_tagschan. run_main step_go_imgs_closer.
    run_ImageDetails (@nil repotags) (@nil fetcher).
    run_collect (@nil fetcher).
    apply reaches_here.
  - intros f key [<- | [<- | [<- | []]]] [= <-]. eexists. reflexivity.
  - exists [], {| repo := "back"; tags := ["v1"; "v2"; "v3"] |},
      [fetcher_exited {| seen_repo := "back"; logged_repo := "back"; own_tag := "v1" |}],
      "v2", [fetcher_calls "v3"].
    repeat split.
  - reflexivity.
  - reflexivity.
Qed.

(** * The claims *)

(** C1, as stated, at a negative [n]: the call does not return the
    concatenation of the remainders, it panics in the slice expression of
    the first repository, under the schedule at hand and in every run. *)
Lemma C1_fails_for_negative_n :
  ~ concatenates_remainders (fun _ => in_order) two_repos ["back"] [] (-1)
  /\ fetch_images_older_than_n_latest (fun _ => in_order) two_repos ["back"] [] (-1)
     = Panic "slice bounds out of range"
  /\ forall o,
       older_run two_repos [] (-1) ["back"] [] [] o ->
       o = Panic "slice bounds out of range".
Proof.
  split; [|split].
  - unfold concatenates_remainders. vm_compute. discriminate.
  - reflexivity.
  - intros o. now apply older_run_panics.
Qed.

(** C1 (amended to n >= 0): for every registry state, repository list,
    filter chain and integer n >= 0, [fetch_images_older_than_n_latest] runs
    the pipeline once per repository, on that repository alone, and returns
    the concatenation of the per-repository remainders in the order the
    repositories were supplied.  The remainder of a repository whose sorted,
    filtered result has more than n entries is that result without its
    first n entries, still sorted most recent first; a repository with at
    most n surviving images contributes nothing.  Every run of the loop, the
    goroutines of each call scheduled in any way, returns such a
    concatenation. *)
Theorem C1_concatenation_of_remainders (ss : nat -> schedule) (r : DockerRegistry)
    (repos : list string) (filters : list ImgFilter) (n : Z) :
  0 <= n ->
  concatenates_remainders ss r repos filters n
  /\ length (remainders ss 0 r repos filters n) = length repos
  /\ (forall (k : nat) (currepo : string),
        nth_error repos k = Some currepo ->
        let repoimgs := fst (fetch_images (ss k) r [currepo] filters) in
        nth_error (remainders ss 0 r repos filters n) k = Some (remainder n repoimgs)
        /\ spawned (ss k) r [currepo]
           = match Tags r currepo with
             | Ok curtags => own_goroutines currepo curtags
             | Err _ => []
             end
        /\ newest_first repoimgs
        /\ (n < Z.of_nat (length repoimgs) ->
            remainder n repoimgs = skipn (Z.to_nat n) repoimgs)
        /\ (Z.of_nat (length repoimgs) <= n -> remainder n repoimgs = [])
        /\ newest_first (remainder n repoimgs))
  /\ forall o,
       older_run r filters n repos [] [] o ->
       exists ss',
         o = Returned (concat (remainders ss' 0 r repos filters n),
                       call_logs ss' 0 r repos filters).
Proof.
  intros H0. split; [|split; [|split]].
  - unfold concatenates_remainders, fetch_images_older_than_n_latest.
    now rewrite older_loop_returns.
  - apply remainders_length.
  - intros k currepo Hk repoimgs. repeat split.
    + exact (remainders_nth_error ss r filters n repos 0 k currepo Hk).
    + apply spawned_single.
    + apply fetch_images_newest_first.
    + apply remainder_drops.
    + apply remainder_nothing.
    + apply remainder_newest_first, fetch_images_newest_first.
  - intros o. now apply older_run_returns.
Qed.

Lemma C1_witness :
  concatenates_remainders (fun _ => in_order) readme
    ["webserver"; "backend-server"] (images_filters None "dev" "") 3.
Proof.
  apply (C1_concatenation_of_remainders (fun _ => in_order) readme
           ["webserver"; "backend-server"] (images_filters None "dev" "") 3).
  lia.
Defined.

(** The result is not sorted across repositories. *)
Example older_than_n_latest_keeps_repository_order :
  exists out lines,
    fetch_images_older_than_n_latest (fun _ => in_order) readme
      ["backend-server"; "webserver"] [] 2 = Returned (out, lines)
    /\ map Tag out
       = ["dev-54"; "dev-53"; "rc3"; "devbuild-3"; "devbuild-2"; "devbuild-1"; "rc2"]
    /\ ~ newest_first out.
Proof.
  eexists. eexists. split; [vm_compute; reflexivity|].
  split; [reflexivity|].
  intros Hs. apply StronglySorted_inv in Hs as [_ Hs].
  apply Forall_inv_tail, Forall_inv in Hs. vm_compute in Hs. now apply Hs.
Qed.

(** Exclusion is per repository: with [n = 3] the repository with two images
    contributes nothing and the one with five its two oldest; dropping the
    three most recent of all seven would have left four. *)
Example exclusion_is_per_repository :
  exists out,
    fetch_images_older_than_n_latest (fun _ => in_order) uneven ["small"; "large"] [] 3
    = Returned (out, [])
    /\ map Tag out = ["l2"; "l1"].
Proof.
  eexists. split; [vm_compute; reflexivity | reflexivity].
Qed.

(** The scenario of the README: all but the latest three [dev] images of
    each repository. *)
Example readme_scenario :
  exists out,
    fetch_images_older_than_n_latest (fun _ => in_order) readme
      ["webserver"; "backend-server"] (images_filters None "dev" "") 3
    = Returned (out, [])
    /\ map Tag out = ["devbuild-2"; "devbuild-1"; "dev-53"].
Proof.
  eexists. split; [vm_compute; reflexivity | reflexivity].
Qed.

(** C2: an image is retained by the collector if and only if every filter
    of the chain returns true for it; the chain is evaluated as a
    short-circuit conjunction, an empty chain accepts every image, and what
    is collected is exactly the images of the stream that all filters
    accept, in arrival order.  The same holds of the slice that
    [fetch_images] returns with respect to the images sent on [imgchan],
    and every image returned by a run is accepted by every filter. *)
Theorem C2_retained_iff_all_filters_accept (filters : list ImgFilter)
    (imgchan : list DockerImage) :
  (forall img,
     In img (collect filters imgchan [])
     <-> In img imgchan /\ forall filter, In filter filters -> filter img = true)
  /\ collect filters imgchan []
     = filter (fun img => forallb (fun filter => filter img) filters) imgchan
  /\ collect [] imgchan [] = imgchan
  /\ (forall filter rest img,
        passes (filter :: rest) img = if filter img then passes rest img else false)
  /\ (forall s r repos img,
        In img (fst (fetch_images s r repos filters))
        <-> In img (sent (effects s r repos))
            /\ forall filter, In filter filters -> filter img = true)
  /\ forall r repos res img,
       runs_to r repos filters res -> In img (fst res) ->
       forall filter, In filter filters -> filter img = true.
Proof.
  assert (Hc : forall chan img,
             In img (filter (passes filters) chan)
             <-> In img chan /\ forall filter, In filter filters -> filter img = true).
  { intros chan img. rewrite filter_In, passes_true. reflexivity. }
  split; [|split; [|split; [|split; [|split]]]].
  - intros img. rewrite collect_filter. apply Hc.
  - rewrite collect_filter. cbn [app]. apply filter_ext.
    intros img. apply passes_forallb.
  - rewrite collect_filter. cbn [app passes].
    induction imgchan; simpl; congruence.
  - intros f rest img. simpl. now destruct (f img).
  - intros s r repos img. unfold fetch_images. cbn [fst].
    rewrite sort_Sort_In, collect_filter. apply Hc.
  - intros r repos res img Hrun Hin.
    apply passes_true. eapply run_images_fetched; eassumption.
Qed.

Lemma fetch_images_no_repos (s : schedule) (r : DockerRegistry)
    (filters : list ImgFilter) :
  fetch_images s r [] filters = ([], []).
Proof.
  unfold fetch_images, effects, spawned.
  destruct (tags_done s), (fetch_done s); reflexivity.
Qed.

(** C3: for every input the sequence returned by [fetch_images] is sorted by
    [Created], most recent first (no image is [Less] than one placed before
    it), under every schedule and in every run of the goroutines; no
    repositories give the empty sequence, the empty and the one-element
    slice are sorted as they are; and the relative order of images with
    equal timestamps is not fixed: every sorted arrangement is returned
    under some finishing order of the goroutines, and two images of the same
    second come out either way round. *)
Theorem C3_returned_most_recent_first :
  (forall s r repos filters,
     newest_first (fst (fetch_images s r repos filters))
     /\ ordered_by_Less (fst (fetch_images s r repos filters)))
  /\ (forall r repos filters res,
        runs_to r repos filters res ->
        newest_first (fst res) /\ ordered_by_Less (fst res))
  /\ (forall s r filters, fetch_images s r [] filters = ([], []))
  /\ sort_Sort [] = []
  /\ (forall img, sort_Sort [img] = [img])
  /\ (forall s r repos out,
        newest_first out ->
        Permutation out (fst (fetch_images s r repos [])) ->
        exists picks,
          fst (fetch_images {| tags_done := tags_done s; read_lag := read_lag s;
                               log_lag := log_lag s; fetch_done := picks |} r repos [])
          = out)
  /\ runs_to same_second ["back"] []
       ([image "back" "blue" 500; image "back" "green" 500], [])
  /\ runs_to same_second ["back"] []
       ([image "back" "green" 500; image "back" "blue" 500], [])
  /\ fetch_images in_order same_second ["back"] []
     = ([image "back" "blue" 500; image "back" "green" 500], [])
  /\ fetch_images second_first same_second ["back"] []
     = ([image "back" "green" 500; image "back" "blue" 500], []).
Proof.
  split; [|split; [|split; [|split; [|split; [|split; [|split; [|split; [|split]]]]]]]].
  - intros s r repos filters. split.
    + apply fetch_images_newest_first.
    + apply newest_first_ordered_by_Less, fetch_images_newest_first.
  - intros r repos filters res Hrun.
    pose proof (run_newest_first _ _ _ _ Hrun) as Hs.
    split; [exact Hs | now apply newest_first_ordered_by_Less].
  - apply fetch_images_no_repos.
  - reflexivity.
  - reflexivity.
  - apply every_tie_order_returned.
  - exact same_second_run_in_order.
  - exact same_second_run_second_first.
  - reflexivity.
  - reflexivity.
Qed.

(** C4: when the call of [ImageDetails] for a tag returns an error, the
    error is logged, the tag sends nothing, and every image that was fetched
    and passes the filters is in the returned slice, most recent first; the
    call returns a plain slice, the one a registry holding just these images
    returns with no request failing and nothing logged, so that the caller
    cannot tell the two apart.  This is what the claim says.  But a fetch
    can also fail with a panic in [ImageDetails]: then nothing is logged
    and nothing is returned.  Every run ends, returning or dying; it returns
    when no call panics; on one repository, once the call for one of its
    tags panics, no run returns, some run dies, and the log it leaves holds
    only the lines of calls that returned an error.  On [unexpected_manifest]
    the process dies with the image of [back:v1] collected and nothing
    logged. *)
Theorem C4_an_error_is_logged_and_dropped_but_a_panic_ends_the_process :
  (forall s r repos filters,
     let out := fetch_images s r repos filters in
     let attempts := map (fetch_goroutine r) (spawned s r repos) in
     (forall g e,
        In g (spawned s r repos) -> ImageDetails r (image_key g) = Err e ->
        fetch_goroutine r g = Logged (log_line g e) /\ In (log_line g e) (snd out))
     /\ (forall g img,
           In g (spawned s r repos) -> ImageDetails r (image_key g) = Ok img ->
           passes filters img = true -> In img (fst out))
     /\ Permutation (fst out) (filter (passes filters) (sent attempts))
     /\ Permutation (snd out) (logged attempts)
     /\ newest_first (fst out)
     /\ (length (fst out) + length (snd out) <= length (spawned s r repos))%nat
     /\ fetch_images in_order (shelf (fst out)) ["shelf"] filters = (fst out, [])
     /\ forall g,
          In g (spawned in_order (shelf (fst out)) ["shelf"]) ->
          exists img, ImageDetails (shelf (fst out)) (image_key g) = Ok img)
  /\ (forall r repos filters res,
        runs_to r repos filters res ->
        newest_first (fst res)
        /\ (forall img,
              In img (fst res) ->
              passes filters img = true
              /\ exists g, ImageDetails r (image_key g) = Ok img)
        /\ (forall line,
              In line (snd res) ->
              exists g e, ImageDetails r (image_key g) = Err e /\ line = log_line g e)
        /\ runs_to (shelf (fst res)) ["shelf"] filters (fst res, []))
  /\ (forall k repos filters st,
        reaches (returning k) filters (initial repos) st -> survives k st ->
        exists st',
          reaches (returning k) filters st st' /\ survives k st'
          /\ (pc st' = returned \/ exists msg, panics_at k st' msg))
  /\ (forall k repos filters,
        (forall key msg, ImageDetails_of k key <> Panic msg) ->
        (exists res, returns_in k repos filters res)
        /\ (forall st msg, ~ dies_in k repos filters st msg)
        /\ forall res, returns_in k repos filters res <-> runs_to (returning k) repos filters res)
  /\ (forall k currepo curtags tag msg filters,
        Tags_of k currepo = Ok curtags -> In tag curtags ->
        ImageDetails_of k (currepo ++ ":" ++ tag) = Panic msg ->
        (forall res, ~ returns_in k [currepo] filters res)
        /\ exists st msg', dies_in k [currepo] filters st msg')
  /\ (forall k repos filters st msg,
        dies_in k repos filters st msg ->
        forall line,
          In line (log st) ->
          exists g e,
            ImageDetails_of k (image_key g) = Returned (Err e) /\ line = log_line g e)
  /\ (exists st,
        dies_in unexpected_manifest ["back"] [] st
          "interface conversion: interface {} is nil, not []interface {}"
        /\ imgs st = [image "back" "v1" 100] /\ log st = [])
  /\ forall res, ~ returns_in unexpected_manifest ["back"] [] res.
Proof.
  split; [|split; [|split; [|split; [|split; [|split; [|split]]]]]].
  - intros s r repos filters. cbv zeta.
    split; [|split; [|split; [|split; [|split; [|split]]]]].
    + intros g e Hg He. split.
      * unfold fetch_goroutine. now rewrite He.
      * now apply failure_logged.
    + intros g img Hg Hi Hf. apply success_returned. split; [|exact Hf]. now exists g.
    + apply fetch_images_returns.
    + apply fetch_images_logs.
    + apply fetch_images_newest_first.
    + apply fetch_images_count.
    + apply shelf_returns; [apply fetch_images_newest_first|].
      intros img Hin. now apply success_returned in Hin.
  - intros r repos filters res Hrun.
    assert (Hs : newest_first (fst res)) by (eapply run_newest_first, Hrun).
    assert (Hp : forall img, In img (fst res) -> passes filters img = true).
    { intros img Hin. now apply (run_images_fetched r repos filters res img Hrun). }
    split; [exact Hs|]. split; [|split].
    + intros img. now apply run_images_fetched with (repos := repos).
    + intros line. now apply run_log_lines with (repos := repos) (filters := filters).
    + now apply shelf_run.
  - apply run_returns_or_dies.
  - intros k repos filters Hn. split; [|split].
    + destruct (fetch_images_runs (returning k) repos filters) as [res [st [Hr [Hp E]]]].
      exists res, st. split; [exact Hr|]. split; [now apply never_panics_survives | auto].
    + intros st msg [_ [_ [before [cur [fs1 [tag [fs2 [_ [_ Hp]]]]]]]]]. now elim (Hn _ _ Hp).
    + intros res. split.
      * intros [st [Hr [_ [Hp E]]]]. now exists st.
      * intros [st [Hr [Hp E]]]. exists st. split; [exact Hr|].
        split; [now apply never_panics_survives | auto].
  - intros k currepo curtags tag msg filters Ht Hin Hp.
    assert (Hno : forall res, ~ returns_in k [currepo] filters res).
    { intros res [st [Hr [Hs [Hpc _]]]].
      exact (a_panicking_tag_is_called k currepo curtags tag msg filters st Ht Hin Hp Hr Hpc Hs). }
    split; [exact Hno|].
    destruct (run_returns_or_dies k [currepo] filters (initial [currepo])
                (reaches_here _ _ _) (survives_initial k [currepo]))
      as [st [Hr [Hs [Hpc | [msg' Hd]]]]].
    + exfalso. apply (Hno (imgs st, log st)). exists st. auto.
    + exists st, msg'. repeat split; auto.
  - intros k repos filters st msg [Hr [Hs _]] line Hin.
    now apply (log_of_the_living k repos filters st line).
  - exact unexpected_manifest_run.
  - intros res [st [Hr [Hs [Hpc _]]]].
    apply (a_panicking_tag_is_called unexpected_manifest "back" ["v1"; "v2"; "v3"] "v2"
             "interface conversion: interface {} is nil, not []interface {}" [] st);
      auto. cbn. tauto.
Qed.

(** C6, as stated, at [n = 0]: the operation is not rejected.  The function
    returns every image of every repository, in every run, and the [images]
    command with [--exclude-latest 0] returns the result of the plain
    pipeline. *)
Lemma C6_zero_is_not_rejected :
  ~ rejected (fetch_images_older_than_n_latest (fun _ => in_order) two_repos
                ["back"; "front"] [] 0)
  /\ ~ rejected (images_fetch (fun _ => in_order) in_order two_repos
                   ["back"; "front"] [] 0)
  /\ fetch_images_older_than_n_latest (fun _ => in_order) two_repos
       ["back"; "front"] [] 0
     = Returned ([image "back" "nightly" 100; image "front" "stable" 200], [])
  /\ (exists o, older_run two_repos [] 0 ["back"; "front"] [] [] o)
  /\ forall o, older_run two_repos [] 0 ["back"; "front"] [] [] o -> ~ rejected o.
Proof.
  split; [|split; [|split; [|split]]].
  - intros [msg H]. vm_compute in H. discriminate H.
  - intros [msg H]. vm_compute in H. discriminate H.
  - reflexivity.
  - apply older_run_ends.
  - intros o Hrun [msg Hmsg].
    destruct (older_run_returns _ _ 0 _ o (Z.le_refl 0) Hrun) as [ss Ho]. congruence.
Qed.

(** C6 (amended): with [n = 0] the per-repository exclusion is not rejected.
    The function returns the concatenation of every repository's complete
    sorted result, under every schedule and in every run, and the [images]
    command calls it only when [exclude-latest > 0]: for any other value it
    returns the result of the plain pipeline over all repositories.  For
    every [n] and every repository whose surviving-image count is at most
    [n], that repository contributes zero images. *)
Theorem C6_zero_runs_and_small_repositories_contribute_nothing
    (ss : nat -> schedule) (s : schedule) (r : DockerRegistry)
    (repos : list string) (filters : list ImgFilter) :
  (concatenates_remainders ss r repos filters 0
   /\ forall k currepo,
        nth_error repos k = Some currepo ->
        nth_error (remainders ss 0 r repos filters 0) k
        = Some (fst (fetch_images (ss k) r [currepo] filters)))
  /\ (forall o, older_run r filters 0 repos [] [] o -> ~ rejected o)
  /\ (forall n, n <= 0 ->
        images_fetch ss s r repos filters n
        = Returned (fetch_images s r repos filters))
  /\ (forall n, 0 < n ->
        images_fetch ss s r repos filters n
        = fetch_images_older_than_n_latest ss r repos filters n)
  /\ forall n k currepo,
       nth_error repos k = Some currepo ->
       Z.of_nat (length (fst (fetch_images (ss k) r [currepo] filters))) <= n ->
       concatenates_remainders ss r repos filters n
       /\ nth_error (remainders ss 0 r repos filters n) k = Some [].
Proof.
  assert (Hcat : forall n, 0 <= n -> concatenates_remainders ss r repos filters n).
  { intros n H0. unfold concatenates_remainders, fetch_images_older_than_n_latest.
    now rewrite older_loop_returns. }
  split; [split|split; [|split; [|split]]].
  - apply Hcat. lia.
  - intros k currepo Hk.
    rewrite (remainders_nth_error ss r filters 0 repos 0 k currepo Hk).
    now rewrite remainder_zero.
  - intros o Hrun [msg Hmsg].
    destruct (older_run_returns r filters 0 repos o (Z.le_refl 0) Hrun) as [ss' Ho].
    congruence.
  - intros n Hn. unfold images_fetch.
    destruct (Z.gtb_spec n 0); [lia | reflexivity].
  - intros n Hn. unfold images_fetch.
    destruct (Z.gtb_spec n 0); [reflexivity | lia].
  - intros n k currepo Hk Hlen. split.
    + apply Hcat. lia.
    + rewrite (remainders_nth_error ss r filters n repos 0 k currepo Hk).
      now rewrite remainder_nothing.
Qed.

Lemma C6_witness :
  nth_error (remainders (fun _ => in_order) 0 readme ["webserver"; "backend-server"]
               (images_filters None "dev" "") 4) 1
  = Some [].
Proof.
  apply (C6_zero_runs_and_small_repositories_contribute_nothing
           (fun _ => in_order) in_order readme ["webserver"; "backend-server"]
           (images_filters None "dev" "")) with (currepo := "backend-server").
  - reflexivity.
  - vm_compute. discriminate.
Defined.

(** C7, on a repository the registry does not know: the tag listing fails,
    nothing is written to the log in any run, the repository contributes no
    tags and no images, and a sibling repository is fetched as usual.  In
    general [tagschan] is closed only once every tag goroutine has exited,
    the tag lists received are then exactly those of the repositories whose
    listing succeeded, and no line of any log comes from a tag listing: all
    of them report metadata requests. *)
Theorem C7_failed_tag_listing_is_not_logged :
  Tags two_repos "gone" = Err "NAME_UNKNOWN - repository name not known to registry"
  /\ (forall filters res, runs_to two_repos ["gone"] filters res -> res = ([], []))
  /\ runs_to two_repos ["gone"; "back"] [] ([image "back" "nightly" 100], [])
  /\ (forall s filters, fetch_images s two_repos ["gone"] filters = ([], []))
  /\ (forall s, tag_discovery two_repos (arrive (tags_done s) ["gone"; "back"])
                = [ {| repo := "back"; tags := ["nightly"] |} ])
  /\ (forall r repos filters st,
        reaches r filters (initial repos) st -> tagschan st = closer_closed ->
        Forall (fun t => t = tagger_exited) (taggers st)
        /\ Permutation (arrived st) (tag_discovery r repos))
  /\ forall r repos filters res line,
       runs_to r repos filters res -> In line (snd res) ->
       exists g e, ImageDetails r (image_key g) = Err e /\ line = log_line g e.
Proof.
  split; [|split; [|split; [|split; [|split; [|split]]]]].
  - reflexivity.
  - intros filters res Hrun.
    destruct (runs_follow_a_schedule _ _ _ _ Hrun) as [s <-].
    now apply (tag_failure_silent s two_repos "gone" filters
                 "NAME_UNKNOWN - repository name not known to registry").
  - exact unknown_repository_run.
  - intros s filters. now apply (tag_failure_silent s two_repos "gone" filters
      "NAME_UNKNOWN - repository name not known to registry").
  - intros s. destruct (tags_done s) as [|p ps]; [reflexivity|].
    cbn [arrive length].
    assert (Hp : (Nat.modulo p 2 = 0 \/ Nat.modulo p 2 = 1)%nat)
      by (pose proof (Nat.mod_upper_bound p 2); lia).
    destruct Hp as [-> | ->]; cbn [nth remove_nth]; rewrite arrive_single; reflexivity.
  - apply discovery_complete.
  - apply run_log_lines.
Qed.

(** C8: two filter chains that are permutations of each other retain the
    same images: the collector collects the same sequence from every image
    stream, [fetch_images] returns the same result under every schedule, and
    the runs of the goroutines are the same. *)
Theorem C8_filter_order_irrelevant (f1 f2 : list ImgFilter) :
  Permutation f1 f2 ->
  (forall imgchan, collect f1 imgchan [] = collect f2 imgchan [])
  /\ (forall s r repos, fetch_images s r repos f1 = fetch_images s r repos f2)
  /\ forall r repos res, runs_to r repos f1 res <-> runs_to r repos f2 res.
Proof.
  intros Hp.
  assert (Hc : forall imgchan, collect f1 imgchan [] = collect f2 imgchan []).
  { intros imgchan. rewrite !collect_filter. cbn [app].
    apply filter_ext. intros img. now apply passes_Permutation. }
  split; [exact Hc|]. split.
  - intros s r repos. unfold fetch_images. now rewrite Hc.
  - intros r repos res. split; apply runs_same_filters; intros img.
    + now apply passes_Permutation.
    + now apply passes_Permutation, Permutation_sym.
Qed.

Lemma C8_witness :
  fetch_images in_order readme ["webserver"] [tag_contains "dev"; tag_exclude "-2"]
  = fetch_images in_order readme ["webserver"] [tag_exclude "-2"; tag_contains "dev"].
Proof.
  apply (C8_filter_order_irrelevant
           [tag_contains "dev"; tag_exclude "-2"] [tag_exclude "-2"; tag_contains "dev"]).
  apply perm_swap.
Defined.

(** C9, on two repositories with one tag each, the registry unchanged: the
    run in which every goroutine reads [currepotags] at once returns both
    images; the run in which the goroutine of the first tag reads it after
    the loop has received the second tag list asks for a manifest of the
    wrong repository and returns one image.  Both are runs of the
    goroutines, and the two results do not agree up to the order of ties.
    Two runs on a single repository do agree up to the order of ties. *)
Theorem C9_runs_disagree_when_a_goroutine_reads_late :
  runs_to two_repos ["back"; "front"] []
    ([image "front" "stable" 200; image "back" "nightly" 100], [])
  /\ runs_to two_repos ["back"; "front"] []
       ([image "front" "stable" 200],
        ["Unable to get image (front:nightly): MANIFEST_UNKNOWN - manifest unknown"])
  /\ ~ same_up_to_ties
         [image "front" "stable" 200; image "back" "nightly" 100]
         [image "front" "stable" 200]
  /\ fetch_images in_order two_repos ["back"; "front"] []
     = ([image "front" "stable" 200; image "back" "nightly" 100], [])
  /\ spawned overtaken two_repos ["back"; "front"]
     = [ {| seen_repo := "front"; logged_repo := "front"; own_tag := "nightly" |};
         {| seen_repo := "front"; logged_repo := "front"; own_tag := "stable" |} ]
  /\ fetch_images overtaken two_repos ["back"; "front"] []
     = ([image "front" "stable" 200],
        ["Unable to get image (front:nightly): MANIFEST_UNKNOWN - manifest unknown"])
  /\ forall r currepo filters res1 res2,
       runs_to r [currepo] filters res1 -> runs_to r [currepo] filters res2 ->
       same_up_to_ties (fst res1) (fst res2).
Proof.
  split; [exact two_repos_run_in_order|].
  split; [exact two_repos_run_overtaken|].
  split; [|split; [reflexivity|split; [reflexivity|split; [reflexivity|]]]].
  - intros [Hp _]. apply Permutation_length in Hp. discriminate Hp.
  - apply single_repo_runs_same.
Qed.

(** C10: the slice expression [repoimgs[n:]] is evaluated only under the
    guard [len(repoimgs) > n]; for every [n >= 0] the guard keeps the index
    in range and the call returns, and for every [n < 0] the guard holds
    whatever the length, the slice expression panics, and so does the call
    on any non-empty repository list, even when no image survives; this
    under every schedule and in every run. *)
Theorem C10_guard_keeps_slice_in_range_iff_n_not_negative :
  (forall (repoimgs : list DockerImage) (n : Z),
     0 <= n -> (Z.of_nat (length repoimgs) >? n) = true ->
     slice_from repoimgs n = Some (skipn (Z.to_nat n) repoimgs))
  /\ (forall ss r repos filters n,
        0 <= n ->
        exists out lines,
          fetch_images_older_than_n_latest ss r repos filters n = Returned (out, lines))
  /\ (forall (repoimgs : list DockerImage) (n : Z),
        n < 0 ->
        (Z.of_nat (length repoimgs) >? n) = true /\ slice_from repoimgs n = None)
  /\ (forall ss r currepo rest filters n,
        n < 0 ->
        rejected (fetch_images_older_than_n_latest ss r (currepo :: rest) filters n))
  /\ (forall ss r filters n,
        fetch_images_older_than_n_latest ss r [] filters n = Returned ([], []))
  /\ (forall r filters n repos, exists o, older_run r filters n repos [] [] o)
  /\ forall r filters n repos o,
       older_run r filters n repos [] [] o ->
       (0 <= n -> ~ rejected o) /\ (n < 0 -> repos <> [] -> rejected o).
Proof.
  split; [|split; [|split; [|split; [|split; [|split]]]]].
  - intros repoimgs n H0 Hg. apply Z.gtb_lt in Hg. now apply slice_from_in_range.
  - intros ss r repos filters n H0. unfold fetch_images_older_than_n_latest.
    rewrite older_loop_returns by exact H0. eauto.
  - intros repoimgs n Hn. split; [now apply guard_negative | now apply slice_from_negative].
  - intros ss r currepo rest filters n Hn.
    exists "slice bounds out of range".
    now apply older_loop_panics.
  - reflexivity.
  - intros r filters n repos. apply older_run_ends.
  - intros r filters n repos o Hrun. split.
    + intros H0 [msg Hmsg].
      destruct (older_run_returns r filters n repos o H0 Hrun) as [ss Ho]. congruence.
    + intros Hn Hne. destruct repos as [|currepo rest]; [contradiction|].
      exists "slice bounds out of range". now apply older_run_panics with r filters n currepo rest.
Qed.

Lemma C10_witness :
  rejected (fetch_images_older_than_n_latest (fun _ => in_order) two_repos
              ["gone"] [] (-1))
  /\ slice_from [image "back" "nightly" 100; image "back" "weekly" 50] 1
     = Some [image "back" "weekly" 50].
Proof.
  pose proof C10_guard_keeps_slice_in_range_iff_n_not_negative
    as (Hin & _ & _ & Hpanic & _).
  split.
  - apply Hpanic. lia.
  - apply (Hin [image "back" "nightly" 100; image "back" "weekly" 50] 1);
      [lia | reflexivity].
Defined.

(** * Further properties of the code *)

Local Open Scope io_scope.

(** ** Substrings *)

Lemma prefix_append (p s : string) :
  String.prefix p s = true <-> exists rest, s = (p ++ rest)%string.
Proof.
  revert s. induction p as [|c p IH]; intros s.
  - destruct s; cbn; (split; [intros _; eexists; reflexivity | reflexivity]).
  - destruct s as [|d s]; cbn.
    + split; [discriminate | intros [rest E]; discriminate].
    + destruct (Ascii.ascii_dec c d) as [->|Hn].
      * rewrite IH. split; intros [rest E]; exists rest.
        -- now rewrite E.
        -- now injection E.
      * split; [discriminate | intros [rest E]; injection E; congruence].
Qed.

Lemma Contains_substring (s substr : string) :
  Contains s substr = true
  <-> exists before after, s = (before ++ substr ++ after)%string.
Proof.
  induction s as [|c s IH].
  - cbn [Contains]. rewrite orb_false_r, prefix_append. split.
    + intros [rest E]. now exists "", rest.
    + intros [[|d before] [after E]]; [now exists after | discriminate].
  - cbn [Contains]. rewrite orb_true_iff, prefix_append, IH. split.
    + intros [[rest E] | [before [after E]]].
      * now exists "", rest.
      * exists (String c before), after. now rewrite E.
    + intros [[|d before] [after E]].
      * left. now exists after.
      * right. exists before, after. now injection E.
Qed.

Lemma passes_app (f1 f2 : list ImgFilter) (img : DockerImage) :
  passes (f1 ++ f2) img = passes f1 img && passes f2 img.
Proof.
  induction f1 as [|f f1 IH]; [reflexivity|].
  cbn [passes app]. destruct (f img); cbn; [exact IH | reflexivity].
Qed.

(** X1: the filters the [images] command builds from [--older-than],
    [--contains] and [--exclude] accept an image exactly when it was created
    before the given time (when one is given), its tag contains the
    [--contains] text, and its tag does not contain the [--exclude] text
    unless that text is empty. *)
Theorem images_filters_accept (older : option Time) (contains exclude : string)
    (img : DockerImage) :
  passes (images_filters older contains exclude) img = true
  <-> (forall t, older = Some t -> Created img < t)
      /\ (exists before after, Tag img = (before ++ contains ++ after)%string)
      /\ (exclude = ""
          \/ ~ exists before after, Tag img = (before ++ exclude ++ after)%string).
Proof.
  unfold images_filters. rewrite !passes_app, !andb_true_iff.
  assert (Ho : passes match older with Some t => [older_than t] | None => [] end img = true
               <-> forall t, older = Some t -> Created img < t).
  { destruct older as [t|]; cbn.
    - unfold older_than, Before. destruct (Created img <? t) eqn:E; cbn.
      + apply Z.ltb_lt in E. split; [intros _ t' [= <-]; exact E | reflexivity].
      + apply Z.ltb_ge in E. split; [discriminate | intros H; specialize (H t eq_refl); lia].
    - split; [intros _ t; discriminate | reflexivity]. }
  assert (Hc : passes (if (contains =? "")%string then [] else [tag_contains contains]) img = true
               <-> exists before after, Tag img = (before ++ contains ++ after)%string).
  { destruct (String.eqb_spec contains "") as [->|Hn]; cbn.
    - split; [intros _; now exists "", (Tag img) | reflexivity].
    - unfold tag_contains. rewrite <- Contains_substring.
      destruct (Contains (Tag img) contains); cbn; split; congruence. }
  assert (He : passes (if (exclude =? "")%string then [] else [tag_exclude exclude]) img = true
               <-> exclude = ""
                   \/ ~ exists before after, Tag img = (before ++ exclude ++ after)%string).
  { destruct (String.eqb_spec exclude "") as [->|Hn]; cbn.
    - split; [now left | reflexivity].
    - unfold tag_exclude. rewrite <- Contains_substring.
      destruct (Contains (Tag img) exclude); cbn; split; try congruence.
      + intros [E | E]; [congruence | now elim E].
      + intros _. right. discriminate. }
  rewrite Ho, Hc, He. reflexivity.
Qed.

(** ** [ByCreated] *)

Lemma set_index_length (s : ByCreated) (i : nat) (x : DockerImage) :
  length (set_index s i x) = length s.
Proof.
  revert i. induction s as [|h t IH]; intros [|i]; cbn; auto.
Qed.

Lemma nth_error_set_index (s : ByCreated) (i k : nat) (x : DockerImage) :
  (i < length s)%nat ->
  nth_error (set_index s i x) k = if Nat.eqb k i then Some x else nth_error s k.
Proof.
  revert i k. induction s as [|h t IH]; intros [|i] [|k] H; cbn in *; try lia; auto.
  apply IH. lia.
Qed.

Lemma Swap_nth_error (s : ByCreated) (i j k : nat) :
  (i < Len s)%nat -> (j < Len s)%nat ->
  nth_error (Swap s i j) k
  = if Nat.eqb k j then nth_error s i
    else if Nat.eqb k i then nth_error s j else nth_error s k.
Proof.
  unfold Len, Swap. intros Hi Hj.
  destruct (nth_error s i) as [a|] eqn:Ea; [|apply nth_error_None in Ea; lia].
  destruct (nth_error s j) as [b|] eqn:Eb; [|apply nth_error_None in Eb; lia].
  rewrite nth_error_set_index by (rewrite set_index_length; exact Hj).
  destruct (Nat.eqb k j); [reflexivity|].
  now rewrite nth_error_set_index.
Qed.

Lemma Swap_length (s : ByCreated) (i j : nat) : Len (Swap s i j) = Len s.
Proof.
  unfold Len, Swap.
  destruct (nth_error s i); [|reflexivity]. destruct (nth_error s j); [|reflexivity].
  now rewrite !set_index_length.
Qed.

(** X2: [Swap] at two indices within bounds keeps the length, exchanges the
    two elements and leaves the others where they are; doing it twice gives
    the slice back, and the result is a permutation of the slice. *)
Theorem Swap_exchanges_two_elements (s : ByCreated) (i j : nat) :
  (i < Len s)%nat -> (j < Len s)%nat ->
  Len (Swap s i j) = Len s
  /\ nth_error (Swap s i j) i = nth_error s j
  /\ nth_error (Swap s i j) j = nth_error s i
  /\ (forall k, k <> i -> k <> j -> nth_error (Swap s i j) k = nth_error s k)
  /\ Swap (Swap s i j) i j = s
  /\ Permutation s (Swap s i j).
Proof.
  intros Hi Hj.
  assert (Hn := Swap_nth_error s i j).
  split; [apply Swap_length|].
  split.
  { rewrite Hn by assumption. rewrite Nat.eqb_refl.
    destruct (Nat.eqb_spec i j) as [->|]; reflexivity. }
  split.
  { rewrite Hn by assumption. now rewrite Nat.eqb_refl. }
  split.
  { intros k Hki Hkj. rewrite Hn by assumption.
    destruct (Nat.eqb_spec k j); [contradiction|].
    destruct (Nat.eqb_spec k i); [contradiction|]. reflexivity. }
  split.
  { apply nth_error_ext. intros k.
    rewrite Swap_nth_error by (rewrite Swap_length; assumption).
    rewrite !Hn by assumption. rewrite !Nat.eqb_refl.
    destruct (Nat.eqb_spec k j) as [->|Hkj].
    - destruct (Nat.eqb_spec i j) as [->|]; reflexivity.
    - destruct (Nat.eqb_spec k i) as [->|Hki]; reflexivity. }
  apply Permutation_nth_error. split; [symmetry; apply Swap_length|].
  exists (fun k => if Nat.eqb k j then i else if Nat.eqb k i then j else k). split.
  - intros x y.
    destruct (Nat.eqb_spec x j), (Nat.eqb_spec x i), (Nat.eqb_spec y j), (Nat.eqb_spec y i);
      congruence.
  - intros k. rewrite Hn by assumption.
    destruct (Nat.eqb k j); [reflexivity|]. destruct (Nat.eqb k i); reflexivity.
Qed.

Lemma Swap_exchanges_two_elements_witness :
  Swap [image "back" "v1" 100; image "back" "v2" 200; image "back" "v3" 300] 0 2
  = [image "back" "v3" 300; image "back" "v2" 200; image "back" "v1" 100]
  /\ Permutation
       [image "back" "v1" 100; image "back" "v2" 200; image "back" "v3" 300]
       (Swap [image "back" "v1" 100; image "back" "v2" 200; image "back" "v3" 300] 0 2).
Proof.
  split; [reflexivity|].
  apply (Swap_exchanges_two_elements
           [image "back" "v1" 100; image "back" "v2" 200; image "back" "v3" 300] 0 2);
    cbn; lia.
Defined.

(** X3: [Less] compares creation times the newer first: no element is
    before itself, no two elements are before each other, it is transitive,
    and within bounds so is being not before. *)
Theorem Less_is_a_strict_weak_order (s : ByCreated) :
  (forall i, Less s i i = false)
  /\ (forall i j, Less s i j = true -> Less s j i = false)
  /\ (forall i j k, Less s i j = true -> Less s j k = true -> Less s i k = true)
  /\ (forall i j k,
        (i < Len s)%nat -> (j < Len s)%nat -> (k < Len s)%nat ->
        Less s i j = false -> Less s j k = false -> Less s i k = false).
Proof.
  unfold Less, Len, After. repeat split.
  - intros i. destruct (nth_error s i); [apply Z.ltb_irrefl | reflexivity].
  - intros i j. destruct (nth_error s i), (nth_error s j); try discriminate.
    rewrite Z.ltb_lt, Z.ltb_ge. lia.
  - intros i j k.
    destruct (nth_error s i), (nth_error s j), (nth_error s k); try discriminate.
    rewrite !Z.ltb_lt. lia.
  - intros i j k Hi Hj Hk.
    destruct (nth_error s i) eqn:Ei; [|apply nth_error_None in Ei; lia].
    destruct (nth_error s j) eqn:Ej; [|apply nth_error_None in Ej; lia].
    destruct (nth_error s k) eqn:Ek; [|apply nth_error_None in Ek; lia].
    rewrite !Z.ltb_ge. lia.
Qed.

(** ** The runs of [fetch_images], once more *)


Lemma jobs_from_In (a : list repotags) (i : nat) (job : nat * string) :
  In job (jobs_from i a) ->
  exists rt, nth_error a (fst job - i) = Some rt /\ In (snd job) (tags rt)
             /\ (i <= fst job)%nat.
Proof.
  revert i. induction a as [|rt a IH]; intros i; [contradiction|].
  cbn [jobs_from]. rewrite in_app_iff, in_map_iff. intros [[tag [<- Ht]] | H].
  - exists rt. cbn. now rewrite Nat.sub_diag.
  - destruct (IH _ H) as [rt' [E [Ht Hi]]]. exists rt'.
    replace (fst job - i)%nat with (S (fst job - S i)) by lia. cbn. repeat split; auto; lia.
Qed.

Lemma Forall2_In_r {A B : Type} (R : A -> B -> Prop) (l1 : list A) (l2 : list B) (y : B) :
  Forall2 R l1 l2 -> In y l2 -> exists x, In x l1 /\ R x y.
Proof.
  induction 1 as [|x y' l1 l2 HR _ IH]; [contradiction|].
  intros [<- | H].
  - exists x. split; [now left | exact HR].
  - destruct (IH H) as [x' [Hx HR']]. exists x'. split; [now right | exact HR'].
Qed.



Lemma arrived_listed (r : DockerRegistry) (repos : list string) (a : list repotags)
    (j : nat) (rt : repotags) :
  Permutation a (tag_discovery r repos) -> nth_error a j = Some rt ->
  In (repo rt) repos /\ Tags r (repo rt) = Ok (tags rt).
Proof.
  intros Hp E. apply nth_error_In in E.
  apply (Permutation_in _ Hp) in E. now apply tag_discovery_In in E.
Qed.

(** What an exited goroutine asked for: a tag of a list received, under the
    name of a repository whose list was received. *)
Lemma exited_goroutine_names (r : DockerRegistry) (repos : list string)
    (a : list repotags) (gs : list goroutine) (g : goroutine) :
  Permutation a (tag_discovery r repos) ->
  Forall2 (exited_ok a) (jobs_from 0 a) gs -> In g gs ->
  (In (seen_repo g) repos /\ exists ts, Tags r (seen_repo g) = Ok ts)
  /\ (In (logged_repo g) repos /\ exists ts, Tags r (logged_repo g) = Ok ts)
  /\ exists other curtags,
       In other repos /\ Tags r other = Ok curtags /\ In (own_tag g) curtags.
Proof.
  intros Hp Hf Hg.
  destruct (Forall2_In_r _ _ _ _ Hf Hg) as [job [Hjob [Ht [j [j' [Hs Hl]]]]]].
  destruct Hs as [_ [rt [Ej <-]]]. destruct Hl as [_ [rt' [Ej' <-]]].
  destruct (arrived_listed _ _ _ _ _ Hp Ej) as [H1 H2].
  destruct (arrived_listed _ _ _ _ _ Hp Ej') as [H3 H4].
  destruct (jobs_from_In _ _ _ Hjob) as [rt0 [E0 [Hin _]]].
  destruct (arrived_listed _ _ _ _ _ Hp E0) as [H5 H6].
  repeat split; eauto.
  exists (repo rt0), (tags rt0). rewrite Ht. auto.
Qed.

(** X5: whatever the interleaving, an image returned by [fetch_images] is
    the answer of [ImageDetails] for a key made of a repository of the input
    whose tags were read and a tag listed for some repository of the input;
    and so is the call behind every log line, which names a repository of
    the input as well. *)
Theorem requests_pair_a_listed_repository_with_a_listed_tag (r : DockerRegistry)
    (repos : list string) (filters : list ImgFilter)
    (out : list DockerImage) (lines : list string) :
  runs_to r repos filters (out, lines) ->
  (forall img, In img out ->
     exists currepo tag,
       ImageDetails r (currepo ++ ":" ++ tag)%string = Ok img
       /\ In currepo repos /\ (exists ts, Tags r currepo = Ok ts)
       /\ exists other curtags,
            In other repos /\ Tags r other = Ok curtags /\ In tag curtags)
  /\ (forall line, In line lines ->
        exists currepo named tag e,
          ImageDetails r (currepo ++ ":" ++ tag)%string = Err e
          /\ line = ("Unable to get image (" ++ named ++ ":" ++ tag ++ "): " ++ e)%string
          /\ In currepo repos /\ (exists ts, Tags r currepo = Ok ts)
          /\ In named repos /\ (exists ts, Tags r named = Ok ts)
          /\ exists other curtags,
               In other repos /\ Tags r other = Ok curtags /\ In tag curtags).
Proof.
  intros [st [Hr [Hp E]]]. injection E as -> ->.
  destruct (returned_state _ _ _ _ Hr Hp) as [gs [_ [Ha [Hf [Hi Hl]]]]].
  split.
  - intros img Hin. apply (Permutation_in _ Hi) in Hin.
    apply filter_In in Hin. destruct Hin as [Hin _].
    apply In_sent, in_map_iff in Hin. destruct Hin as [g [Hg Hgs]].
    unfold fetch_goroutine in Hg.
    destruct (ImageDetails r (image_key g)) as [img'|e] eqn:Ei; [|discriminate].
    injection Hg as ->.
    destruct (exited_goroutine_names _ _ _ _ _ Ha Hf Hgs) as [[H1 H2] [_ H3]].
    exists (seen_repo g), (own_tag g). auto.
  - intros line Hin. apply (Permutation_in _ Hl) in Hin.
    apply In_logged, in_map_iff in Hin. destruct Hin as [g [Hg Hgs]].
    unfold fetch_goroutine in Hg.
    destruct (ImageDetails r (image_key g)) as [img'|e] eqn:Ei; [discriminate|].
    injection Hg as <-.
    destruct (exited_goroutine_names _ _ _ _ _ Ha Hf Hgs) as [[H1 H2] [[H3 H4] H5]].
    exists (seen_repo g), (logged_repo g), (own_tag g), e. repeat split; auto.
Qed.

Lemma requests_pair_a_listed_repository_with_a_listed_tag_witness :
  exists currepo tag,
    ImageDetails two_repos (currepo ++ ":" ++ tag)%string = Ok (image "front" "stable" 200)
    /\ In currepo ["back"; "front"] /\ (exists ts, Tags two_repos currepo = Ok ts)
    /\ exists other curtags,
         In other ["back"; "front"] /\ Tags two_repos other = Ok curtags /\ In tag curtags.
Proof.
  apply (proj1 (requests_pair_a_listed_repository_with_a_listed_tag two_repos
                  ["back"; "front"] [] _ _ two_repos_run_overtaken)).
  now left.
Defined.

(** ** [fetch_images_older_than_n_latest]: what is held back *)

Lemma newest_first_split (pre post : list DockerImage) :
  newest_first (pre ++ post) ->
  forall a b, In a pre -> In b post -> Created b <= Created a.
Proof.
  unfold newest_first. induction pre as [|x pre IH]; intros Hs a b Ha Hb; [contradiction|].
  cbn in Hs. inversion Hs as [|? ? Hs' Hall]; subst.
  destruct Ha as [<- | Ha].
  - rewrite Forall_app in Hall. destruct Hall as [_ Hall].
    rewrite Forall_forall in Hall. now apply Hall.
  - now apply IH.
Qed.

Lemma older_run_origin (r : DockerRegistry) (filters : list ImgFilter) (n : Z)
    (repos : list string) (allimgs : list DockerImage) (lg : list string)
    (o : outcome (list DockerImage * list string)) :
  0 <= n -> older_run r filters n repos allimgs lg o ->
  forall out lines img, o = Returned (out, lines) -> In img out ->
    In img allimgs
    \/ exists currepo repoimgs lg',
         In currepo repos /\ runs_to r [currepo] filters (repoimgs, lg')
         /\ Z.of_nat (length repoimgs) > n
         /\ In img (skipn (Z.to_nat n) repoimgs).
Proof.
  intros Hn. induction 1 as [allimgs lg | currepo rest allimgs lg repoimgs ls tail o Hrun Hgt Hsl _ IH
                             | currepo rest allimgs lg repoimgs ls Hrun Hgt Hsl
                             | currepo rest allimgs lg repoimgs ls o Hrun Hle _ IH];
    intros out lines img E Hin.
  - injection E as <- <-. now left.
  - destruct (IH _ _ _ E Hin) as [Ha | [c [ri [l' [Hc H]]]]].
    + apply in_app_iff in Ha. destruct Ha as [Ha | Ha]; [now left|].
      right. exists currepo, repoimgs, ls. split; [now left|]. split; [exact Hrun|].
      unfold slice_from in Hsl.
      destruct ((0 <=? n) && (n <=? Z.of_nat (length repoimgs))); [|discriminate].
      injection Hsl as <-. split; [lia | exact Ha].
    + right. exists c, ri, l'. split; [now right | exact H].
  - discriminate.
  - destruct (IH _ _ _ E Hin) as [Ha | [c [ri [l' [Hc H]]]]]; [now left|].
    right. exists c, ri, l'. split; [now right | exact H].
Qed.

(** X6: for [n >= 0], an image returned by
    [fetch_images_older_than_n_latest] comes from the run of [fetch_images]
    on one repository of the input, after the first [n] images of that run,
    and none of these [n] is older than it. *)
Theorem the_n_newest_of_each_repository_are_held_back (r : DockerRegistry)
    (filters : list ImgFilter) (n : Z) (repos : list string)
    (out : list DockerImage) (lines : list string) (img : DockerImage) :
  0 <= n -> older_run r filters n repos [] [] (Returned (out, lines)) -> In img out ->
  exists currepo kept rest lg,
    In currepo repos
    /\ runs_to r [currepo] filters (kept ++ rest, lg)
    /\ Z.of_nat (length kept) = n
    /\ In img rest
    /\ forall newer, In newer kept -> Created img <= Created newer.
Proof.
  intros Hn Hrun Hin.
  destruct (older_run_origin _ _ _ _ _ _ _ Hn Hrun _ _ _ eq_refl Hin)
    as [[] | [currepo [repoimgs [lg [Hc [Hr [Hlen Hs]]]]]]].
  exists currepo, (firstn (Z.to_nat n) repoimgs), (skipn (Z.to_nat n) repoimgs), lg.
  rewrite firstn_skipn. split; [exact Hc|]. split; [exact Hr|].
  split; [rewrite length_firstn; lia|]. split; [exact Hs|].
  intros newer Hk. apply (newest_first_split (firstn (Z.to_nat n) repoimgs)
                            (skipn (Z.to_nat n) repoimgs)); auto.
  rewrite firstn_skipn. exact (run_newest_first _ _ _ _ Hr).
Qed.

Lemma the_n_newest_of_each_repository_are_held_back_witness :
  exists currepo kept rest lg,
    In currepo ["back"]
    /\ runs_to same_second [currepo] [] (kept ++ rest, lg)
    /\ Z.of_nat (length kept) = 1
    /\ In (image "back" "green" 500) rest
    /\ forall newer, In newer kept -> Created (image "back" "green" 500) <= Created newer.
Proof.
  apply (the_n_newest_of_each_repository_are_held_back same_second [] 1 ["back"]
           [image "back" "green" 500] []).
  - lia.
  - eapply older_run_append.
    + exact same_second_run_in_order.
    + reflexivity.
    + reflexivity.
    + apply older_run_done.
  - now left.
Defined.

(** ** Library functions *)

Lemma prefix_empty (s : string) : String.prefix "" s = true.
Proof. now destruct s. Qed.

Lemma Contains_byte (c d : ascii) (s : string) :
  Contains (String d s) (String c "") = Ascii.eqb d c || Contains s (String c "").
Proof.
  cbn [Contains String.prefix]. rewrite prefix_empty.
  destruct (Ascii.ascii_dec c d) as [->|Hn].
  - now rewrite Ascii.eqb_refl.
  - destruct (Ascii.eqb_spec d c); [congruence | reflexivity].
Qed.

Lemma Split_not_nil (s : string) (sep : ascii) : Split s sep <> [].
Proof.
  destruct s as [|c s]; cbn; [discriminate|].
  destruct (Ascii.eqb c sep); [discriminate|]. destruct (Split s sep); discriminate.
Qed.

Lemma Split_without (s : string) (sep : ascii) :
  Contains s (String sep "") = false -> Split s sep = [s].
Proof.
  induction s as [|c s IH]; [reflexivity|].
  rewrite Contains_byte, orb_false_iff. intros [Hc Hs].
  cbn [Split]. now rewrite Hc, (IH Hs).
Qed.

Lemma Split_append (s t : string) (sep : ascii) :
  Contains s (String sep "") = false ->
  Split (s ++ String sep t) sep = s :: Split t sep.
Proof.
  induction s as [|c s IH].
  - intros _. cbn. now rewrite Ascii.eqb_refl.
  - rewrite Contains_byte, orb_false_iff. intros [Hc Hs].
    cbn [Split append]. now rewrite Hc, (IH Hs).
Qed.

(** The pieces hold no separator, and joined by it they give the string back. *)
Lemma Split_pieces (s : string) (sep : ascii) :
  Forall (fun piece => Contains piece (String sep "") = false) (Split s sep)
  /\ String.concat (String sep "") (Split s sep) = s.
Proof.
  induction s as [|c s [IHf IHc]]; [split; [repeat constructor | reflexivity]|].
  cbn [Split]. destruct (Ascii.eqb_spec c sep) as [->|Hn].
  - split; [constructor; [reflexivity | exact IHf]|].
    cbn [String.concat]. destruct (Split s sep) eqn:E; [now elim (Split_not_nil s sep)|].
    now rewrite IHc.
  - destruct (Split s sep) as [|piece pieces] eqn:E; [now elim (Split_not_nil s sep)|].
    inversion IHf as [|? ? Hp Hps]; subst. split.
    + constructor; [|exact Hps]. rewrite Contains_byte, Hp.
      destruct (Ascii.eqb_spec c sep); [contradiction | reflexivity].
    + destruct pieces; reflexivity.
Qed.

Lemma substring_all (s : string) : substring 0 (String.length s) s = s.
Proof. induction s as [|c s IH]; cbn; [reflexivity | now rewrite IH]. Qed.

Lemma substring_after (pre s : string) :
  substring (String.length pre) (String.length s) (pre ++ s) = s.
Proof. induction pre as [|c pre IH]; cbn; [apply substring_all | exact IH]. Qed.

Lemma length_append (s t : string) :
  String.length (s ++ t) = (String.length s + String.length t)%nat.
Proof. induction s as [|c s IH]; cbn; [reflexivity | now rewrite IH]. Qed.

Lemma substring_split (n : nat) (s : string) :
  (n <= String.length s)%nat ->
  s = (substring 0 n s ++ substring n (String.length s - n) s)%string.
Proof.
  revert n. induction s as [|c s IH]; intros [|n] H; cbn in *; try lia.
  - reflexivity.
  - now rewrite substring_all.
  - f_equal. apply IH. lia.
Qed.

Lemma HasSuffix_append (s suffix : string) :
  HasSuffix s suffix = true <-> exists before, s = (before ++ suffix)%string.
Proof.
  unfold HasSuffix. rewrite andb_true_iff, Nat.leb_le, String.eqb_eq. split.
  - intros [Hl E]. exists (substring 0 (String.length s - String.length suffix) s).
    pose proof (substring_split (String.length s - String.length suffix) s) as H.
    replace (String.length s - (String.length s - String.length suffix))%nat
      with (String.length suffix) in H by lia.
    rewrite E in H. apply H. lia.
  - intros [before ->]. rewrite length_append. split; [lia|].
    replace (String.length before + String.length suffix - String.length suffix)%nat
      with (String.length before) by lia.
    apply substring_after.
Qed.

Lemma Split_length_append (s t : string) (sep : ascii) :
  length (Split (s ++ String sep t) sep)
  = (length (Split s sep) + length (Split t sep))%nat.
Proof.
  induction s as [|c s IH]; cbn [Split append].
  - now rewrite Ascii.eqb_refl.
  - destruct (Ascii.eqb c sep); cbn [length]; [now rewrite IH|].
    destruct (Split (s ++ String sep t) sep) eqn:E1; [now elim (Split_not_nil _ _ E1)|].
    destruct (Split s sep) eqn:E2; [now elim (Split_not_nil _ _ E2)|].
    cbn [length] in *. lia.
Qed.

Lemma Split_length_with (s : string) (sep : ascii) :
  Contains s (String sep "") = true -> (2 <= length (Split s sep))%nat.
Proof.
  induction s as [|c s IH]; [discriminate|].
  rewrite Contains_byte. cbn [Split]. destruct (Ascii.eqb c sep); cbn [orb].
  - intros _. cbn [length]. destruct (Split s sep) eqn:E; [now elim (Split_not_nil _ _ E)|].
    cbn. lia.
  - intros H. specialize (IH H). destruct (Split s sep); cbn [length] in *; lia.
Qed.

Lemma repo_and_tag_many (image : string) :
  (3 <= length (Split image ":"%char))%nat ->
  wire.repo_and_tag image = Err "Image must be in the form 'repository:tag'".
Proof.
  unfold wire.repo_and_tag. destruct (Split image ":") as [|a [|b [|c l]]]; cbn; try lia.
  reflexivity.
Qed.

(** ** [ImageDetails]: the name of the image *)

(** X7: [ImageDetails] splits the key [currepo + ":" + tag] that a
    goroutine of [fetch_images] passes to it back into that repository and
    that tag, unless one of the two holds a colon: then it returns the
    error about the form of the image. *)
Theorem ImageDetails_reads_back_the_key_of_fetch_images (g : goroutine) :
  wire.repo_and_tag (image_key g)
  = if Contains (seen_repo g) ":" || Contains (own_tag g) ":"
    then Err "Image must be in the form 'repository:tag'"
    else Ok (seen_repo g, own_tag g).
Proof.
  unfold image_key.
  destruct (Contains (seen_repo g) ":") eqn:Hr; cbn [orb].
  - apply repo_and_tag_many.
    change (seen_repo g ++ ":" ++ own_tag g)%string
      with (seen_repo g ++ String ":" (own_tag g))%string.
    rewrite Split_length_append. apply Split_length_with in Hr.
    destruct (Split (own_tag g) ":") eqn:E; [now elim (Split_not_nil _ _ E)|].
    cbn [length]. lia.
  - destruct (Contains (own_tag g) ":") eqn:Ht.
    + apply repo_and_tag_many.
      change (seen_repo g ++ ":" ++ own_tag g)%string
        with (seen_repo g ++ String ":" (own_tag g))%string.
      rewrite Split_length_append. apply Split_length_with in Ht.
      destruct (Split (seen_repo g) ":") eqn:E; [now elim (Split_not_nil _ _ E)|].
      cbn [length]. lia.
    + unfold wire.repo_and_tag.
      change (seen_repo g ++ ":" ++ own_tag g)%string
        with (seen_repo g ++ String ":" (own_tag g))%string.
      now rewrite (Split_append _ _ _ Hr), (Split_without _ _ Ht).
Qed.

(** X8: [ImageDetails] takes a name with one colon at most.  With one, the
    name is the repository, a colon and the tag; with none, it is the
    repository and the tag is [latest]; with two or more, the error about
    the form of the image is returned. *)
Theorem ImageDetails_takes_one_colon_at_most (image : string) :
  match wire.repo_and_tag image with
  | Ok (repo, tag) =>
      Contains repo ":" = false
      /\ ((image = (repo ++ ":" ++ tag)%string /\ Contains tag ":" = false)
          \/ (image = repo /\ tag = "latest"))
  | Err e =>
      e = "Image must be in the form 'repository:tag'"
      /\ exists a b c, image = (a ++ ":" ++ b ++ ":" ++ c)%string
  end.
Proof.
  unfold wire.repo_and_tag.
  destruct (Split_pieces image ":"%char) as [Hf Hc].
  destruct (Split image ":") as [|a [|b [|c l]]] eqn:E.
  - now elim (Split_not_nil _ _ E).
  - inversion Hf; subst. cbn in *. split; [assumption|]. now right.
  - inversion Hf as [|? ? Ha Hf']; subst. inversion Hf'; subst.
    cbn. split; [assumption|]. left. split; [reflexivity | assumption].
  - split; [reflexivity|]. exists a, b, (String.concat ":" (c :: l)).
    now rewrite <- Hc.
Qed.

(** X9: for a name without a colon, [ImageDetails] does what it does for
    the name followed by [:latest]. *)
Theorem ImageDetails_of_a_bare_name_asks_for_latest (lib : library)
    (r : wire.DockerRegistry) (image : string) :
  Contains image ":" = false ->
  wire.repo_and_tag image = Ok (image, "latest")
  /\ wire.ImageDetails lib r image = wire.ImageDetails lib r (image ++ ":latest").
Proof.
  intros H.
  assert (E1 : wire.repo_and_tag image = Ok (image, "latest")).
  { unfold wire.repo_and_tag. now rewrite (Split_without _ _ H). }
  assert (E2 : wire.repo_and_tag (image ++ ":latest") = Ok (image, "latest")).
  { unfold wire.repo_and_tag.
    change (image ++ ":latest")%string with (image ++ String ":" "latest")%string.
    now rewrite (Split_append _ _ _ H). }
  split; [exact E1|]. unfold wire.ImageDetails. now rewrite E1, E2.
Qed.

Lemma ImageDetails_of_a_bare_name_asks_for_latest_witness :
  wire.repo_and_tag "back" = Ok ("back", "latest")
  /\ wire.ImageDetails example_library example_registry "back"
     = wire.ImageDetails example_library example_registry "back:latest".
Proof.
  apply (ImageDetails_of_a_bare_name_asks_for_latest example_library example_registry "back").
  reflexivity.
Defined.

(** ** Requests *)

Lemma append_empty (s : string) : (s ++ "")%string = s.
Proof. induction s as [|c s IH]; cbn; [reflexivity | now rewrite IH]. Qed.

Lemma append_assoc (s t u : string) : ((s ++ t) ++ u)%string = (s ++ t ++ u)%string.
Proof. induction s as [|c s IH]; cbn; [reflexivity | now rewrite IH]. Qed.

Lemma concat_cons (x : string) (xs : list string) :
  String.concat "" (x :: xs) = (x ++ String.concat "" xs)%string.
Proof. destruct xs; cbn; [now rewrite append_empty | reflexivity]. Qed.

Lemma Error_lines (errors : list (string * string)) (s : string) :
  fold_left (fun s err => (s ++ fst err ++ " - " ++ snd err ++ LF)%string) errors s
  = (s ++ String.concat ""
            (map (fun err => (fst err ++ " - " ++ snd err ++ LF)%string) errors))%string.
Proof.
  revert s. induction errors as [|err errors IH]; intros s.
  - cbn. now rewrite append_empty.
  - cbn [fold_left map]. rewrite IH, concat_cons. now rewrite append_assoc.
Qed.

(** The world after one request. *)
Lemma Do_world (client : http.Client) (req : http.Request) (w : world) :
  Do client req w = Returns (network w client (requests w) req) (after_requests w [req]).
Proof. reflexivity. Qed.

Lemma after_requests_nil (w : world) : after_requests w [] = w.
Proof. destruct w. unfold after_requests. cbn. now rewrite app_nil_r. Qed.

Lemma after_requests_app (w : world) (l1 l2 : list http.Request) :
  after_requests (after_requests w l1) l2 = after_requests w (l1 ++ l2).
Proof. unfold after_requests. cbn. now rewrite app_assoc. Qed.

(** What [do_api_request] does with each answer. *)
Lemma do_api_request_cases (lib : library) (A : Type) (r : wire.DockerRegistry)
    (req : http.Request) (pfunc : wire.parsefunc A) (w : world) :
  wire.do_api_request lib r req pfunc w
  = match network w (wire.client r) (requests w) req with
    | Err e => Returns (Err e) (after_requests w [req])
    | Ok resp =>
        if negb (http.StatusCode resp =? 200) && negb (http.StatusCode resp =? 202) then
          match Decode_RegistryErrorResponse lib (http.Body resp) with
          | Err _ =>
              Returns (Err ("ERROR: Unable to parse JSON for HTTP status code "
                            ++ decimal (http.StatusCode resp))%string)
                      (after_requests w [req])
          | Ok errors =>
              Returns (Err (wire.Error {| wire.Errors := errors |})) (after_requests w [req])
          end
        else pfunc resp (after_requests w [req])
    end.
Proof.
  unfold wire.do_api_request, bind. rewrite Do_world.
  destruct (network w (wire.client r) (requests w) req) as [resp|e]; [|reflexivity].
  destruct (negb (http.StatusCode resp =? 200) && negb (http.StatusCode resp =? 202));
    [|reflexivity].
  destruct (Decode_RegistryErrorResponse lib (http.Body resp)); reflexivity.
Qed.

Lemma accepted_status (resp : http.Response) :
  negb (http.StatusCode resp =? 200) && negb (http.StatusCode resp =? 202) = false
  <-> accepted resp.
Proof.
  unfold accepted.
  destruct (Z.eqb_spec (http.StatusCode resp) 200), (Z.eqb_spec (http.StatusCode resp) 202);
    cbn; intuition congruence.
Qed.

(** X10: when the registry answers a request with a status that is not 200
    or 202 and a body that decodes as its error response,
    [do_api_request] returns an error whose text is a line
    [code - message] for each error of the body, after that one request and
    without calling the parse function. *)
Theorem a_refused_request_fails_with_the_errors_of_the_registry (lib : library)
    (A : Type) (r : wire.DockerRegistry) (req : http.Request) (pfunc : wire.parsefunc A)
    (w : world) (resp : http.Response) (errors : list (string * string)) :
  network w (wire.client r) (requests w) req = Ok resp ->
  ~ accepted resp ->
  Decode_RegistryErrorResponse lib (http.Body resp) = Ok errors ->
  wire.do_api_request lib r req pfunc w
  = Returns
      (Err (String.concat ""
              (map (fun err => (fst err ++ " - " ++ snd err ++ LF)%string) errors)))
      (after_requests w [req]).
Proof.
  intros Hn Ha Hd. rewrite do_api_request_cases, Hn.
  destruct (negb (http.StatusCode resp =? 200) && negb (http.StatusCode resp =? 202)) eqn:E.
  - rewrite Hd. unfold wire.Error. cbn [wire.Errors]. now rewrite Error_lines.
  - apply accepted_status in E. contradiction.
Qed.

Lemma a_refused_request_fails_with_the_errors_of_the_registry_witness :
  wire.do_api_request example_library example_registry
    {| http.Method := "GET"; http.URL := "http://registry/v2/back/manifests/v2";
       http.Accept := None |}
    (wire.manifest_of example_library) (example_world [])
  = Returns (Err ("MANIFEST_UNKNOWN - manifest unknown" ++ LF)%string)
      (after_requests (example_world [])
         [ {| http.Method := "GET"; http.URL := "http://registry/v2/back/manifests/v2";
              http.Accept := None |} ]).
Proof.
  apply (a_refused_request_fails_with_the_errors_of_the_registry example_library _
           example_registry _ _ (example_world [])
           {| http.StatusCode := 404; http.Body := "unknown";
              http.Header := fun name =>
                if (name =? "Docker-Content-Digest")%string then [] else [] |}
           [("MANIFEST_UNKNOWN", "manifest unknown")]).
  - reflexivity.
  - unfold accepted. cbn. lia.
  - reflexivity.
Defined.

(** ** [NewDockerRegistry] *)

Lemma NewDockerRegistry_cases (lib : library) (url : string) (verify_ssl : bool) (w : world) :
  let base := if HasSuffix url "/" then (url ++ "v2/")%string else (url ++ "/v2/")%string in
  let r := {| wire.URL := base;
              wire.client := {| http.Timeout := 5;
                                http.InsecureSkipVerify := negb verify_ssl |} |} in
  let req := {| http.Method := "GET"; http.URL := base; http.Accept := None |} in
  wire.NewDockerRegistry lib url verify_ssl w
  = match url_Parse_error lib base with
    | Some e => Returns (Err e) w
    | None =>
        match network w (wire.client r) (requests w) req with
        | Err e => Returns (Err e) (after_requests w [req])
        | Ok _ =>
            Returns (Ok r)
              (World (network w) (requests w ++ [req]) (stdin w) (stdout w)
                 (stderr w ++ [("SUCCESS: established connection to " ++ base)%string]))
        end
    end.
Proof.
  cbv zeta. unfold wire.NewDockerRegistry, wire.NewRequest.
  destruct (url_Parse_error lib _); [reflexivity|].
  unfold bind. rewrite Do_world. cbn [wire.client].
  destruct (network w _ (requests w) _); reflexivity.
Qed.

(** X11: the registry [NewDockerRegistry] returns has the given URL, less
    one trailing slash if it has one, followed by [/v2/], and was returned
    after one [GET] of that URL; a trailing slash on the given URL makes no
    difference; and whatever the status of the answer to that [GET], the
    registry is returned. *)
Theorem NewDockerRegistry_ends_the_URL_in_v2 (lib : library) (url : string)
    (verify_ssl : bool) (w : world) :
  (forall r w',
     wire.NewDockerRegistry lib url verify_ssl w = Returns (Ok r) w' ->
     exists base,
       wire.URL r = (base ++ "/v2/")%string
       /\ (url = base /\ HasSuffix url "/" = false \/ url = (base ++ "/")%string)
       /\ requests w'
          = requests w ++ [ {| http.Method := "GET"; http.URL := wire.URL r;
                               http.Accept := None |} ])
  /\ (HasSuffix url "/" = false ->
      wire.NewDockerRegistry lib (url ++ "/") verify_ssl w
      = wire.NewDockerRegistry lib url verify_ssl w)
  /\ (forall base resp,
        url = base /\ HasSuffix url "/" = false \/ url = (base ++ "/")%string ->
        let r := {| wire.URL := (base ++ "/v2/")%string;
                    wire.client := {| http.Timeout := 5;
                                      http.InsecureSkipVerify := negb verify_ssl |} |} in
        url_Parse_error lib (base ++ "/v2/") = None ->
        network w (wire.client r) (requests w)
          {| http.Method := "GET"; http.URL := (base ++ "/v2/")%string;
             http.Accept := None |} = Ok resp ->
        exists w', wire.NewDockerRegistry lib url verify_ssl w = Returns (Ok r) w').
Proof.
  split; [|split].
  - intros r w'. rewrite NewDockerRegistry_cases. cbv zeta.
    destruct (url_Parse_error lib _); [discriminate|].
    destruct (network w _ (requests w) _); [|discriminate].
    intros E. injection E as <- <-. cbn [wire.URL requests].
    destruct (HasSuffix url "/") eqn:Hs.
    + apply HasSuffix_append in Hs. destruct Hs as [base ->].
      exists base. rewrite append_assoc. auto.
    + exists url. auto.
  - intros Hs. rewrite !NewDockerRegistry_cases. cbv zeta.
    assert (Hs' : HasSuffix (url ++ "/") "/" = true)
      by (apply HasSuffix_append; now exists url).
    rewrite Hs, Hs', append_assoc. reflexivity.
  - intros base resp Hb r Hu Hn. subst r. cbn [wire.client] in Hn.
    rewrite NewDockerRegistry_cases. cbv zeta.
    assert (Eb : (if HasSuffix url "/" then (url ++ "v2/")%string else (url ++ "/v2/")%string)
                 = (base ++ "/v2/")%string).
    { destruct Hb as [[-> ->] | ->]; [reflexivity|].
      assert (Hs : HasSuffix (base ++ "/") "/" = true)
        by (apply HasSuffix_append; now exists base).
      rewrite Hs. apply append_assoc. }
    rewrite Eb, Hu. cbn [wire.client]. rewrite Hn. eexists. reflexivity.
Qed.

(** ** [DeleteImage] *)

Lemma DeleteImage_cases (lib : library) (r : wire.DockerRegistry) (img : DockerImage)
    (w : world) :
  wire.DeleteImage lib r img w
  = match wire.NewRequest lib "DELETE"
            (wire.URL r ++ Name img ++ "/manifests/" ++ ContentDigest img) with
    | Err e => Returns (Err e) w
    | Ok req =>
        match network w (wire.client r) (requests w) req with
        | Err e => Returns (Err e) (after_requests w [req])
        | Ok resp =>
            if negb (http.StatusCode resp =? 200) && negb (http.StatusCode resp =? 202) then
              match Decode_RegistryErrorResponse lib (http.Body resp) with
              | Err _ =>
                  Returns (Err ("ERROR: Unable to parse JSON for HTTP status code "
                                ++ decimal (http.StatusCode resp))%string)
                          (after_requests w [req])
              | Ok errors =>
                  Returns (Err (wire.Error {| wire.Errors := errors |}))
                          (after_requests w [req])
              end
            else Returns (Ok tt) (after_requests w [req])
        end
    end.
Proof.
  unfold wire.DeleteImage.
  destruct (wire.NewRequest lib "DELETE" _) as [req|e]; [|reflexivity].
  now rewrite do_api_request_cases.
Qed.

(** The world after a call of [DeleteImage], whatever it returned. *)
Lemma DeleteImage_world (lib : library) (r : wire.DockerRegistry) (img : DockerImage)
    (w : world) :
  exists answer,
    wire.DeleteImage lib r img w
    = Returns answer (after_requests w (delete_requests lib r [img])).
Proof.
  rewrite DeleteImage_cases. unfold delete_requests. cbn [flat_map].
  destruct (wire.NewRequest lib "DELETE" _) as [req|e].
  - cbn [app].
    destruct (network w (wire.client r) (requests w) req) as [resp|e]; [|eauto].
    destruct (negb (http.StatusCode resp =? 200) && negb (http.StatusCode resp =? 202));
      [|eauto].
    destruct (Decode_RegistryErrorResponse lib (http.Body resp)); eauto.
  - cbn [app]. rewrite after_requests_nil. eauto.
Qed.



(** ** [ImageDetails] *)

Lemma quiet_ret {A : Type} (a : A) : quiet (ret a).
Proof. intros w. left. now exists a. Qed.

Lemma quiet_panic {A : Type} (msg : string) : quiet (@panic A msg).
Proof. intros w. right. now exists msg. Qed.

Lemma quiet_bind {A B : Type} (m : io A) (k : A -> io B) :
  quiet m -> (forall a, quiet (k a)) -> quiet (bind m k).
Proof.
  intros Hm Hk w. unfold bind.
  destruct (Hm w) as [[a ->] | [msg ->]]; [apply Hk | right; now exists msg].
Qed.

Lemma quiet_assert_map (v : option json) : quiet (assert_map v).
Proof.
  destruct v as [[]|]; cbn [assert_map]; unfold conversion_panic;
    auto using @quiet_ret, @quiet_panic.
Qed.

Lemma quiet_assert_string (v : option json) : quiet (assert_string v).
Proof.
  destruct v as [[]|]; cbn [assert_string]; unfold conversion_panic;
    auto using @quiet_ret, @quiet_panic.
Qed.

Lemma quiet_assert_slice (v : option json) : quiet (assert_slice v).
Proof.
  destruct v as [[]|]; cbn [assert_slice]; unfold conversion_panic;
    auto using @quiet_ret, @quiet_panic.
Qed.

Lemma quiet_first_of {A : Type} (s : list A) : quiet (first_of s).
Proof. destruct s; cbn; auto using @quiet_ret, @quiet_panic. Qed.

(** The parse functions touch nothing. *)
Lemma manifest_of_world (lib : library) (resp : http.Response) :
  quiet (wire.manifest_of lib resp).
Proof.
  unfold wire.manifest_of.
  destruct (json_Decode lib (http.Body resp)) as [jsoncontent|e]; [|apply quiet_ret].
  repeat (apply quiet_bind;
          [first [apply quiet_assert_map | apply quiet_assert_string
                 | apply quiet_assert_slice | apply quiet_first_of]
          | intros ?]).
  destruct (time_Parse lib _ _); apply quiet_ret.
Qed.

Lemma digest_of_world (resp : http.Response) : quiet (wire.digest_of resp).
Proof.
  unfold wire.digest_of. apply quiet_bind; [apply quiet_first_of | intros; apply quiet_ret].
Qed.

Lemma do_api_request_world (lib : library) (A : Type) (r : wire.DockerRegistry)
    (req : http.Request) (pfunc : wire.parsefunc A) (w : world) :
  (forall resp, quiet (pfunc resp)) ->
  (exists answer,
     wire.do_api_request lib r req pfunc w = Returns answer (after_requests w [req]))
  \/ (exists msg,
        wire.do_api_request lib r req pfunc w = Panics msg (after_requests w [req])).
Proof.
  intros Hp. rewrite do_api_request_cases.
  destruct (network w (wire.client r) (requests w) req) as [resp|e]; [|left; eauto].
  destruct (negb (http.StatusCode resp =? 200) && negb (http.StatusCode resp =? 202)).
  - destruct (Decode_RegistryErrorResponse lib (http.Body resp)); left; eauto.
  - apply Hp.
Qed.

(** The two requests of [ImageDetails]. *)
Lemma ImageDetails_steps (lib : library) (r : wire.DockerRegistry) (image : string)
    (w : world) :
  wire.ImageDetails lib r image w
  = match wire.repo_and_tag image with
    | Err e => Returns (Err e) w
    | Ok (repo, tag) =>
        match url_Parse_error lib (wire.URL r ++ repo ++ "/manifests/" ++ tag) with
        | Some e => Returns (Err e) w
        | None =>
            let req := {| http.Method := "GET";
                          http.URL := (wire.URL r ++ repo ++ "/manifests/" ++ tag)%string;
                          http.Accept := None |} in
            let req' := {| http.Method := "GET";
                           http.URL := (wire.URL r ++ repo ++ "/manifests/" ++ tag)%string;
                           http.Accept :=
                             Some "application/vnd.docker.distribution.manifest.v2+json" |} in
            match wire.do_api_request lib r req (wire.manifest_of lib) w with
            | Returns (Ok (name, tag', created)) w1 =>
                match wire.do_api_request lib r req' wire.digest_of w1 with
                | Returns (Ok digest) w2 =>
                    Returns (Ok {| Name := name; Tag := tag'; ContentDigest := digest;
                                   Created := created |}) w2
                | Returns (Err e) w2 => Returns (Err e) w2
                | Panics msg w2 => Panics msg w2
                | Exits code w2 => Exits code w2
                | Running w2 => Running w2
                end
            | Returns (Err e) w1 => Returns (Err e) w1
            | Panics msg w1 => Panics msg w1
            | Exits code w1 => Exits code w1
            | Running w1 => Running w1
            end
        end
    end.
Proof.
  unfold wire.ImageDetails.
  destruct (wire.repo_and_tag image) as [[repo tag]|e]; [|reflexivity].
  unfold wire.NewRequest.
  destruct (url_Parse_error lib _); [reflexivity|].
  cbv zeta. unfold bind at 1. cbn [http.Method http.URL].
  destruct (wire.do_api_request lib r _ (wire.manifest_of lib) w) as [[[[name tag'] created]|e] w1| | |];
    try reflexivity.
  unfold bind.
  destruct (wire.do_api_request lib r _ wire.digest_of w1) as [[digest|e] w2| | |];
    reflexivity.
Qed.

Lemma ImageDetails_world (lib : library)
    (r : wire.DockerRegistry) (image : string) (w : world) :
  exists added,
    world_of (wire.ImageDetails lib r image w) = after_requests w added
    /\ (length added <= 2)%nat
    /\ exists url,
         Forall (fun req => http.Method req = "GET" /\ http.URL req = url) added.
Proof.
  rewrite ImageDetails_steps.
  destruct (wire.repo_and_tag image) as [[repo tag]|e].
  2: { exists []. rewrite after_requests_nil. cbn.
       split; [reflexivity|]. split; [lia|]. exists "". constructor. }
  destruct (url_Parse_error lib _).
  { exists []. rewrite after_requests_nil. cbn.
    split; [reflexivity|]. split; [lia|]. exists "". constructor. }
  cbv zeta.
  set (req := {| http.Method := "GET"; http.Accept := None |}).
  set (req' := {| http.Method := "GET"; http.Accept := Some _ |}).
  destruct (do_api_request_world lib _ r req (wire.manifest_of lib) w
              (manifest_of_world lib)) as [[answer E] | [msg E]]; rewrite E.
  - destruct answer as [[[name tag'] created]|e].
    + destruct (do_api_request_world lib _ r req' wire.digest_of (after_requests w [req])
                  digest_of_world) as [[answer' E'] | [msg E']]; rewrite E'.
      * exists [req; req']. rewrite after_requests_app.
        destruct answer'; cbn; (split; [reflexivity|]); (split; [lia|]);
          eexists; repeat constructor.
      * exists [req; req']. rewrite after_requests_app. cbn.
        split; [reflexivity|]. split; [lia|]. eexists; repeat constructor.
    + exists [req]. cbn. split; [reflexivity|]. split; [lia|]. eexists; repeat constructor.
  - exists [req]. cbn. split; [reflexivity|]. split; [lia|]. eexists; repeat constructor.
Qed.

(** X13: whatever it returns and however it ends, [ImageDetails] makes two
    requests at most, both [GET] requests of one URL, and changes nothing
    else. *)
Theorem ImageDetails_makes_two_GET_requests_at_most (lib : library)
    (r : wire.DockerRegistry) (image : string) (w : world) :
  exists added,
    world_of (wire.ImageDetails lib r image w) = after_requests w added
    /\ (length added <= 2)%nat
    /\ exists url,
         Forall (fun req => http.Method req = "GET" /\ http.URL req = url) added.
Proof. apply ImageDetails_world. Qed.

Lemma manifest_of_returns (lib : library) (resp : http.Response) (w w' : world)
    (name tag : string) (created : Time) :
  wire.manifest_of lib resp w = Returns (Ok (name, tag, created)) w'
  <-> describes lib (http.Body resp) name tag created /\ w' = w.
Proof.
  unfold wire.manifest_of, describes. split.
  - intros H.
    destruct (json_Decode lib (http.Body resp)) as [jsoncontent|e] eqn:Ed;
      [|cbn in H; discriminate].
    destruct jsoncontent as [| | | | |toplevel]; try (cbn in H; discriminate).
    cbn in H.
    destruct (lookup "name" toplevel) as [[| | |name0| |]|] eqn:En;
      try (cbn in H; discriminate).
    cbn in H.
    destruct (lookup "tag" toplevel) as [[| | |tag0| |]|] eqn:Et;
      try (cbn in H; discriminate).
    cbn in H.
    destruct (lookup "history" toplevel) as [[| | | |layers|]|] eqn:Eh;
      try (cbn in H; discriminate).
    cbn in H.
    destruct layers as [|layer layers]; [cbn in H; discriminate|].
    cbn in H.
    destruct layer as [| | | | |entry]; try (cbn in H; discriminate).
    cbn in H.
    destruct (lookup "v1Compatibility" entry) as [[| | |history| |]|] eqn:Ev;
      try (cbn in H; discriminate).
    cbn in H.
    destruct (match json_Unmarshal lib history with Ok v => v | Err _ => json_object toplevel end)
      as [| | | | |firstlayer] eqn:Eu; try (cbn in H; discriminate).
    cbn in H.
    destruct (lookup "created" firstlayer) as [[| | |timestring| |]|] eqn:Ec;
      try (cbn in H; discriminate).
    cbn in H.
    destruct (time_Parse lib "2006-01-02T15:04:05Z" timestring) as [t|e] eqn:Ep;
      cbn in H; [|discriminate].
    injection H as <- <- <- <-.
    split; [|reflexivity].
    exists toplevel, entry, layers, history, firstlayer, timestring. auto 10.
  - intros [[toplevel [entry [layers [history [firstlayer [timestring
             [Ed [En [Et [Eh [Ev [Eu [Ec Ep]]]]]]]]]]]]] ->].
    rewrite Ed. cbn. rewrite En. cbn. rewrite Et. cbn. rewrite Eh. cbn. rewrite Ev. cbn.
    rewrite Eu. cbn. rewrite Ec. cbn. rewrite Ep. reflexivity.
Qed.

Lemma do_api_request_returns (lib : library) (A : Type) (r : wire.DockerRegistry)
    (req : http.Request) (pfunc : wire.parsefunc A) (w w' : world) (a : A) :
  wire.do_api_request lib r req pfunc w = Returns (Ok a) w'
  <-> exists resp,
        network w (wire.client r) (requests w) req = Ok resp /\ accepted resp
        /\ pfunc resp (after_requests w [req]) = Returns (Ok a) w'.
Proof.
  rewrite do_api_request_cases.
  destruct (network w (wire.client r) (requests w) req) as [resp|e].
  - destruct (negb (http.StatusCode resp =? 200) && negb (http.StatusCode resp =? 202)) eqn:E.
    + assert (Hn : ~ accepted resp) by (intros Ha; apply accepted_status in Ha; congruence).
      split.
      * destruct (Decode_RegistryErrorResponse lib (http.Body resp)); discriminate.
      * intros [resp' [[= <-] [Ha _]]]. contradiction.
    + apply accepted_status in E. split.
      * intros H. now exists resp.
      * intros [resp' [[= <-] [_ H]]]. exact H.
  - split; [discriminate | intros [resp [H _]]; discriminate].
Qed.

Lemma digest_of_returns (resp : http.Response) (w w' : world) (digest : string) :
  wire.digest_of resp w = Returns (Ok digest) w'
  <-> (exists digests, http.Header resp "Docker-Content-Digest" = digest :: digests)
      /\ w' = w.
Proof.
  unfold wire.digest_of, bind.
  destruct (http.Header resp "Docker-Content-Digest") as [|d ds]; cbn.
  - split; [discriminate | intros [[ds [=]] _]].
  - split.
    + intros [= <- <-]. split; [now exists ds | reflexivity].
    + intros [[ds' [= <- <-]] ->]. reflexivity.
Qed.

(** X14: [ImageDetails] returns an image exactly when both [GET] requests of
    the manifest are accepted, the first body is a manifest with a name, a
    tag and a first history entry whose [created] time parses, and the
    second answer has a [Docker-Content-Digest] header; the image holds
    these four values, the [Name] and the [Tag] being the ones of the
    manifest and not the ones asked for. *)
Theorem ImageDetails_returns_what_the_registry_answered (lib : library)
    (r : wire.DockerRegistry) (image : string) (w w' : world) (img : DockerImage) :
  wire.ImageDetails lib r image w = Returns (Ok img) w'
  <-> exists repo tag first second digests,
        wire.repo_and_tag image = Ok (repo, tag)
        /\ url_Parse_error lib (wire.URL r ++ repo ++ "/manifests/" ++ tag) = None
        /\ let req := {| http.Method := "GET";
                         http.URL := (wire.URL r ++ repo ++ "/manifests/" ++ tag)%string;
                         http.Accept := None |} in
           let req' := {| http.Method := "GET";
                          http.URL := (wire.URL r ++ repo ++ "/manifests/" ++ tag)%string;
                          http.Accept :=
                            Some "application/vnd.docker.distribution.manifest.v2+json" |} in
           network w (wire.client r) (requests w) req = Ok first
           /\ accepted first
           /\ describes lib (http.Body first) (Name img) (Tag img) (Created img)
           /\ network w (wire.client r) (requests w ++ [req]) req' = Ok second
           /\ accepted second
           /\ http.Header second "Docker-Content-Digest" = ContentDigest img :: digests
           /\ w' = after_requests w [req; req'].
Proof.
  rewrite ImageDetails_steps. split.
  - destruct (wire.repo_and_tag image) as [[repo tag]|e]; [|discriminate].
    destruct (url_Parse_error lib _) eqn:Eu; [discriminate|]. cbv zeta.
    destruct (wire.do_api_request lib r _ (wire.manifest_of lib) w)
      as [[[[name tag'] created]|e] w1| | |] eqn:E1; try discriminate.
    destruct (wire.do_api_request lib r _ wire.digest_of w1)
      as [[digest|e] w2| | |] eqn:E2; try discriminate.
    intros [= <- <-].
    apply do_api_request_returns in E1. destruct E1 as [first [Hn1 [Ha1 Hm]]].
    apply manifest_of_returns in Hm. destruct Hm as [Hd ->].
    apply do_api_request_returns in E2. destruct E2 as [second [Hn2 [Ha2 Hg]]].
    apply digest_of_returns in Hg. destruct Hg as [[digests Hh] ->].
    exists repo, tag, first, second, digests. cbn [Name Tag Created ContentDigest].
    rewrite after_requests_app. cbn [app]. auto 10.
  - intros [repo [tag [first [second [digests [-> [-> H]]]]]]]. cbv zeta in H.
    destruct H as [Hn1 [Ha1 [Hd [Hn2 [Ha2 [Hh ->]]]]]]. cbv zeta.
    assert (E1 : wire.do_api_request lib r
                   {| http.Method := "GET";
                      http.URL := (wire.URL r ++ repo ++ "/manifests/" ++ tag)%string;
                      http.Accept := None |} (wire.manifest_of lib) w
                 = Returns (Ok (Name img, Tag img, Created img))
                     (after_requests w [ {| http.Method := "GET";
                        http.URL := (wire.URL r ++ repo ++ "/manifests/" ++ tag)%string;
                        http.Accept := None |} ])).
    { apply do_api_request_returns. exists first. split; [exact Hn1|]. split; [exact Ha1|].
      apply manifest_of_returns. auto. }
    rewrite E1.
    assert (E2 : wire.do_api_request lib r
                   {| http.Method := "GET";
                      http.URL := (wire.URL r ++ repo ++ "/manifests/" ++ tag)%string;
                      http.Accept :=
                        Some "application/vnd.docker.distribution.manifest.v2+json" |}
                   wire.digest_of
                   (after_requests w [ {| http.Method := "GET";
                      http.URL := (wire.URL r ++ repo ++ "/manifests/" ++ tag)%string;
                      http.Accept := None |} ])
                 = Returns (Ok (ContentDigest img))
                     (after_requests
                        (after_requests w [ {| http.Method := "GET";
                           http.URL := (wire.URL r ++ repo ++ "/manifests/" ++ tag)%string;
                           http.Accept := None |} ])
                        [ {| http.Method := "GET";
                             http.URL := (wire.URL r ++ repo ++ "/manifests/" ++ tag)%string;
                             http.Accept :=
                               Some "application/vnd.docker.distribution.manifest.v2+json" |} ])).
    { apply do_api_request_returns. exists second. split; [exact Hn2|]. split; [exact Ha2|].
      apply digest_of_returns. split; [now exists digests | reflexivity]. }
    rewrite E2, after_requests_app. cbn [app]. now destruct img.
Qed.

Lemma do_api_request_accepted (lib : library) (A : Type) (r : wire.DockerRegistry)
    (req : http.Request) (pfunc : wire.parsefunc A) (w : world) (resp : http.Response) :
  network w (wire.client r) (requests w) req = Ok resp -> accepted resp ->
  wire.do_api_request lib r req pfunc w = pfunc resp (after_requests w [req]).
Proof.
  intros Hn Ha. rewrite do_api_request_cases, Hn.
  apply accepted_status in Ha. now rewrite Ha.
Qed.

Lemma ImageDetails_unexpected (lib : library)
    (r : wire.DockerRegistry) (image repo tag : string) (w : world) (first : http.Response) :
  let req := {| http.Method := "GET";
                http.URL := (wire.URL r ++ repo ++ "/manifests/" ++ tag)%string;
                http.Accept := None |} in
  let req' := {| http.Method := "GET";
                 http.URL := (wire.URL r ++ repo ++ "/manifests/" ++ tag)%string;
                 http.Accept :=
                   Some "application/vnd.docker.distribution.manifest.v2+json" |} in
  wire.repo_and_tag image = Ok (repo, tag) ->
  url_Parse_error lib (http.URL req) = None ->
  network w (wire.client r) (requests w) req = Ok first ->
  accepted first ->
  (forall toplevel name manifest_tag,
     json_Decode lib (http.Body first) = Ok (json_object toplevel) ->
     lookup "name" toplevel = Some (json_string name) ->
     lookup "tag" toplevel = Some (json_string manifest_tag) ->
     lookup "history" toplevel = None ->
     exists msg, wire.ImageDetails lib r image w = Panics msg (after_requests w [req]))
  /\ (forall name manifest_tag created second,
        describes lib (http.Body first) name manifest_tag created ->
        network w (wire.client r) (requests w ++ [req]) req' = Ok second ->
        accepted second ->
        http.Header second "Docker-Content-Digest" = [] ->
        exists msg,
          wire.ImageDetails lib r image w = Panics msg (after_requests w [req; req'])).
Proof.
  intros req req' Hs Hu Hn Ha. unfold req in Hu. cbn [http.URL] in Hu.
  rewrite ImageDetails_steps, Hs, Hu. cbv zeta. fold req req'.
  rewrite (do_api_request_accepted lib _ r req _ w first Hn Ha).
  split.
  - intros toplevel name manifest_tag Ed En Et Eh.
    unfold wire.manifest_of. rewrite Ed. cbn. rewrite En. cbn. rewrite Et. cbn.
    rewrite Eh. cbn. eexists. reflexivity.
  - intros name manifest_tag created second Hd Hn2 Ha2 Hh.
    assert (Hm : wire.manifest_of lib first (after_requests w [req])
                 = Returns (Ok (name, manifest_tag, created)) (after_requests w [req]))
      by (apply manifest_of_returns; auto).
    rewrite Hm.
    rewrite (do_api_request_accepted lib _ r req' _ (after_requests w [req]) second Hn2 Ha2).
    unfold wire.digest_of, bind. rewrite Hh. cbn.
    rewrite after_requests_app. eexists. reflexivity.
Qed.

(** X15: [ImageDetails] panics, and returns no error, when the accepted
    manifest has a name and a tag but no [history], after one request; and
    when the second answer is accepted without a [Docker-Content-Digest]
    header, after both requests. *)
Theorem ImageDetails_panics_on_an_answer_it_does_not_expect (lib : library)
    (r : wire.DockerRegistry) (image repo tag : string) (w : world) (first : http.Response) :
  let req := {| http.Method := "GET";
                http.URL := (wire.URL r ++ repo ++ "/manifests/" ++ tag)%string;
                http.Accept := None |} in
  let req' := {| http.Method := "GET";
                 http.URL := (wire.URL r ++ repo ++ "/manifests/" ++ tag)%string;
                 http.Accept :=
                   Some "application/vnd.docker.distribution.manifest.v2+json" |} in
  wire.repo_and_tag image = Ok (repo, tag) ->
  url_Parse_error lib (http.URL req) = None ->
  network w (wire.client r) (requests w) req = Ok first ->
  accepted first ->
  (forall toplevel name manifest_tag,
     json_Decode lib (http.Body first) = Ok (json_object toplevel) ->
     lookup "name" toplevel = Some (json_string name) ->
     lookup "tag" toplevel = Some (json_string manifest_tag) ->
     lookup "history" toplevel = None ->
     exists msg, wire.ImageDetails lib r image w = Panics msg (after_requests w [req]))
  /\ (forall name manifest_tag created second,
        describes lib (http.Body first) name manifest_tag created ->
        network w (wire.client r) (requests w ++ [req]) req' = Ok second ->
        accepted second ->
        http.Header second "Docker-Content-Digest" = [] ->
        exists msg,
          wire.ImageDetails lib r image w = Panics msg (after_requests w [req; req'])).
Proof. apply ImageDetails_unexpected. Qed.

Lemma ImageDetails_panics_on_an_answer_it_does_not_expect_witness :
  exists msg,
    wire.ImageDetails example_library example_registry "back:v3" (example_world [])
    = Panics msg
        (after_requests (example_world [])
           [ {| http.Method := "GET"; http.URL := "http://registry/v2/back/manifests/v3";
                http.Accept := None |} ]).
Proof.
  refine (proj1 (ImageDetails_panics_on_an_answer_it_does_not_expect example_library
                   example_registry "back:v3" "back" "v3" (example_world [])
                   {| http.StatusCode := 200; http.Body := "schema2";
                      http.Header := fun name =>
                        if (name =? "Docker-Content-Digest")%string
                        then ["sha256:0123456789abcdef"] else [] |}
                   eq_refl eq_refl eq_refl (or_introl eq_refl))
            [("name", json_string "back"); ("tag", json_string "v1")] "back" "v1"
            eq_refl eq_refl eq_refl eq_refl).
Defined.

(** The image of [back:v1] in the registry of the examples. *)
Example ImageDetails_in_the_example_registry :
  wire.ImageDetails example_library example_registry "back:v1" (example_world [])
  = Returns
      (Ok {| Name := "back"; Tag := "v1"; ContentDigest := "sha256:0123456789abcdef";
             Created := 1465986125 |})
      (after_requests (example_world [])
         [ {| http.Method := "GET"; http.URL := "http://registry/v2/back/manifests/v1";
              http.Accept := None |};
           {| http.Method := "GET"; http.URL := "http://registry/v2/back/manifests/v1";
              http.Accept := Some "application/vnd.docker.distribution.manifest.v2+json" |} ]).
Proof. reflexivity. Qed.

(** ** [Confirm] *)

Lemma Confirm_round (lib : library) (fuel : nat) (prompt : string) (w : world) :
  Confirm lib (S fuel) prompt w
  = let ans := match stdin w with [] => "" | ans :: _ => ans end in
    let w1 := World (network w) (requests w) (tl (stdin w)) (stdout w ++ [prompt]) (stderr w) in
    if (TrimSpace lib ans =? "y")%string then Returns true w1
    else if (TrimSpace lib ans =? "n")%string then Returns false w1
    else Confirm lib fuel prompt w1.
Proof.
  cbn [Confirm]. unfold bind, Printf, ReadString. cbn [stdin network requests stdout stderr].
  destruct (stdin w) as [|ans rest]; cbn [tl];
    destruct (TrimSpace lib _ =? "y")%string; try reflexivity;
    destruct (TrimSpace lib _ =? "n")%string; reflexivity.
Qed.

Lemma passed_over_eqb (lib : library) (ans : string) :
  passed_over lib ans ->
  (TrimSpace lib ans =? "y")%string = false /\ (TrimSpace lib ans =? "n")%string = false.
Proof. intros [Hy Hn]. now rewrite <- !String.eqb_neq in *. Qed.

Lemma Confirm_first_answer (lib : library) (fuel : nat) (prompt : string)
    (w : world) (skipped : list string) (ans : string) (rest : list string) :
  stdin w = skipped ++ ans :: rest ->
  Forall (passed_over lib) skipped ->
  TrimSpace lib ans = "y" \/ TrimSpace lib ans = "n" ->
  (length skipped < fuel)%nat ->
  Confirm lib fuel prompt w
  = Returns (TrimSpace lib ans =? "y")%string
      (World (network w) (requests w) rest
         (stdout w ++ repeat prompt (S (length skipped))) (stderr w)).
Proof.
  revert fuel w. induction skipped as [|a skipped IH]; intros fuel w Hin Hs Ha Hf.
  - destruct fuel as [|fuel]; [cbn in Hf; lia|].
    rewrite Confirm_round, Hin. cbn [app tl length repeat]. cbv zeta.
    destruct Ha as [Ha | Ha]; rewrite Ha; reflexivity.
  - destruct fuel as [|fuel]; [cbn in Hf; lia|].
    inversion Hs as [|? ? Hp Hs']; subst.
    destruct (passed_over_eqb _ _ Hp) as [Ey En].
    rewrite Confirm_round, Hin. cbn [app tl]. cbv zeta. rewrite Ey, En.
    rewrite (IH fuel (World (network w) (requests w) (skipped ++ ans :: rest)
                        (stdout w ++ [prompt]) (stderr w)) eq_refl Hs' Ha)
      by (cbn in Hf; lia).
    cbn [network requests stdout stderr length]. f_equal. f_equal.
    rewrite <- app_assoc. reflexivity.
Qed.

(** X16: [Confirm] returns at the first answer read that is [y] or [n] once
    trimmed, with [true] for [y]; it has printed the prompt once for that
    answer and once for each answer passed over before it, and has read no
    further. *)
Theorem Confirm_returns_the_first_y_or_n (lib : library) (fuel : nat) (prompt : string)
    (w : world) (skipped : list string) (ans : string) (rest : list string) :
  stdin w = skipped ++ ans :: rest ->
  Forall (passed_over lib) skipped ->
  TrimSpace lib ans = "y" \/ TrimSpace lib ans = "n" ->
  (length skipped < fuel)%nat ->
  Confirm lib fuel prompt w
  = Returns (TrimSpace lib ans =? "y")%string
      (World (network w) (requests w) rest
         (stdout w ++ repeat prompt (S (length skipped))) (stderr w)).
Proof. apply Confirm_first_answer. Qed.

Lemma Confirm_returns_the_first_y_or_n_witness :
  Confirm example_library 3 "Really? " (example_world ["yes" ++ LF; " y" ++ LF; "n" ++ LF])%string
  = Returns true
      (World example_network [] ["n" ++ LF]%string ["Really? "; "Really? "] []).
Proof.
  apply (Confirm_returns_the_first_y_or_n example_library 3 "Really? "
           (example_world ["yes" ++ LF; " y" ++ LF; "n" ++ LF])%string
           ["yes" ++ LF]%string (" y" ++ LF)%string ["n" ++ LF]%string).
  - reflexivity.
  - repeat constructor; discriminate.
  - left. reflexivity.
  - cbn. lia.
Defined.

(** X17: when no answer read is [y] or [n] once trimmed, and neither is the
    empty answer read at the end of the input, [Confirm] does not return:
    after any number of rounds it is still running, having printed the
    prompt once a round. *)
Theorem Confirm_asks_again_for_ever_without_y_or_n (lib : library) (fuel : nat)
    (prompt : string) (w : world) :
  passed_over lib "" -> Forall (passed_over lib) (stdin w) ->
  Confirm lib fuel prompt w
  = Running (World (network w) (requests w) (skipn fuel (stdin w))
               (stdout w ++ repeat prompt fuel) (stderr w)).
Proof.
  intros He. revert w. induction fuel as [|fuel IH]; intros w Hs.
  - cbn. rewrite app_nil_r. now destruct w.
  - rewrite Confirm_round. cbv zeta.
    assert (Hp : passed_over lib match stdin w with [] => "" | ans :: _ => ans end).
    { destruct (stdin w) eqn:E; [exact He | now inversion Hs]. }
    destruct (passed_over_eqb _ _ Hp) as [-> ->].
    rewrite IH.
    + cbn [network requests stdin stdout stderr repeat]. f_equal. f_equal.
      * destruct (stdin w); cbn [tl skipn]; [apply skipn_nil | reflexivity].
      * rewrite <- app_assoc. reflexivity.
    + cbn [stdin]. destruct (stdin w) eqn:E; cbn [tl]; [constructor | now inversion Hs].
Qed.

Lemma Confirm_asks_again_for_ever_without_y_or_n_witness :
  Confirm example_library 5 "Really? " (example_world ["yes" ++ LF]%string)
  = Running (World example_network [] [] (repeat "Really? " 5) []).
Proof.
  apply (Confirm_asks_again_for_ever_without_y_or_n example_library 5 "Really? "
           (example_world ["yes" ++ LF]%string)).
  - split; discriminate.
  - repeat constructor; discriminate.
Defined.

(** How a call of [Confirm] ends, and what it has read and written by then. *)
Lemma Confirm_cases (lib : library) (fuel : nat) (prompt : string) (w : world) :
  passed_over lib "" ->
  exists n,
    let w' := World (network w) (requests w) (skipn n (stdin w))
                (stdout w ++ repeat prompt n) (stderr w) in
    Confirm lib fuel prompt w = Running w'
    \/ Confirm lib fuel prompt w = Returns false w'
    \/ (Confirm lib fuel prompt w = Returns true w'
        /\ exists skipped ans rest,
             stdin w = skipped ++ ans :: rest /\ Forall (passed_over lib) skipped
             /\ TrimSpace lib ans = "y").
Proof.
  intros He. revert w. induction fuel as [|fuel IH]; intros w.
  - exists O. left. cbn. rewrite app_nil_r. now destruct w.
  - rewrite Confirm_round. cbv zeta.
    destruct (String.eqb_spec (TrimSpace lib match stdin w with [] => "" | a :: _ => a end) "y")
      as [Ey|Ey].
    { exists 1%nat. right. right. destruct (stdin w) as [|a rest] eqn:E.
      - destruct He as [He _]. contradiction.
      - cbn [tl skipn repeat]. split; [reflexivity|]. exists [], a, rest. auto. }
    destruct (String.eqb_spec (TrimSpace lib match stdin w with [] => "" | a :: _ => a end) "n")
      as [En|En].
    { exists 1%nat. right. left. cbn [repeat].
      destruct (stdin w); cbn [tl skipn]; reflexivity. }
    destruct (IH (World (network w) (requests w) (tl (stdin w)) (stdout w ++ [prompt])
                    (stderr w))) as [n H].
    cbv zeta in H. cbn [network requests stdin stdout stderr] in H.
    exists (S n).
    assert (Ew : World (network w) (requests w) (skipn n (tl (stdin w)))
                   ((stdout w ++ [prompt]) ++ repeat prompt n) (stderr w)
                 = World (network w) (requests w) (skipn (S n) (stdin w))
                     (stdout w ++ repeat prompt (S n)) (stderr w)).
    { f_equal.
      - destruct (stdin w); cbn [tl skipn]; [apply skipn_nil | reflexivity].
      - rewrite <- app_assoc. reflexivity. }
    rewrite Ew in H.
    destruct H as [H | [H | [H [skipped [ans [rest [Hin [Hs Ha]]]]]]]]; auto.
    right. right. split; [exact H|].
    destruct (stdin w) as [|a l] eqn:E; cbn [tl] in Hin.
    + destruct skipped; discriminate.
    + exists (a :: skipped), ans, rest. split; [now rewrite Hin|].
      split; [|exact Ha]. constructor; [now split | exact Hs].
Qed.

(** ** The [images] command, once the pipeline has returned *)

Lemma image_line_cases (lib : library) (img : DockerImage) (w : world) :
  (printable img /\ exists line, image_line lib img w = Returns line w)
  \/ (~ printable img /\ image_line lib img w = Panics "slice bounds out of range" w).
Proof.
  unfold image_line, printable.
  destruct (Nat.ltb_spec (String.length (ContentDigest img)) 16).
  - right. split; [lia | reflexivity].
  - left. split; [lia | eexists; reflexivity].
Qed.

Lemma after_output_nil (w : world) : after_output w [] = w.
Proof. destruct w. unfold after_output. cbn. now rewrite app_nil_r. Qed.

Lemma after_output_app (w : world) (l1 l2 : list string) :
  after_output (after_output w l1) l2 = after_output w (l1 ++ l2).
Proof. unfold after_output. cbn. now rewrite app_assoc. Qed.

Lemma print_images_cons (lib : library) (img : DockerImage) (imgs : list DockerImage)
    (w : world) :
  print_images lib (img :: imgs) w
  = match image_line lib img w with
    | Returns line w' => print_images lib imgs (after_output w' [line])
    | Panics msg w' => Panics msg w'
    | Exits code w' => Exits code w'
    | Running w' => Running w'
    end.
Proof. reflexivity. Qed.

(** The listing is written up to the first image that cannot be printed. *)
Lemma print_images_cases (lib : library) (imgs : list DockerImage) (w : world) :
  exists lines,
    (print_images lib imgs w = Returns tt (after_output w lines)
     /\ Forall printable imgs /\ length lines = length imgs)
    \/ (print_images lib imgs w = Panics "slice bounds out of range" (after_output w lines)
        /\ Exists (fun img => ~ printable img) imgs).
Proof.
  revert w. induction imgs as [|img imgs IH]; intros w.
  - exists []. left. rewrite after_output_nil. auto.
  - rewrite print_images_cons.
    destruct (image_line_cases lib img w) as [[Hp [line E]] | [Hp E]]; rewrite E.
    + destruct (IH (after_output w [line])) as [lines [[H [Hf Hl]] | [H He]]];
        rewrite after_output_app in H; exists ([line] ++ lines); [left | right].
      * split; [exact H|]. split; [now constructor | cbn; now rewrite Hl].
      * split; [exact H | now right].
    + exists []. right. rewrite after_output_nil. split; [reflexivity | now left].
Qed.



Lemma images_Action_rest_steps (lib : library) (fuel : nat) (c : cli.Context)
    (r : wire.DockerRegistry) (imgs : list DockerImage) (w : world) :
  images_Action_rest lib fuel c r imgs w
  = if (length imgs =? 0)%nat then Returns (Ok tt) w
    else
      match print_images lib imgs w with
      | Returns _ w1 =>
          if cli.Bool c "delete" then
            match Confirm lib fuel
                    ("Do you really want to delete these "
                     ++ decimal (Z.of_nat (length imgs)) ++ " images? (y/n): ") w1 with
            | Returns yes w2 =>
                if negb yes then Returns (Ok tt) w2
                else
                  match delete_images lib r imgs w2 with
                  | Returns _ w3 => Returns (Ok tt) w3
                  | Panics msg w3 => Panics msg w3
                  | Exits code w3 => Exits code w3
                  | Running w3 => Running w3
                  end
            | Panics msg w2 => Panics msg w2
            | Exits code w2 => Exits code w2
            | Running w2 => Running w2
            end
          else Returns (Ok tt) w1
      | Panics msg w1 => Panics msg w1
      | Exits code w1 => Exits code w1
      | Running w1 => Running w1
      end.
Proof.
  unfold images_Action_rest.
  destruct (length imgs =? 0)%nat; [reflexivity|].
  unfold bind at 1. destruct (print_images lib imgs w); try reflexivity.
  destruct (cli.Bool c "delete"); [|reflexivity].
  unfold bind at 1. destruct (Confirm lib fuel _ w0) as [[|] w2| | |]; reflexivity.
Qed.

(** X18: after the images are fetched, the [images] command sends a
    request only if [--delete] is set, every image could be printed, and
    the first answer read that is [y] or [n] once trimmed is [y]; the empty
    answer read at the end of the input is taken to be neither. *)
Theorem the_images_command_deletes_nothing_unless_confirmed (lib : library)
    (fuel : nat) (c : cli.Context) (r : wire.DockerRegistry) (imgs : list DockerImage)
    (w : world) :
  passed_over lib "" ->
  requests (world_of (images_Action_rest lib fuel c r imgs w)) <> requests w ->
  cli.Bool c "delete" = true
  /\ Forall printable imgs
  /\ exists skipped ans rest,
       stdin w = skipped ++ ans :: rest
       /\ Forall (passed_over lib) skipped
       /\ TrimSpace lib ans = "y".
Proof.
  intros He. rewrite images_Action_rest_steps.
  destruct (length imgs =? 0)%nat; [intros H; now elim H|].
  destruct (print_images_cases lib imgs w) as [lines [[E [Hf _]] | [E _]]]; rewrite E;
    [|intros H; now elim H].
  destruct (cli.Bool c "delete"); [|intros H; now elim H].
  destruct (Confirm_cases lib fuel
              ("Do you really want to delete these "
               ++ decimal (Z.of_nat (length imgs)) ++ " images? (y/n): ")
              (after_output w lines) He) as [n H].
  cbv zeta in H. cbn [network requests stdin stdout stderr after_output] in H.
  destruct H as [H | [H | [H Hy]]]; rewrite H; cbn [negb world_of requests];
    try (intros Hr; now elim Hr).
  intros _. auto.
Qed.

Lemma the_images_command_deletes_nothing_unless_confirmed_witness :
  cli.Bool (example_context true) "delete" = true
  /\ Forall printable [image "back" "nightly" 100]
  /\ exists skipped ans rest,
       ["maybe" ++ LF; "y" ++ LF]%string = skipped ++ ans :: rest
       /\ Forall (passed_over example_library) skipped
       /\ TrimSpace example_library ans = "y".
Proof.
  apply (the_images_command_deletes_nothing_unless_confirmed example_library 2
           (example_context true) example_registry [image "back" "nightly" 100]
           (example_world ["maybe" ++ LF; "y" ++ LF]%string)).
  - split; discriminate.
  - vm_compute. discriminate.
Defined.



(** X20: when the [ContentDigest] of a fetched image is shorter than the 16
    bytes the listing slices from it, the [images] command panics while it
    prints the list, before the line of that image and before any
    question or deletion. *)
Theorem a_short_digest_stops_the_images_command_before_it_asks (lib : library)
    (fuel : nat) (c : cli.Context) (r : wire.DockerRegistry) (imgs : list DockerImage)
    (w : world) :
  Exists (fun img => ~ printable img) imgs ->
  exists lines,
    images_Action_rest lib fuel c r imgs w
    = Panics "slice bounds out of range" (after_output w lines)
    /\ (length lines < length imgs)%nat.
Proof.
  intros Hx. rewrite images_Action_rest_steps.
  destruct imgs as [|img imgs']; [inversion Hx|]. cbn [length Nat.eqb].
  set (imgs := img :: imgs') in *.
  assert (Hl : forall w,
             exists lines,
               print_images lib imgs w
               = Panics "slice bounds out of range" (after_output w lines)
               /\ (length lines < length imgs)%nat).
  { clear w. induction Hx as [x l Hn | x l Hx IH]; intros w.
    - exists []. rewrite print_images_cons.
      destruct (image_line_cases lib x w) as [[Hp _] | [_ E]]; [contradiction|].
      rewrite E, after_output_nil. split; [reflexivity | cbn; lia].
    - rewrite print_images_cons.
      destruct (image_line_cases lib x w) as [[_ [line E]] | [_ E]]; rewrite E.
      + destruct (IH (after_output w [line])) as [lines [H Hlen]].
        exists ([line] ++ lines). rewrite H, after_output_app. split; [reflexivity|].
        cbn [length app]. lia.
      + exists []. rewrite after_output_nil. split; [reflexivity | cbn; lia]. }
  destruct (Hl w) as [lines [E Hlen]]. exists lines. rewrite E. auto.
Qed.

Lemma a_short_digest_stops_the_images_command_before_it_asks_witness :
  exists lines,
    images_Action_rest example_library 2 (example_context true) example_registry
      [image "back" "nightly" 100; image "back" "v1" 50] (example_world ["y" ++ LF]%string)
    = Panics "slice bounds out of range" (after_output (example_world ["y" ++ LF]%string) lines)
    /\ (length lines < 2)%nat.
Proof.
  apply (a_short_digest_stops_the_images_command_before_it_asks example_library 2
           (example_context true) example_registry
           [image "back" "nightly" 100; image "back" "v1" 50]
           (example_world ["y" ++ LF]%string)).
  right. left. unfold printable. cbn. lia.
Defined.

(** ** The [repos] command *)

(** What [Repos] and [Tags] make of the answer to their request. *)
Lemma listing_cases (lib : library) (r : wire.DockerRegistry) (url : string)
    (decode : string -> result (list string)) (w : world) :
  match wire.NewRequest lib "GET" url with
  | Err e => ret (Err e)
  | Ok req => wire.do_api_request lib r req (fun resp => ret (decode (http.Body resp)))
  end w
  = match url_Parse_error lib url with
    | Some e => Returns (Err e) w
    | None =>
        let req := {| http.Method := "GET"; http.URL := url; http.Accept := None |} in
        Returns
          match network w (wire.client r) (requests w) req with
          | Err e => Err e
          | Ok resp =>
              if negb (http.StatusCode resp =? 200) && negb (http.StatusCode resp =? 202) then
                match Decode_RegistryErrorResponse lib (http.Body resp) with
                | Err _ =>
                    Err ("ERROR: Unable to parse JSON for HTTP status code "
                         ++ decimal (http.StatusCode resp))%string
                | Ok errors => Err (wire.Error {| wire.Errors := errors |})
                end
              else decode (http.Body resp)
          end
          (after_requests w [req])
    end.
Proof.
  unfold wire.NewRequest. destruct (url_Parse_error lib url); [reflexivity|].
  cbv zeta. rewrite do_api_request_cases.
  destruct (network w (wire.client r) (requests w) _) as [resp|e]; [|reflexivity].
  destruct (negb (http.StatusCode resp =? 200) && negb (http.StatusCode resp =? 202));
    [|reflexivity].
  destruct (Decode_RegistryErrorResponse lib (http.Body resp)); reflexivity.
Qed.

(** A call of [Tags] returns; against a registry that does not change, what
    it returns does not depend on the requests made before. *)
Lemma Tags_steady (lib : library) (r : wire.DockerRegistry) (repo : string) (w0 w : world) :
  steady w0 -> network w = network w0 ->
  exists answer added,
    wire.Tags lib r repo w = Returns answer (after_requests w added)
    /\ value_of (wire.Tags lib r repo w0) = Some answer.
Proof.
  intros Hs Hn. unfold wire.Tags. rewrite !listing_cases.
  destruct (url_Parse_error lib _) as [e|].
  - exists (Err e), []. now rewrite after_requests_nil.
  - cbv zeta. eexists. eexists. split; [reflexivity|]. cbn [value_of].
    rewrite Hn, (Hs _ (requests w0) (requests w)). reflexivity.
Qed.

Lemma print_repos_lines (lib : library) (r : wire.DockerRegistry) (repos : list string)
    (w0 w : world) :
  steady w0 -> network w = network w0 ->
  exists added,
    print_repos lib r repos w
    = Returns tt
        (after_requests
           (after_output w
              (map (fun repo =>
                      (repo ++ " ("
                       ++ decimal (Z.of_nat (length match value_of (wire.Tags lib r repo w0) with
                                                    | Some (Ok tags) => tags
                                                    | _ => []
                                                    end))
                       ++ " tags)" ++ LF)%string) repos))
           added).
Proof.
  intros Hs. revert w. induction repos as [|repo repos IH]; intros w Hn.
  - exists []. cbn. now rewrite after_output_nil, after_requests_nil.
  - cbn [print_repos map]. unfold bind at 1.
    destruct (Tags_steady lib r repo w0 w Hs Hn) as [answer [added [E Ev]]].
    rewrite E, Ev. unfold bind, Printf.
    match goal with |- exists _, print_repos _ _ _ ?w1 = _ =>
      destruct (IH w1 Hn) as [added' H] end.
    rewrite H. exists (added ++ added'). f_equal.
    unfold after_requests, after_output. cbn [network requests stdin stdout stderr].
    rewrite <- !app_assoc. reflexivity.
Qed.

Lemma init_registry_network (lib : library) (c : cli.Context) (w w1 : world)
    (r : wire.DockerRegistry) :
  init_registry lib c w = Returns r w1 ->
  network w1 = network w /\ stdin w1 = stdin w /\ stdout w1 = stdout w
  /\ filter is_DELETE (requests w1) = filter is_DELETE (requests w).
Proof.
  unfold init_registry. destruct (cli.GlobalString c "url" =? "")%string; [discriminate|].
  unfold bind. rewrite NewDockerRegistry_cases. cbv zeta.
  destruct (url_Parse_error lib _); [discriminate|].
  destruct (network w _ (requests w) _); [|discriminate].
  cbn. intros [= <- <-]. cbn [requests]. rewrite filter_app. cbn. rewrite app_nil_r. auto.
Qed.

Lemma Repos_network (lib : library) (r : wire.DockerRegistry) (w w' : world)
    (answer : result (list string)) :
  wire.Repos lib r w = Returns answer w' ->
  network w' = network w /\ stdin w' = stdin w /\ stdout w' = stdout w.
Proof.
  unfold wire.Repos. rewrite listing_cases.
  destruct (url_Parse_error lib _); cbv zeta; intros [= _ <-]; auto.
Qed.

(** X21: when the registry answers alike however many requests were made
    before, and the list of repositories is read, the [repos] command
    prints for each repository, in order, its name and the number of its
    tags, zero when the tags cannot be read, and returns no error. *)
Theorem the_repos_command_prints_a_line_for_every_repository (lib : library)
    (c : cli.Context) (w w1 w2 : world) (r : wire.DockerRegistry) (repos : list string) :
  steady w ->
  init_registry lib c w = Returns r w1 ->
  wire.Repos lib r w1 = Returns (Ok repos) w2 ->
  exists w',
    repos_Action lib c w = Returns (Ok tt) w'
    /\ stdout w'
       = stdout w
         ++ map (fun repo =>
                   (repo ++ " ("
                    ++ decimal (Z.of_nat (length match value_of (wire.Tags lib r repo w) with
                                                 | Some (Ok tags) => tags
                                                 | _ => []
                                                 end))
                    ++ " tags)" ++ LF)%string) repos
    /\ stdin w' = stdin w.
Proof.
  intros Hs Hi Hr. unfold repos_Action, bind. rewrite Hi, Hr.
  destruct (init_registry_network _ _ _ _ _ Hi) as [Hn1 [Hin1 [Hout1 _]]].
  destruct (Repos_network _ _ _ _ _ Hr) as [Hn2 [Hin2 Hout2]].
  destruct (print_repos_lines lib r repos w w2 Hs) as [added H]; [congruence|].
  rewrite H. eexists. split; [reflexivity|].
  cbn [after_requests after_output stdout stdin]. split; congruence.
Qed.

Lemma the_repos_command_prints_a_line_for_every_repository_witness :
  exists w',
    repos_Action example_library (example_context false) (example_world [])
    = Returns (Ok tt) w'
    /\ stdout w' = [] ++ [("back (3 tags)" ++ LF)%string; ("gone (0 tags)" ++ LF)%string]
    /\ stdin w' = [].
Proof.
  refine (the_repos_command_prints_a_line_for_every_repository example_library
            (example_context false) (example_world []) _ _ example_registry ["back"; "gone"]
            _ eq_refl eq_refl).
  intros client before before' req. reflexivity.
Defined.

(** ** The [delete] command *)

Lemma delete_lines_cons (lib : library) (r : wire.DockerRegistry) (imagetext : string)
    (rest : list string) (w : world) :
  stdin w = imagetext :: rest ->
  delete_lines lib r (stdin w) w
  = let w1 := World (network w) (requests w) rest (stdout w) (stderr w) in
    match wire.ImageDetails lib r imagetext w1 with
    | Returns (Err _) w2 =>
        delete_lines lib r rest
          (after_output w2 [("Unable to retrieve details for " ++ imagetext ++ LF)%string])
    | Returns (Ok img) w2 =>
        match wire.DeleteImage lib r img
                (after_output w2 [("Deleting " ++ Name img ++ ":" ++ Tag img ++ LF)%string]) with
        | Returns (Ok _) w3 => delete_lines lib r rest w3
        | Returns (Err e) w3 => delete_lines lib r rest (after_output w3 [(e ++ LF)%string])
        | Panics msg w3 => Panics msg w3
        | Exits code w3 => Exits code w3
        | Running w3 => Running w3
        end
    | Panics msg w2 => Panics msg w2
    | Exits code w2 => Exits code w2
    | Running w2 => Running w2
    end.
Proof.
  intros E. rewrite E. cbn [delete_lines]. unfold bind at 1. unfold Scan. rewrite E.
  cbv zeta. unfold bind at 1.
  destruct (wire.ImageDetails lib r imagetext _) as [[img|e] w2| | |]; try reflexivity.
  unfold bind at 1. unfold Printf at 1. unfold bind at 1.
  change (World (network w2) (requests w2) (stdin w2)
            (stdout w2 ++ [("Deleting " ++ Name img ++ ":" ++ Tag img ++ LF)%string])
            (stderr w2))
    with (after_output w2 [("Deleting " ++ Name img ++ ":" ++ Tag img ++ LF)%string]).
  destruct (wire.DeleteImage lib r img _) as [[[]|e] w3| | |]; reflexivity.
Qed.

Lemma delete_lines_world (lib : library) (r : wire.DockerRegistry) (left : list string) :
  forall w, stdin w = left ->
    (length (filter is_DELETE (requests (world_of (delete_lines lib r (stdin w) w))))
     <= length (filter is_DELETE (requests w)) + length left)%nat.
Proof.
  induction left as [|imagetext rest IH]; intros w E.
  - rewrite E. cbn. lia.
  - rewrite (delete_lines_cons lib r imagetext rest w E). cbv zeta.
    set (w1 := World (network w) (requests w) rest (stdout w) (stderr w)).
    destruct (ImageDetails_world lib r imagetext w1) as [added [Hw [_ [url Hg]]]].
    assert (Hd : filter is_DELETE (requests w1 ++ added) = filter is_DELETE (requests w)).
    { rewrite filter_app. cbn [w1 requests].
      replace (filter is_DELETE added) with (@nil http.Request); [apply app_nil_r|].
      clear Hw. induction Hg as [|req added [Hm _] _ IHg]; [reflexivity|].
      cbn [filter]. unfold is_DELETE at 1. rewrite Hm. exact IHg. }
    assert (Hstep : forall w3,
               stdin w3 = rest ->
               (length (filter is_DELETE (requests w3))
                <= length (filter is_DELETE (requests w)) + 1)%nat ->
               (length (filter is_DELETE
                          (requests (world_of (delete_lines lib r rest w3))))
                <= length (filter is_DELETE (requests w)) + S (length rest))%nat).
    { intros w3 Hin Hreq. specialize (IH w3 Hin). rewrite Hin in IH. lia. }
    destruct (wire.ImageDetails lib r imagetext w1) as [[img|e] w2|msg w2|code w2|w2];
      cbn [world_of] in Hw; subst w2.
    + set (w2 := after_output _ _).
      destruct (DeleteImage_world lib r img w2) as [answer Ed]. rewrite Ed.
      assert (Hone : (length (filter is_DELETE (delete_requests lib r [img])) <= 1)%nat).
      { unfold delete_requests. cbn [flat_map].
        destruct (wire.NewRequest lib "DELETE" _) as [req|]; cbn; [|lia].
        destruct (is_DELETE req); cbn; lia. }
      assert (Hreq : (length (filter is_DELETE
                                ((requests w1 ++ added) ++ delete_requests lib r [img]))
                      <= length (filter is_DELETE (requests w)) + 1)%nat).
      { rewrite filter_app, length_app, Hd. lia. }
      destruct answer as [[]|e]; apply Hstep; try reflexivity; exact Hreq.
    + apply Hstep; [reflexivity|].
      cbn [after_output after_requests requests]. rewrite Hd. lia.
    + cbn [world_of after_requests requests length]. rewrite Hd. lia.
    + cbn [world_of after_requests requests length]. rewrite Hd. lia.
    + cbn [world_of after_requests requests length]. rewrite Hd. lia.
Qed.

Lemma delete_lines_refused (lib : library) (r : wire.DockerRegistry) (left : list string) :
  Forall (fun line => exists e, wire.repo_and_tag line = Err e) left ->
  forall w, stdin w = left ->
    delete_lines lib r (stdin w) w
    = Returns tt
        (World (network w) (requests w) [] 
           (stdout w
            ++ map (fun line => ("Unable to retrieve details for " ++ line ++ LF)%string) left)
           (stderr w)).
Proof.
  induction 1 as [|imagetext rest [e He] _ IH]; intros w E.
  - rewrite E. cbn. rewrite app_nil_r. destruct w. cbn in *. now subst.
  - rewrite (delete_lines_cons lib r imagetext rest w E). cbv zeta.
    rewrite ImageDetails_steps, He.
    set (w2 := after_output _ _).
    pose proof (IH w2 eq_refl) as H. change (stdin w2) with rest in H. rewrite H.
    subst w2. cbn [after_output network requests stdin stdout stderr map].
    rewrite <- app_assoc. reflexivity.
Qed.

Lemma delete_Action_steps (lib : library) (c : cli.Context) (w : world) :
  delete_Action lib c w
  = match init_registry lib c w with
    | Returns r w1 =>
        match delete_lines lib r (stdin w1) w1 with
        | Returns _ w2 => Returns (Ok tt) w2
        | Panics msg w2 => Panics msg w2
        | Exits code w2 => Exits code w2
        | Running w2 => Running w2
        end
    | Panics msg w1 => Panics msg w1
    | Exits code w1 => Exits code w1
    | Running w1 => Running w1
    end.
Proof.
  unfold delete_Action, bind. destruct (init_registry lib c w); reflexivity.
Qed.

(** X22: the [delete] command sends one [DELETE] request at most for each
    line of its input; when no line is the name of an image, every line is
    answered by an [Unable to retrieve details] line and the command
    returns no error. *)
Theorem the_delete_command_asks_for_one_deletion_a_line_at_most (lib : library)
    (c : cli.Context) (w w1 : world) (r : wire.DockerRegistry) :
  init_registry lib c w = Returns r w1 ->
  (length (filter is_DELETE (requests (world_of (delete_Action lib c w))))
   <= length (filter is_DELETE (requests w)) + length (stdin w))%nat
  /\ (Forall (fun line => exists e, wire.repo_and_tag line = Err e) (stdin w) ->
      delete_Action lib c w
      = Returns (Ok tt)
          (World (network w1) (requests w1) []
             (stdout w1
              ++ map (fun line => ("Unable to retrieve details for " ++ line ++ LF)%string)
                   (stdin w))
             (stderr w1))).
Proof.
  intros Hi. destruct (init_registry_network _ _ _ _ _ Hi) as [_ [Hin [_ Hd]]].
  rewrite delete_Action_steps, Hi. split.
  - pose proof (delete_lines_world lib r (stdin w1) w1 eq_refl) as H.
    rewrite <- Hin, <- Hd.
    destruct (delete_lines lib r (stdin w1) w1); exact H.
  - intros Hf. rewrite <- Hin in Hf |- *.
    now rewrite (delete_lines_refused lib r (stdin w1) Hf w1 eq_refl).
Qed.


Lemma the_delete_command_asks_for_one_deletion_a_line_at_most_witness :
  (length (filter is_DELETE
             (requests (world_of (delete_Action example_library (example_context false)
                                    (example_world ["back:v1"; "back:v2"; "a:b:c"])))))
   <= 0 + 3)%nat.
Proof.
  assert (E : init_registry example_library (example_context false)
                (example_world ["back:v1"; "back:v2"; "a:b:c"])
              = Returns example_registry
                  (World example_network
                     [ {| http.Method := "GET"; http.URL := "http://registry/v2/";
                          http.Accept := None |} ]
                     ["back:v1"; "back:v2"; "a:b:c"] []
                     ["SUCCESS: established connection to http://registry/v2/"]))
    by (vm_compute; reflexivity).
  exact (proj1 (the_delete_command_asks_for_one_deletion_a_line_at_most example_library
                  (example_context false) (example_world ["back:v1"; "back:v2"; "a:b:c"])
                  _ example_registry E)).
Defined.

(** The [delete] command in the registry of the examples: [back:v1] is
    deleted, [back:v2] has no manifest, [a:b:c] is no name of an image. *)
Example delete_in_the_example_registry :
  let w' := world_of (delete_Action example_library (example_context false)
                        (example_world ["back:v1"; "back:v2"; "a:b:c"])) in
  map http.Method (requests w') = ["GET"; "GET"; "GET"; "DELETE"; "GET"]
  /\ stdout w'
     = [("Deleting back:v1" ++ LF)%string;
        ("Unable to retrieve details for back:v2" ++ LF)%string;
        ("Unable to retrieve details for a:b:c" ++ LF)%string].
Proof. cbv zeta. split; vm_compute; reflexivity. Qed.

(** ** The pipeline against the client *)



